(** * attribute-order: a shallow embedding of lib/rules/attribute-order.js

    The rule inspects the attributes, modifiers and comments of an element
    node (and the hash pairs of a mustache statement), reports tokens that
    are not alphabetized or whose category is out of order, and in fix mode
    rebuilds the node.  The embedding keeps the JavaScript behaviour of the
    source:

    - [undefined] is [None], a comparison with [undefined] is false, and
      [x || d] takes [d] for every falsy [x], also for [0];
    - position indexes are integers ([line * column]), [Math.max] and
      [Math.min] range over integers and the two infinities;
    - the fields [appliedOrder] and [tokenGroups] of the rule instance, the
      diagnostics it logs and the replacements it requests from the tree
      helper are the state of a state and error monad; a [TypeError] of the
      source (reading a property of [undefined]) is a thrown completion;
    - arrays the source sorts or drains in place ([node.attributes],
      [node.modifiers], [node.comments], [node.hash.pairs]) are returned as
      the new value of the node;
    - [Array.prototype.sort] is an insertion sort; the examples sort only
      inputs whose order the comparisons of the source determine, whichever
      way an engine pairs the entries.  Where a comparator of the source
      is not consistent (it never returns 0, or returns a boolean), the
      statements about the order of equal entries are statements about this
      insertion order.

    The file has the definitions first (JavaScript primitives, the
    configuration parser, the rule, the notions of the specification and of
    the further statements, the example nodes) and then the statements
    about them. *)

From Stdlib Require Import ZArith List String Ascii Bool Lia DecimalString.
From Stdlib Require Import Permutation Sorted.
From Stdlib Require OrderedTypeEx.
Import ListNotations.

#[local] Set Warnings "-register-all".

Local Open Scope string_scope.
Local Open Scope Z_scope.

(** ** JavaScript values and primitives *)

Module Js.

(** A JavaScript number as the rule meets it: an integer or an infinity
    ([Math.max()] of nothing is [-Infinity], [Math.min()] is [Infinity]). *)
Inductive num : Type :=
| NegInfinity
| Fin (z : Z)
| PosInfinity.

Definition num_ltb (a b : num) : bool :=
  match a, b with
  | NegInfinity, NegInfinity => false
  | NegInfinity, _ => true
  | Fin _, NegInfinity => false
  | Fin x, Fin y => x <? y
  | Fin _, PosInfinity => true
  | PosInfinity, _ => false
  end.

Definition num_eqb (a b : num) : bool :=
  match a, b with
  | NegInfinity, NegInfinity => true
  | Fin x, Fin y => x =? y
  | PosInfinity, PosInfinity => true
  | _, _ => false
  end.

Definition num_max (a b : num) : num := if num_ltb a b then b else a.
Definition num_min (a b : num) : num := if num_ltb b a then b else a.

(** [Math.max(...l)] and [Math.min(...l)]. *)
Definition Math_max (l : list num) : num := fold_left num_max l NegInfinity.
Definition Math_min (l : list num) : num := fold_left num_min l PosInfinity.

(** [a < b] and [a > b] on values that are a number or [undefined]:
    [undefined] converts to [NaN] and every comparison with it is false. *)
Definition lt (a b : option num) : bool :=
  match a, b with
  | Some x, Some y => num_ltb x y
  | _, _ => false
  end.

Definition gt (a b : option num) : bool := lt b a.

(** [a === b] on values that are a number or [undefined]. *)
Definition strict_eq (a b : option num) : bool :=
  match a, b with
  | Some x, Some y => num_eqb x y
  | None, None => true
  | _, _ => false
  end.

(** Truthiness of a value that is an integer or [undefined]. *)
Definition truthy (a : option Z) : bool :=
  match a with
  | Some z => negb (z =? 0)
  | None => false
  end.

Definition of_index (a : option Z) : option num := option_map Fin a.

(** [a || d] for a numeric default [d]. *)
Definition or_else (a : option Z) (d : num) : num :=
  match a with
  | Some z => if z =? 0 then d else Fin z
  | None => d
  end.

(** [a < b] and [a > b] on strings or [undefined]: code units compared
    lexicographically. *)
Definition str_lt (a b : option string) : bool :=
  match a, b with
  | Some x, Some y => String.ltb x y
  | _, _ => false
  end.

Definition str_gt (a b : option string) : bool := str_lt b a.

(** [l.indexOf(x)] as a number: [-1] when absent. *)
Fixpoint indexOf_from {A : Type} (eqb : A -> A -> bool) (x : A) (l : list A) (i : Z) : Z :=
  match l with
  | [] => -1
  | y :: l' => if eqb y x then i else indexOf_from eqb x l' (i + 1)
  end.

Definition indexOf {A : Type} (eqb : A -> A -> bool) (l : list A) (x : A) : Z :=
  indexOf_from eqb x l 0.

(** [l.findIndex(p)], [-1] when no entry satisfies [p]; the callback also
    receives the index. *)
Fixpoint findIndex_from {A : Type} (p : A -> Z -> bool) (l : list A) (i : Z) : Z :=
  match l with
  | [] => -1
  | y :: l' => if p y i then i else findIndex_from p l' (i + 1)
  end.

Definition findIndex {A : Type} (p : A -> Z -> bool) (l : list A) : Z :=
  findIndex_from p l 0.

(** [l[i]]: [undefined] out of range, also for a negative index. *)
Definition at_index {A : Type} (l : list A) (i : Z) : option A :=
  if i <? 0 then None else nth_error l (Z.to_nat i).

(** [l.splice(i, 0, x)] for [0 <= i]: an index past the end appends. *)
Definition splice_in {A : Type} (l : list A) (i : Z) (x : A) : list A :=
  firstn (Z.to_nat i) l ++ x :: skipn (Z.to_nat i) l.

(** [s.startsWith(p)]. *)
Definition startsWith (s p : string) : bool := String.prefix p s.

(** [s.includes(p)] on strings. *)
Definition str_includes (s p : string) : bool :=
  match String.index 0 p s with
  | Some _ => true
  | None => false
  end.

Definition is_upper (c : ascii) : bool :=
  let n := N_of_ascii c in ((65 <=? n) && (n <=? 90))%N.
Definition is_lower (c : ascii) : bool :=
  let n := N_of_ascii c in ((97 <=? n) && (n <=? 122))%N.
Definition is_digit (c : ascii) : bool :=
  let n := N_of_ascii c in ((48 <=? n) && (n <=? 57))%N.

(** The classes of the regular expression of the rule: [[A-Za-z]] and
    [[\w-]]. *)
Definition is_letter (c : ascii) : bool := is_upper c || is_lower c.
Definition is_word_or_dash (c : ascii) : bool :=
  is_letter c || is_digit c || Ascii.eqb c "_"%char || Ascii.eqb c "-"%char.

(** [c.toUpperCase()] on one code unit of the ASCII range. *)
Definition toUpperCase (c : ascii) : ascii :=
  if is_lower c then ascii_of_N (N_of_ascii c - 32) else c.

Fixpoint dropWhile (p : ascii -> bool) (s : string) : string :=
  match s with
  | EmptyString => EmptyString
  | String c s' => if p c then dropWhile p s' else s
  end.

Fixpoint takeWhile (p : ascii -> bool) (s : string) : string :=
  match s with
  | EmptyString => EmptyString
  | String c s' => if p c then String c (takeWhile p s') else EmptyString
  end.

(** [s.slice(0, -1)]: everything but the last code unit. *)
Fixpoint dropLast (s : string) : string :=
  match s with
  | EmptyString => EmptyString
  | String c EmptyString => EmptyString
  | String c s' => String c (dropLast s')
  end.

(** [l.sort(comparefn)] for a comparator without effects.  The language
    leaves the order to the engine when [comparefn] is not consistent; this
    is the insertion order of the engine for short arrays: each entry is
    compared as [comparefn(entry, earlier)] and placed before the first
    earlier entry for which the result is negative. *)
Fixpoint insertBy {A : Type} (comparefn : A -> A -> Z) (x : A) (l : list A) : list A :=
  match l with
  | [] => [x]
  | y :: l' =>
      if comparefn x y <? 0 then x :: y :: l' else y :: insertBy comparefn x l'
  end.

Definition sort {A : Type} (comparefn : A -> A -> Z) (l : list A) : list A :=
  fold_left (fun acc x => insertBy comparefn x acc) l [].

(** The completion of a call: a value, or a thrown error. *)
Inductive Thrown : Type :=
| ConfigError (message : string)
| TypeError.

Inductive Completion (A : Type) : Type :=
| Return (a : A)
| Throw (e : Thrown).

Arguments Return {A} a.
Arguments Throw {A} e.

End Js.

(** ** Rule configuration: [parseConfig] *)

Module Config.
Import Js.

(** The raw configuration value handed to the rule: any JSON-like
    JavaScript value.  An object is the list of its own properties in
    insertion order. *)
Inductive JsValue : Type :=
| JsUndefined
| JsNull
| JsBoolean (b : bool)
| JsNumber (z : Z)
| JsString (s : string)
| JsArray (elems : list JsValue)
| JsObject (props : list (string * JsValue)).

Inductive JsType : Type :=
| TUndefined | TObject | TBoolean | TNumber | TString.

(** [typeof v]: [null] and arrays are objects. *)
Definition typeof (v : JsValue) : JsType :=
  match v with
  | JsUndefined => TUndefined
  | JsNull => TObject
  | JsBoolean _ => TBoolean
  | JsNumber _ => TNumber
  | JsString _ => TString
  | JsArray _ => TObject
  | JsObject _ => TObject
  end.

Definition is_object_type (v : JsValue) : bool :=
  match typeof v with
  | TObject => true
  | _ => false
  end.

Definition truthy (v : JsValue) : bool :=
  match v with
  | JsUndefined | JsNull => false
  | JsBoolean b => b
  | JsNumber z => negb (z =? 0)
  | JsString s => negb (s =? "")%string
  | JsArray _ | JsObject _ => true
  end.

Fixpoint lookup (k : string) (props : list (string * JsValue)) : option JsValue :=
  match props with
  | [] => None
  | (k', v) :: rest => if (k' =? k)%string then Some v else lookup k rest
  end.

(** [o[k] = v] on the property list: an existing key keeps its place. *)
Fixpoint set_prop (k : string) (v : JsValue) (props : list (string * JsValue))
  : list (string * JsValue) :=
  match props with
  | [] => [(k, v)]
  | (k', v') :: rest =>
      if (k' =? k)%string then (k', v) :: rest else (k', v') :: set_prop k v rest
  end.

(** [v.order] for a value whose [typeof] is ["object"]: reading a property
    of [null] throws, an array has no own property of that name. *)
Definition get_order (v : JsValue) : Completion JsValue :=
  match v with
  | JsNull => Throw TypeError
  | JsObject props =>
      match lookup "order" props with
      | Some o => Return o
      | None => Return JsUndefined
      end
  | _ => Return JsUndefined
  end.

Definition is_string_value (s : string) (v : JsValue) : bool :=
  match v with
  | JsString s' => (s' =? s)%string
  | _ => false
  end.

(** [o.includes(s)] for a string [s]: arrays search with SameValueZero,
    strings search a substring, and no other value of this model has a
    callable [includes]. *)
Definition includes (o : JsValue) (s : string) : Completion bool :=
  match o with
  | JsArray elems => Return (existsb (is_string_value s) elems)
  | JsString t => Return (str_includes t s)
  | _ => Throw TypeError
  end.

(** [names.every((attribute) => o.includes(attribute))]. *)
Fixpoint every_included (o : JsValue) (names : list string) : Completion bool :=
  match names with
  | [] => Return true
  | n :: rest =>
      match includes o n with
      | Throw e => Throw e
      | Return false => Return false
      | Return true => every_included o rest
      end
  end.

(** The own enumerable properties that a spread [...v] copies. *)
Fixpoint indexed_from (i : nat) (elems : list JsValue) : list (string * JsValue) :=
  match elems with
  | [] => []
  | e :: rest =>
      (NilEmpty.string_of_uint (Nat.to_uint i), e) :: indexed_from (S i) rest
  end.

Definition own_props (v : JsValue) : list (string * JsValue) :=
  match v with
  | JsObject props => props
  | JsArray elems => indexed_from 0 elems
  | _ => []
  end.

(** [{ ...a, ...v }] for an object [a] given by its properties. *)
Definition spread_over (a : list (string * JsValue)) (v : JsValue)
  : list (string * JsValue) :=
  fold_left (fun acc kv => set_prop (fst kv) (snd kv) acc) (own_props v) a.

Definition REQUIRED : list string := ["arguments"; "attributes"; "modifiers"].

Definition DEFAULT_CONFIG_props : list (string * JsValue) :=
  [("alphabetize", JsBoolean true);
   ("order", JsArray (map JsString REQUIRED))].

Definition DEFAULT_CONFIG : JsValue := JsObject DEFAULT_CONFIG_props.

Definition ERROR_MESSAGE : string := "Your config does not match the allowed values".

Section ParseConfig.

(** The two helpers imported from lib/helpers are parameters of the rule:
    the shape validator and the formatter of the error message. *)
Variable isValidConfigObjectFormat : JsValue -> JsValue -> bool.
Variable createErrorMessage : string -> string -> JsValue -> string.

Definition createAttributesOrderErrorMessage (config : JsValue) : string :=
  createErrorMessage "attribute-order" ERROR_MESSAGE config.

Definition parseConfig (config : JsValue) : Completion JsValue :=
  let errorMessage := createAttributesOrderErrorMessage config in
  if negb (isValidConfigObjectFormat config DEFAULT_CONFIG) then
    Throw (ConfigError errorMessage)
  else
    match config with
    | JsBoolean false => Return (JsBoolean false)
    | _ =>
        if is_object_type config then
          match get_order config with
          | Throw e => Throw e
          | Return o =>
              if truthy o then
                match every_included o REQUIRED with
                | Throw e => Throw e
                | Return false => Throw (ConfigError errorMessage)
                | Return true =>
                    Return (JsObject (spread_over DEFAULT_CONFIG_props config))
                end
              else Return (JsObject (spread_over DEFAULT_CONFIG_props config))
          end
        else Return DEFAULT_CONFIG
    end.

End ParseConfig.

(** The documented shape of an accepted value: it is not [null],
    and the [order] of an object, when it is truthy, is an array. *)
Definition order_is_listlike (v : JsValue) : bool :=
  match get_order v with
  | Throw _ => false
  | Return o =>
      if truthy o then match o with JsArray _ => true | _ => false end else true
  end.


End Config.

(** ** The rule *)

Module AttributeOrder.
Import Js.

(** The parts of an element node or mustache statement the rule is
    concerned with ([TokenType] of the source, in the order of its keys). *)
Inductive TokenType : Type :=
| ARGUMENTS
| ATTRIBUTES
| MODIFIERS
| SPLATTRIBUTES
| COMMENTS.

Definition TokenType_values : list TokenType :=
  [ARGUMENTS; ATTRIBUTES; MODIFIERS; SPLATTRIBUTES; COMMENTS].

Definition TokenType_string (t : TokenType) : string :=
  match t with
  | ARGUMENTS => "arguments"
  | ATTRIBUTES => "attributes"
  | MODIFIERS => "modifiers"
  | SPLATTRIBUTES => "splattributes"
  | COMMENTS => "comments"
  end.

Definition TokenType_eqb (a b : TokenType) : bool :=
  match a, b with
  | ARGUMENTS, ARGUMENTS
  | ATTRIBUTES, ATTRIBUTES
  | MODIFIERS, MODIFIERS
  | SPLATTRIBUTES, SPLATTRIBUTES
  | COMMENTS, COMMENTS => true
  | _, _ => false
  end.

(** The [type] field of the nodes that occur as tokens. *)
Inductive NodeType : Type :=
| AttrNode
| ElementModifierStatement
| MustacheCommentStatement
| CommentStatement
| HashPair.

Definition NodeType_eqb (a b : NodeType) : bool :=
  match a, b with
  | AttrNode, AttrNode
  | ElementModifierStatement, ElementModifierStatement
  | MustacheCommentStatement, MustacheCommentStatement
  | CommentStatement, CommentStatement
  | HashPair, HashPair => true
  | _, _ => false
  end.

(** [type.includes('Comment')]. *)
Definition type_includes_Comment (t : NodeType) : bool :=
  match t with
  | MustacheCommentStatement | CommentStatement => true
  | _ => false
  end.

Record Position : Type := { line : Z; column : Z }.

Record SourceLocation : Type := { loc_start : Position; loc_end : Position }.

(** A token: an attribute, a modifier, a comment or a hash pair.  [value]
    is the text of a comment (or of an attribute's value), [path] the
    [path.original] of a modifier, [params] its parameters and hash, and
    [source] the text the host's accessor [sourceForNode] gives for the
    node, empty for a node that was built and not parsed. *)
Record Token : Type := {
  type : NodeType;
  name : option string;
  key : option string;
  value : option string;
  path : option string;
  params : string;
  loc : SourceLocation;
  isValueless : option bool;
  quoteType : option string;
  source : string
}.

Record ElementNode : Type := {
  tag : string;
  attributes : list Token;
  modifiers : list Token;
  comments : list Token;
  children : list string;
  blockParams : list string;
  selfClosing : bool;
  el_loc : SourceLocation;
  el_source : string
}.

Inductive PathType : Type :=
| PathExpression
| OtherExpression.

Record MustacheStatement : Type := {
  path_type : PathType;
  hash_pairs : list Token;
  mu_source : string
}.

Definition option_string_eqb (a b : option string) : bool :=
  match a, b with
  | Some x, Some y => (x =? y)%string
  | None, None => true
  | _, _ => false
  end.

(** Truthiness of a string or [undefined]. *)
Definition str_truthy (a : option string) : bool :=
  match a with
  | Some s => negb (s =? "")%string
  | None => false
  end.

(** *** The builders of the template library

    [b.loc], [b.attr], [b.elementModifier], [b.mustacheComment],
    [b.comment] and [b.element].  A builder that is given no location
    uses the library's synthetic one, line 1 and column 0; a built node has
    no source text. *)
Module b.

Definition SYNTHETIC : SourceLocation :=
  {| loc_start := {| line := 1; column := 0 |};
     loc_end := {| line := 1; column := 0 |} |}.

Definition or_synthetic (l : option SourceLocation) : SourceLocation :=
  match l with
  | Some x => x
  | None => SYNTHETIC
  end.

Definition attr (n v : option string) (l : option SourceLocation) : Token :=
  {| type := AttrNode; name := n; key := None; value := v; path := None;
     params := ""; loc := or_synthetic l; isValueless := None;
     quoteType := None; source := "" |}.

Definition elementModifier (p : option string) (ps : string)
  (l : option SourceLocation) : Token :=
  {| type := ElementModifierStatement; name := None; key := None;
     value := None; path := p; params := ps; loc := or_synthetic l;
     isValueless := None; quoteType := None; source := "" |}.

Definition mustacheComment (v : option string) (l : option SourceLocation) : Token :=
  {| type := MustacheCommentStatement; name := None; key := None; value := v;
     path := None; params := ""; loc := or_synthetic l; isValueless := None;
     quoteType := None; source := "" |}.

Definition comment (v : option string) (l : option SourceLocation) : Token :=
  {| type := CommentStatement; name := None; key := None; value := v;
     path := None; params := ""; loc := or_synthetic l; isValueless := None;
     quoteType := None; source := "" |}.

(** [b.element(tag, { attrs, modifiers, children, blockParams, comments })]
    followed by the assignment of [selfClosing]. *)
Definition element (t : string) (attrs mods : list Token) (ch bp : list string)
  (cs : list Token) (sc : bool) : ElementNode :=
  {| tag := t; attributes := attrs; modifiers := mods; comments := cs;
     children := ch; blockParams := bp; selfClosing := sc;
     el_loc := SYNTHETIC; el_source := "" |}.

Definition loc (startLine startColumn endLine endColumn : Z) : SourceLocation :=
  {| loc_start := {| line := startLine; column := startColumn |};
     loc_end := {| line := endLine; column := endColumn |} |}.

End b.

(** *** Token groups *)

(** [calculateAttributeIndex]: the relative location of a node. *)
Definition calculateAttributeIndex (node : Token) : Z :=
  line (loc_start (loc node)) * column (loc_start (loc node)).

Definition sourceForNode (node : Token) : string := source node.

(** All the tokens of one token type of a node (class [TokenGroup]; its
    context is the rule, whose two methods it calls are the functions
    above). *)
Record TokenGroup : Type := { group_type : TokenType; items : list Token }.

Definition exists_ (g : TokenGroup) : bool :=
  (0 <? Z.of_nat (List.length (items g))).

Definition indexes (g : TokenGroup) : list Z :=
  map calculateAttributeIndex (items g).

Definition lastIndex (g : TokenGroup) : option Z :=
  match indexes g with
  | [] => None
  | i :: rest => Some (fold_left Z.max rest i)
  end.

Definition firstIndex (g : TokenGroup) : option Z :=
  match indexes g with
  | [] => None
  | i :: rest => Some (fold_left Z.min rest i)
  end.

(** The second capture of the rule's regular expression on a source text:
    after the leading run of non-letters, the longest run of word
    characters and dashes. *)
Definition alpha_key (text : string) : string :=
  takeWhile is_word_or_dash (dropWhile (fun c => negb (is_letter c)) text).

Definition unalphabetizedItemIndex (g : TokenGroup) : Z :=
  let alpha := map (fun attr => alpha_key (sourceForNode attr)) (items g) in
  findIndex
    (fun e idx =>
       (0 <? idx) &&
       match at_index alpha (idx - 1) with
       | Some prev => String.ltb e prev
       | None => false
       end)
    alpha.

(** The object keyed by token type that [groupTokens] and
    [makeTokenGroups] build: always the five keys, in the order of
    [TokenType]. *)
Record TokenGroups : Type := {
  g_arguments : list Token;
  g_attributes : list Token;
  g_modifiers : list Token;
  g_splattributes : list Token;
  g_comments : list Token
}.

Definition no_tokens : TokenGroups :=
  {| g_arguments := []; g_attributes := []; g_modifiers := [];
     g_splattributes := []; g_comments := [] |}.

Definition group (tgs : TokenGroups) (t : TokenType) : TokenGroup :=
  {| group_type := t;
     items := match t with
              | ARGUMENTS => g_arguments tgs
              | ATTRIBUTES => g_attributes tgs
              | MODIFIERS => g_modifiers tgs
              | SPLATTRIBUTES => g_splattributes tgs
              | COMMENTS => g_comments tgs
              end |}.

(** [Object.values(this.tokenGroups)]. *)
Definition values (tgs : TokenGroups) : list TokenGroup :=
  map (group tgs) TokenType_values.

(** [result[tokenType].push(node)]. *)
Definition push (acc : TokenGroups) (t : TokenType) (node : Token) : TokenGroups :=
  match t with
  | ARGUMENTS =>
      {| g_arguments := g_arguments acc ++ [node]; g_attributes := g_attributes acc;
         g_modifiers := g_modifiers acc; g_splattributes := g_splattributes acc;
         g_comments := g_comments acc |}
  | ATTRIBUTES =>
      {| g_arguments := g_arguments acc; g_attributes := g_attributes acc ++ [node];
         g_modifiers := g_modifiers acc; g_splattributes := g_splattributes acc;
         g_comments := g_comments acc |}
  | MODIFIERS =>
      {| g_arguments := g_arguments acc; g_attributes := g_attributes acc;
         g_modifiers := g_modifiers acc ++ [node];
         g_splattributes := g_splattributes acc; g_comments := g_comments acc |}
  | SPLATTRIBUTES =>
      {| g_arguments := g_arguments acc; g_attributes := g_attributes acc;
         g_modifiers := g_modifiers acc;
         g_splattributes := g_splattributes acc ++ [node];
         g_comments := g_comments acc |}
  | COMMENTS =>
      {| g_arguments := g_arguments acc; g_attributes := g_attributes acc;
         g_modifiers := g_modifiers acc; g_splattributes := g_splattributes acc;
         g_comments := g_comments acc ++ [node] |}
  end.

Definition groupTokens (tokens : list (TokenType * Token)) : TokenGroups :=
  fold_left (fun acc tn => push acc (fst tn) (snd tn)) tokens no_tokens.

Definition getTokenType (node : Token) : TokenType :=
  if type_includes_Comment (type node) then COMMENTS
  else if negb (str_truthy (name node)) then MODIFIERS
  else
    match name node with
    | Some n =>
        if startsWith n "@" then ARGUMENTS
        else if startsWith n "..." then SPLATTRIBUTES
        else ATTRIBUTES
    | None => MODIFIERS
    end.

Definition getTokenCategory (tokenType : TokenType) : TokenType :=
  match tokenType with
  | ARGUMENTS | ATTRIBUTES | SPLATTRIBUTES => ATTRIBUTES
  | _ => tokenType
  end.

Definition getMustacheStatementTokens (node : MustacheStatement)
  : list (TokenType * Token) :=
  map (fun attr => (ATTRIBUTES, attr)) (hash_pairs node).

Definition getElementNodeTokens (node : ElementNode) : list (TokenType * Token) :=
  map (fun attr => (getTokenType attr, attr)) (attributes node)
  ++ map (fun modifier => (MODIFIERS, modifier)) (modifiers node)
  ++ map (fun comment => (COMMENTS, comment)) (comments node).

(** [areSplattributesSurrounded], on the token groups of the rule. *)
Definition areSplattributesSurrounded (tgs : TokenGroups) : bool :=
  let splattributeLastIndex := lastIndex (group tgs SPLATTRIBUTES) in
  if lt (of_index splattributeLastIndex) (Some (Fin 0)) then false
  else
    let maxIndex :=
      Math_max (map (fun tokenGroup => or_else (lastIndex tokenGroup) NegInfinity)
                    (values tgs)) in
    let minIndex :=
      Math_min (map (fun tokenGroup => or_else (firstIndex tokenGroup) PosInfinity)
                    (values tgs)) in
    gt (of_index splattributeLastIndex) (Some minIndex)
    && lt (of_index splattributeLastIndex) (Some maxIndex).

(** [getAllIndexes]: the indexes of all tokens, sorted by [a - b]. *)
Definition getAllIndexes (tgs : TokenGroups) : list Z :=
  sort (fun a b => a - b) (flat_map indexes (values tgs)).

(** [this.getAllIndexes.length], as [orderComment] writes it: the [length]
    of the method, which declares no parameter. *)
Definition getAllIndexes_length : Z := 0.

(** [getNode]: the first token of the groups with the type of the given
    node and the same (truthy) name or the same value.  The rule calls it
    with a comment ([orderComment]), whose [value] is a string, which
    [===] compares as text; the value of an attribute is an object, which
    [===] compares by identity and this comparison of texts does not
    tell apart. *)
Definition getNode (tgs : TokenGroups) (wanted : Token) : option Token :=
  find
    (fun node =>
       NodeType_eqb (type node) (type wanted)
       && ((str_truthy (name node) && option_string_eqb (name node) (name wanted))
           || option_string_eqb (value node) (value wanted)))
    (flat_map items (values tgs)).

Definition findUnalphabetizedToken (tokenGroup : TokenGroup) : option Token :=
  at_index (items tokenGroup) (unalphabetizedItemIndex tokenGroup).

Definition findUnorderedToken (tokenGroup : TokenGroup) : option Token :=
  find
    (fun item =>
       strict_eq (Some (Fin (calculateAttributeIndex item)))
                 (of_index (lastIndex tokenGroup)))
    (items tokenGroup).

(** [capitalizedAttribute]: the first code unit in upper case, then
    [slice(1, -1)]; reading [string[0]] of an empty string throws. *)
Definition capitalizedAttribute (s : string) : Completion string :=
  match s with
  | EmptyString => Throw TypeError
  | String c rest => Return (String (toUpperCase c) (dropLast rest))
  end.

Definition createNotAlphabetizedErrorMessage (tokenType : TokenType) (src : string)
  : Completion string :=
  match capitalizedAttribute (TokenType_string tokenType) with
  | Throw e => Throw e
  | Return cap => Return (cap ++ " " ++ src ++ " is not alphabetized")%string
  end.

(** *** The rule instance and its methods *)

Inductive Mode : Type :=
| FixMode
| DetectMode.

Record Config : Type := { alphabetize : bool; order : list TokenType }.

Definition DEFAULT_CONFIG : Config :=
  {| alphabetize := true; order := [ARGUMENTS; ATTRIBUTES; MODIFIERS] |}.

Record Diagnostic : Type := {
  message : string;
  isFixable : bool;
  d_node : Token
}.

(** The rule instance: its configuration and mode, the two fields
    [appliedOrder] and [tokenGroups] (both [undefined] at first), the
    diagnostics passed to [this.log] and the nodes handed to the tree
    helper [replaceNode(node, parentNode, parentKey, newNode)], oldest
    first. *)
Record Rule : Type := {
  config : Config;
  mode : Mode;
  appliedOrder : option (list TokenType);
  tokenGroups : option TokenGroups;
  logged : list Diagnostic;
  replaced : list ElementNode
}.

Definition new_rule (c : Config) (m : Mode) : Rule :=
  {| config := c; mode := m; appliedOrder := None; tokenGroups := None;
     logged := []; replaced := [] |}.

(** Methods run in a state and error monad over the rule instance. *)
Definition M (A : Type) : Type := Rule -> Completion (A * Rule).

Definition ret {A : Type} (a : A) : M A := fun r => Return (a, r).

Definition bind {A B : Type} (m : M A) (f : A -> M B) : M B :=
  fun r =>
    match m r with
    | Return (a, r') => f a r'
    | Throw e => Throw e
    end.

Definition throw {A : Type} (e : Thrown) : M A := fun _ => Throw e.

Definition lift {A : Type} (c : Completion A) : M A :=
  fun r =>
    match c with
    | Return a => Return (a, r)
    | Throw e => Throw e
    end.

Definition this : M Rule := fun r => Return (r, r).

Notation "x <- c1 ;; c2" := (bind c1 (fun x => c2))
  (at level 61, c1 at next level, right associativity).

Definition set_appliedOrder (o : list TokenType) : M unit :=
  fun r =>
    Return (tt, {| config := config r; mode := mode r; appliedOrder := Some o;
                   tokenGroups := tokenGroups r; logged := logged r;
                   replaced := replaced r |}).

Definition set_tokenGroups (tgs : TokenGroups) : M unit :=
  fun r =>
    Return (tt, {| config := config r; mode := mode r;
                   appliedOrder := appliedOrder r; tokenGroups := Some tgs;
                   logged := logged r; replaced := replaced r |}).

(** [this.log(diagnostic)]. *)
Definition log (d : Diagnostic) : M unit :=
  fun r =>
    Return (tt, {| config := config r; mode := mode r;
                   appliedOrder := appliedOrder r; tokenGroups := tokenGroups r;
                   logged := logged r ++ [d]; replaced := replaced r |}).

(** The imported helper [replaceNode]: the request to put [newNode] in the
    place of the node under its parent. *)
Definition replaceNode_helper (newNode : ElementNode) : M unit :=
  fun r =>
    Return (tt, {| config := config r; mode := mode r;
                   appliedOrder := appliedOrder r; tokenGroups := tokenGroups r;
                   logged := logged r; replaced := replaced r ++ [newNode] |}).

(** Reading [this.tokenGroups]; using it while it is [undefined] throws. *)
Definition getTokenGroups : M TokenGroups :=
  fun r =>
    match tokenGroups r with
    | Some tgs => Return (tgs, r)
    | None => Throw TypeError
    end.

Definition makeTokenGroups (tokens : TokenGroups) : M TokenGroups :=
  _ <- set_tokenGroups tokens ;; ret tokens.

(** The [lastIndex] values that pass [Number.isInteger]. *)
Definition integer_lastIndexes (tgs : TokenGroups) : list num :=
  flat_map (fun tokenGroup =>
              match lastIndex tokenGroup with
              | Some i => [Fin i]
              | None => []
              end)
           (values tgs).

Definition getAppliedOrder : M (list TokenType) :=
  r <- this ;;
  match appliedOrder r with
  | Some o => ret o
  | None =>
      tgs <- getTokenGroups ;;
      let maxLastIndex := Math_max (integer_lastIndexes tgs) in
      let minLastIndex := Math_min (integer_lastIndexes tgs) in
      let orderMinusSplattributes :=
        filter (fun attribute => negb (TokenType_eqb attribute SPLATTRIBUTES))
               (order (config r)) in
      let splattributeLastIndex := lastIndex (group tgs SPLATTRIBUTES) in
      let attributeLastIndex := lastIndex (group tgs ATTRIBUTES) in
      let o :=
        if strict_eq (of_index splattributeLastIndex) (Some maxLastIndex)
           || (truthy splattributeLastIndex
               && gt (of_index splattributeLastIndex) (of_index attributeLastIndex))
        then (orderMinusSplattributes ++ [SPLATTRIBUTES])%list
        else if strict_eq (of_index splattributeLastIndex) (Some minLastIndex)
                || (truthy splattributeLastIndex
                    && lt (of_index splattributeLastIndex)
                          (of_index attributeLastIndex))
        then SPLATTRIBUTES :: orderMinusSplattributes
        else (orderMinusSplattributes ++ [SPLATTRIBUTES])%list in
      _ <- set_appliedOrder o ;;
      ret o
  end.

Definition getOrder (tokenType : TokenType) : M Z :=
  o <- getAppliedOrder ;;
  ret (indexOf TokenType_eqb o tokenType).

(** [this.tokenGroups[this.getAppliedOrder()[k]]], whose properties are
    read next: an applied order without a [k]-th entry makes that throw. *)
Definition groupAtRank (k : Z) : M TokenGroup :=
  o <- getAppliedOrder ;;
  tgs <- getTokenGroups ;;
  match at_index o k with
  | Some t => ret (group tgs t)
  | None => throw TypeError
  end.

Definition lastAboveFirstOf (g : TokenGroup) (k : Z) : M bool :=
  other <- groupAtRank k ;;
  ret (gt (of_index (lastIndex g)) (of_index (firstIndex other))).

Definition lastBelowFirstOf (g : TokenGroup) (k : Z) : M bool :=
  other <- groupAtRank k ;;
  ret (lt (of_index (lastIndex g)) (of_index (firstIndex other))).

Definition lastAboveLastOf (g : TokenGroup) (k : Z) : M bool :=
  other <- groupAtRank k ;;
  ret (gt (of_index (lastIndex g)) (of_index (lastIndex other))).

Definition lastBelowLastOf (g : TokenGroup) (k : Z) : M bool :=
  other <- groupAtRank k ;;
  ret (lt (of_index (lastIndex g)) (of_index (lastIndex other))).

(** [a || b] of two computations: [b] runs only when [a] is false. *)
Definition orM (a b : M bool) : M bool :=
  x <- a ;; if x then ret true else b.

(** [isAttributeUnordered]; the result is its truthiness ([undefined],
    which the [default] case gives, is false). *)
Definition isAttributeUnordered (tokenType : TokenType) : M bool :=
  rank <- getOrder tokenType ;;
  tgs <- getTokenGroups ;;
  let g := group tgs tokenType in
  if negb (exists_ g) then ret false
  else if areSplattributesSurrounded tgs then ret false
  else if rank =? 0 then
    orM (lastAboveFirstOf g 1) (orM (lastAboveFirstOf g 2) (lastAboveFirstOf g 3))
  else if rank =? 1 then
    orM (lastBelowFirstOf g 0) (lastAboveFirstOf g 2)
  else if rank =? 2 then
    orM (lastBelowLastOf g 1) (lastAboveLastOf g 3)
  else if rank =? 3 then
    lastBelowLastOf g 2
  else ret false.

(** A template literal prints a missing token type as [undefined]. *)
Definition interpolate (t : option TokenType) : string :=
  match t with
  | Some x => TokenType_string x
  | None => "undefined"
  end.

Definition createUnorderedErrorMessage (tokenType : TokenType) (src : string)
  : M string :=
  rank <- getOrder tokenType ;;
  if rank =? 0 then
    o1 <- getAppliedOrder ;;
    o2 <- getAppliedOrder ;;
    let otherAttributes :=
      (interpolate (at_index o1 1) ++ " and " ++ interpolate (at_index o2 2))%string in
    cap <- lift (capitalizedAttribute (TokenType_string tokenType)) ;;
    ret (cap ++ " " ++ src ++ " must go before " ++ otherAttributes)%string
  else if rank =? 1 then
    cap <- lift (capitalizedAttribute (TokenType_string tokenType)) ;;
    r <- this ;;
    ret (cap ++ " " ++ src ++ " must go after "
             ++ interpolate (at_index (order (config r)) (rank - 1)))%string
  else
    cap <- lift (capitalizedAttribute (TokenType_string tokenType)) ;;
    o <- getAppliedOrder ;;
    ret (cap ++ " " ++ src ++ " must go after "
             ++ interpolate (at_index o (rank - 1)))%string.

(** [l.sort(comparefn)] for a comparator that calls methods of the rule. *)
Fixpoint insertByM {A : Type} (comparefn : A -> A -> M Z) (x : A) (l : list A)
  : M (list A) :=
  match l with
  | [] => ret [x]
  | y :: l' =>
      c <- comparefn x y ;;
      if c <? 0 then ret (x :: y :: l')
      else (rest <- insertByM comparefn x l' ;; ret (y :: rest))
  end.

Fixpoint sortM_from {A : Type} (comparefn : A -> A -> M Z) (acc l : list A)
  : M (list A) :=
  match l with
  | [] => ret acc
  | x :: l' => acc' <- insertByM comparefn x acc ;; sortM_from comparefn acc' l'
  end.

Definition sortM {A : Type} (comparefn : A -> A -> M Z) (l : list A) : M (list A) :=
  sortM_from comparefn [] l.

Definition with_attributes (node : ElementNode) (l : list Token) : ElementNode :=
  {| tag := tag node; attributes := l; modifiers := modifiers node;
     comments := comments node; children := children node;
     blockParams := blockParams node; selfClosing := selfClosing node;
     el_loc := el_loc node; el_source := el_source node |}.

Definition with_modifiers (node : ElementNode) (l : list Token) : ElementNode :=
  {| tag := tag node; attributes := attributes node; modifiers := l;
     comments := comments node; children := children node;
     blockParams := blockParams node; selfClosing := selfClosing node;
     el_loc := el_loc node; el_source := el_source node |}.

Definition with_comments (node : ElementNode) (l : list Token) : ElementNode :=
  {| tag := tag node; attributes := attributes node; modifiers := modifiers node;
     comments := l; children := children node;
     blockParams := blockParams node; selfClosing := selfClosing node;
     el_loc := el_loc node; el_source := el_source node |}.

Definition with_hash_pairs (node : MustacheStatement) (l : list Token)
  : MustacheStatement :=
  {| path_type := path_type node; hash_pairs := l; mu_source := mu_source node |}.

Definition makeToken (nodeType : TokenType) (node : Token) (l : SourceLocation)
  : Token :=
  match nodeType with
  | MODIFIERS => b.elementModifier (path node) (params node) (Some l)
  | COMMENTS =>
      match type node with
      | MustacheCommentStatement => b.mustacheComment (value node) (Some l)
      | _ => b.comment (value node) (Some l)
      end
  | _ => b.attr (name node) (value node) (Some l)
  end.

(** The assignments of [isValueless] and [quoteType] to a rebuilt
    attribute. *)
Definition copy_format (newAttribute currAttr : Token) : Token :=
  if NodeType_eqb (type newAttribute) AttrNode then
    {| type := type newAttribute; name := name newAttribute;
       key := key newAttribute; value := value newAttribute;
       path := path newAttribute; params := params newAttribute;
       loc := loc newAttribute; isValueless := isValueless currAttr;
       quoteType := quoteType currAttr; source := source newAttribute |}
  else newAttribute.

(** The accumulator of the [reduce] in [replaceNode]: the arrays keyed by
    category and the cursor. *)
Record Layout : Type := { placed : TokenGroups; cursor : option Z }.

Definition place (node : ElementNode) (minColumn : Z) (acc : Layout)
  (currAttr : Token) : Layout :=
  let nodeType := getTokenCategory (getTokenType currAttr) in
  let line_ := line (loc_start (el_loc node)) in
  let startColumn :=
    match cursor acc with
    | Some c => if c =? 0 then minColumn else c
    | None => minColumn
    end in
  let endColumn :=
    startColumn + column (loc_end (loc currAttr))
    - column (loc_start (loc currAttr)) in
  let l := b.loc line_ startColumn line_ endColumn in
  let newAttribute := copy_format (makeToken nodeType currAttr l) currAttr in
  {| placed := push (placed acc) nodeType newAttribute;
     cursor := Some (endColumn + 2) |}.

(** The node [replaceNode] builds from the sorted tokens. *)
Definition rebuilt (node : ElementNode) (sorted : list Token) : ElementNode :=
  let minColumn := Z.of_nat (String.length (tag node)) + 2 in
  let acc := fold_left (place node minColumn) sorted
                       {| placed := no_tokens; cursor := None |} in
  b.element (tag node) (g_attributes (placed acc)) (g_modifiers (placed acc))
            (children node) (blockParams node) (g_comments (placed acc))
            (selfClosing node).

Definition replaceNode (node : ElementNode) (sorted : list Token) : M unit :=
  replaceNode_helper (rebuilt node sorted).

(** One turn of the loop of [orderComment] on the head of
    [reverseComments]. *)
Definition reinsert (tgs : TokenGroups) (sorted : list Token) (comment : Token)
  : Completion (list Token) :=
  match getNode tgs comment with
  | None => Throw TypeError
  | Some token =>
      let fromOrder :=
        indexOf Z.eqb (getAllIndexes tgs) (calculateAttributeIndex token) in
      let indexOfNext := at_index (getAllIndexes tgs) (fromOrder + 1) in
      let toPosInSorted :=
        if fromOrder =? getAllIndexes_length - 1 then fromOrder
        else
          findIndex
            (fun node _ =>
               truthy indexOfNext
               && strict_eq (Some (Fin (calculateAttributeIndex node)))
                            (of_index indexOfNext))
            sorted in
      if toPosInSorted <? 0 then Return sorted
      else Return (splice_in sorted toPosInSorted token)
  end.

Fixpoint reinsert_all (tgs : TokenGroups) (reverseComments sorted : list Token)
  : Completion (list Token) :=
  match reverseComments with
  | [] => Return sorted
  | comment :: rest =>
      match reinsert tgs sorted comment with
      | Throw e => Throw e
      | Return sorted' => reinsert_all tgs rest sorted'
      end
  end.

(** [orderComment]: the comments of the node are sorted in place, latest
    first, and shifted out one by one, so the node is left without
    comments; the result is the node and the array [sorted]. *)
Definition orderComment (node : ElementNode) (sorted : list Token)
  : M (ElementNode * list Token) :=
  tgs <- getTokenGroups ;;
  let reverseComments :=
    sort (fun a c => calculateAttributeIndex c - calculateAttributeIndex a)
         (comments node) in
  sorted' <- lift (reinsert_all tgs reverseComments sorted) ;;
  ret (with_comments node [], sorted').

(** The comparator of [alphabetizeAttribute] for [node.attributes]. *)
Definition compareAttributeNames (a c : Token) : M Z :=
  if option_string_eqb (name a) (Some "...attributes") then
    rank <- getOrder SPLATTRIBUTES ;;
    ret (if rank =? 3 then 1 else -1)
  else if str_gt (name a) (name c) then ret 1
  else ret (-1).

Definition compareModifierPaths (a c : Token) : Z :=
  if str_gt (path a) (path c) then 1 else -1.

Definition alphabetizeAttribute (tokenType : TokenType) (node : ElementNode)
  : M ElementNode :=
  tgs <- getTokenGroups ;;
  match findUnalphabetizedToken (group tgs tokenType) with
  | None => ret node
  | Some item =>
      r <- this ;;
      match mode r with
      | FixMode =>
          sortedAttributes <- sortM compareAttributeNames (attributes node) ;;
          let attrs :=
            map (fun attr => b.attr (name attr) (value attr) None) sortedAttributes in
          let sortedModifiers := sort compareModifierPaths (modifiers node) in
          let mods :=
            map (fun m => b.elementModifier (path m) (params m) None)
                sortedModifiers in
          let node := with_modifiers (with_attributes node sortedAttributes)
                                     sortedModifiers in
          let newNode :=
            b.element (tag node) attrs mods (children node) (blockParams node)
                      (comments node) (selfClosing node) in
          let comments_ := comments node in
          let sorted :=
            (attributes newNode ++ modifiers newNode ++ comments_)%list in
          _ <- replaceNode node sorted ;;
          after <- (match comments_ with
                    | [] => ret (node, sorted)
                    | _ :: _ => orderComment node sorted
                    end) ;;
          _ <- replaceNode (fst after) (snd after) ;;
          ret (fst after)
      | DetectMode =>
          msg <- lift (createNotAlphabetizedErrorMessage tokenType
                         (sourceForNode item)) ;;
          _ <- log {| message := msg; isFixable := true; d_node := item |} ;;
          ret node
      end
  end.

(** The comparator of [orderAttribute]; every token of this model has a
    [loc], and a boolean result counts as 1 or 0. *)
Definition compareOrder (a c : Token) : M Z :=
  orderA <- getOrder (getTokenType a) ;;
  orderB <- getOrder (getTokenType c) ;;
  if orderA =? orderB then
    ret (if calculateAttributeIndex c <? calculateAttributeIndex a then 1 else 0)
  else ret (if orderB <? orderA then 1 else -1).

Definition orderAttribute (tokenType : TokenType) (node : ElementNode)
  : M ElementNode :=
  tgs <- getTokenGroups ;;
  let item := findUnorderedToken (group tgs tokenType) in
  r <- this ;;
  match mode r with
  | FixMode =>
      sorted <- sortM compareOrder (attributes node ++ modifiers node)%list ;;
      after <- (match comments node with
                | [] => ret (node, sorted)
                | _ :: _ => orderComment node sorted
                end) ;;
      _ <- replaceNode (fst after) (snd after) ;;
      ret (fst after)
  | DetectMode =>
      match item with
      | None => throw TypeError
      | Some it =>
          msg <- createUnorderedErrorMessage tokenType (sourceForNode it) ;;
          _ <- log {| message := msg; isFixable := true; d_node := it |} ;;
          ret node
      end
  end.

(** [tokenGroup.type !== TokenType.COMMENTS &&
    this.findUnalphabetizedToken(tokenGroup)] for some group. *)
Definition someGroupUnalphabetized (tgs : TokenGroups) : bool :=
  existsb
    (fun tokenGroup =>
       negb (TokenType_eqb (group_type tokenGroup) COMMENTS)
       && match findUnalphabetizedToken tokenGroup with
          | Some _ => true
          | None => false
          end)
    (values tgs).

(** The body of the loop of [checkElementAttributesOrder]. *)
Definition checkTokenType (tokenType : TokenType) (node : ElementNode)
  : M ElementNode :=
  tgs <- getTokenGroups ;;
  r <- this ;;
  let isAttributeUnalphabetized := someGroupUnalphabetized tgs in
  node <- (if alphabetize (config r) && isAttributeUnalphabetized
              && negb (areSplattributesSurrounded tgs)
           then alphabetizeAttribute tokenType node
           else ret node) ;;
  unordered <- isAttributeUnordered tokenType ;;
  if unordered then orderAttribute tokenType node else ret node.

Fixpoint forEachTokenType (types : list TokenType) (node : ElementNode)
  : M ElementNode :=
  match types with
  | [] => ret node
  | tokenType :: rest =>
      node <- checkTokenType tokenType node ;;
      forEachTokenType rest node
  end.

(** [checkElementAttributesOrder]: the result is the node as the call
    leaves it. *)
Definition checkElementAttributesOrder (node : ElementNode) : M ElementNode :=
  if (el_source node =? "")%string then ret node
  else
    _ <- makeTokenGroups (groupTokens (getElementNodeTokens node)) ;;
    r <- this ;;
    forEachTokenType (order (config r)) node.

Definition compareKeys (a c : Token) : Z :=
  if str_gt (key a) (key c) then 1 else -1.

(** [checkMustacheAttributesOrder]: in fix mode the hash pairs of the node
    are sorted in place. *)
Definition checkMustacheAttributesOrder (node : MustacheStatement)
  : M MustacheStatement :=
  if (mu_source node =? "")%string then ret node
  else
    match path_type node with
    | OtherExpression => ret node
    | PathExpression =>
        tokenGroups_ <- makeTokenGroups
                          (groupTokens (getMustacheStatementTokens node)) ;;
        let tokenGroup := group tokenGroups_ ATTRIBUTES in
        r <- this ;;
        if alphabetize (config r) && (0 <=? unalphabetizedItemIndex tokenGroup)
        then
          match mode r with
          | FixMode =>
              ret (with_hash_pairs node (sort compareKeys (hash_pairs node)))
          | DetectMode =>
              match findUnalphabetizedToken tokenGroup with
              | None => throw TypeError
              | Some item =>
                  msg <- lift (createNotAlphabetizedErrorMessage ATTRIBUTES
                                 (sourceForNode item)) ;;
                  _ <- log {| message := msg; isFixable := true;
                              d_node := item |} ;;
                  ret node
              end
          end
        else ret node
    end.

End AttributeOrder.

(** ** The notions of the specification

    The quantities the specification names, written from its words; the
    statements below compare the methods of the rule with them. *)

Module Spec.
Import Js AttributeOrder.

Definition maximum (l : list Z) : option Z :=
  match l with
  | [] => None
  | i :: rest => Some (fold_left Z.max rest i)
  end.

Definition minimum (l : list Z) : option Z :=
  match l with
  | [] => None
  | i :: rest => Some (fold_left Z.min rest i)
  end.

(** The [lastPosition] and the [firstPosition] of every non-empty
    category. *)
Definition lastPositions (tgs : TokenGroups) : list Z :=
  flat_map (fun g => match lastIndex g with Some i => [i] | None => [] end)
           (values tgs).

Definition firstPositions (tgs : TokenGroups) : list Z :=
  flat_map (fun g => match firstIndex g with Some i => [i] | None => [] end)
           (values tgs).

Definition maxLast (tgs : TokenGroups) : option Z := maximum (lastPositions tgs).
Definition minLast (tgs : TokenGroups) : option Z := minimum (lastPositions tgs).
Definition minFirst (tgs : TokenGroups) : option Z := minimum (firstPositions tgs).

(** [s] is defined and [s > a], [s] is defined and [s < a]. *)
Definition exceeds (s a : option Z) : Prop :=
  exists x y, s = Some x /\ a = Some y /\ y < x.

Definition precedes (s a : option Z) : Prop :=
  exists x y, s = Some x /\ a = Some y /\ x < y.

(** The spread exists and its last position lies strictly between the
    least first position and the greatest last position of all
    categories. *)
Definition sandwiched (tgs : TokenGroups) : Prop :=
  exists s lo hi,
    lastIndex (group tgs SPLATTRIBUTES) = Some s
    /\ minFirst tgs = Some lo /\ maxLast tgs = Some hi
    /\ lo < s /\ s < hi.

(** Every token of the groups has a non-negative position index, as every
    parsed token has (lines count from 1, columns from 0). *)
Definition nonnegative (tgs : TokenGroups) : Prop :=
  forall g, In g (values tgs) ->
            Forall (fun t => 0 <= calculateAttributeIndex t) (items g).

(** The defined entries of a list of positions. *)
Definition defined (l : list (option Z)) : list Z :=
  flat_map (fun o => match o with Some i => [i] | None => [] end) l.

Definition nonzero (o : option Z) : Prop := o <> Some 0.

(** No token of the groups has position index 0 or less: no token starts
    at column 0 of its line. *)
Definition positive (tgs : TokenGroups) : Prop :=
  forall g, In g (values tgs) ->
            Forall (fun t => 0 < calculateAttributeIndex t) (items g).

(** [r'] differs from [r] at most in the memoized applied order. *)
Definition same_but_memo (r r' : Rule) : Prop :=
  config r' = config r /\ mode r' = mode r /\ tokenGroups r' = tokenGroups r
  /\ logged r' = logged r /\ replaced r' = replaced r.

(** A node the rule has sorted in place: everything but its three token
    arrays is as before. *)
Definition same_frame (node node' : ElementNode) : Prop :=
  tag node' = tag node /\ children node' = children node
  /\ blockParams node' = blockParams node
  /\ selfClosing node' = selfClosing node
  /\ el_loc node' = el_loc node /\ el_source node' = el_source node.

(** A node built to replace [node]: a new element with the tag, the
    children, the block parameters and the self-closing flag of [node]. *)
Definition rebuilt_from (node newNode : ElementNode) : Prop :=
  tag newNode = tag node /\ children newNode = children node
  /\ blockParams newNode = blockParams node
  /\ selfClosing newNode = selfClosing node.

(** The category names as the messages print them. *)
Definition capitalizedSingular (t : TokenType) : string :=
  match t with
  | ARGUMENTS => "Argument"
  | ATTRIBUTES => "Attribute"
  | MODIFIERS => "Modifier"
  | SPLATTRIBUTES => "Splattribute"
  | COMMENTS => "Comment"
  end.

(** What one step of the check may do to the rule and to the node: in
    detection mode it only logs; in fix mode it only requests replacements
    by nodes rebuilt from the node, and a step without a request leaves
    the node as it was. *)
Definition step_ok (node : ElementNode) (r : Rule) (node' : ElementNode)
  (r' : Rule) : Prop :=
  config r' = config r /\ mode r' = mode r /\ tokenGroups r' = tokenGroups r
  /\ same_frame node node'
  /\ (mode r = DetectMode -> node' = node /\ replaced r' = replaced r)
  /\ (mode r = FixMode ->
      logged r' = logged r
      /\ exists news,
          replaced r' = (replaced r ++ news)%list
          /\ Forall (rebuilt_from node) news
          /\ (news = [] -> node' = node)).

(** The rule is ready to check a node with the token groups [tgs]: the
    groups are made, the configured order has three categories besides
    splattributes, and a memoized applied order has four entries. *)
Definition ready (tgs : TokenGroups) (r : Rule) : Prop :=
  tokenGroups r = Some tgs
  /\ (3 <= List.length
             (filter (fun attribute => negb (TokenType_eqb attribute SPLATTRIBUTES))
                     (order (config r))))%nat
  /\ (forall o, appliedOrder r = Some o -> (4 <= List.length o)%nat).

(** Every comment of the node is a token of the groups. *)
Definition known (tgs : TokenGroups) (node : ElementNode) : Prop :=
  incl (comments node) (flat_map items (values tgs)).

(** From every state that satisfies [P], [m] returns, with a value and a
    state that satisfy [Q]. *)
Definition total {A : Type} (P : Rule -> Prop) (m : M A)
  (Q : A -> Rule -> Prop) : Prop :=
  forall r, P r -> exists v r', m r = Return (v, r') /\ Q v r'.

(** [m] returns [a] from the state [r]. *)
Definition returns {A : Type} (m : M A) (r : Rule) (a : A) : Prop :=
  exists r', m r = Return (a, r').

End Spec.

(** ** The remaining members of the rule *)

Module Rest.
Import Js AttributeOrder.

(** [indexesWithNode]: the name (or, without a name, the value) and the
    index of every token of a group. *)
Definition indexesWithNode (g : TokenGroup) : list (option string * Z) :=
  map (fun node =>
         (if str_truthy (name node) then name node else value node,
          calculateAttributeIndex node))
      (items g).

(** The nodes the two handlers of [visitor] receive. *)
Inductive Visited : Type :=
| MustacheStatementNode (node : MustacheStatement)
| ElementNodeNode (node : ElementNode).

(** [visitor]: the handler for the kind of the node; the result is the
    node as the handler leaves it. *)
Definition visitor (v : Visited) : M Visited :=
  match v with
  | MustacheStatementNode node =>
      node' <- checkMustacheAttributesOrder node ;;
      ret (MustacheStatementNode node')
  | ElementNodeNode node =>
      node' <- checkElementAttributesOrder node ;;
      ret (ElementNodeNode node')
  end.

End Rest.

(** ** Notions used in the statements about sorting and layout *)

Module Derived.
Import Js AttributeOrder Spec.

(** The width of a token in columns, and its category in [replaceNode]. *)
Definition width (t : Token) : Z :=
  column (loc_end (loc t)) - column (loc_start (loc t)).

Definition category (t : Token) : TokenType :=
  getTokenCategory (getTokenType t).

Definition startColumn (t : Token) : Z := column (loc_start (loc t)).
Definition endColumn (t : Token) : Z := column (loc_end (loc t)).

(** The token [replaceNode] builds for [t] on a line from a start
    column. *)
Definition rebuildAt (line_ start : Z) (t : Token) : Token :=
  copy_format
    (makeToken (category t) t (b.loc line_ start line_ (start + width t))) t.

(** The start column the [reduce] of [replaceNode] takes for a cursor. *)
Definition startFor (minColumn : Z) (cur : option Z) : Z :=
  match cur with
  | Some c => if c =? 0 then minColumn else c
  | None => minColumn
  end.

(** The tokens [replaceNode] builds for the sorted tokens, in their
    order, from a cursor. *)
Fixpoint laid_out (line_ minColumn : Z) (cur : option Z) (sorted : list Token)
  : list Token :=
  match sorted with
  | [] => []
  | t :: rest =>
      let start := startFor minColumn cur in
      rebuildAt line_ start t
      :: laid_out line_ minColumn (Some (start + width t + 2)) rest
  end.

Definition has_category (c : TokenType) (t : Token) : bool :=
  TokenType_eqb (category t) c.

(** The rank of a token in an applied order. *)
Definition rankIn (o : list TokenType) (t : Token) : Z :=
  indexOf TokenType_eqb o (getTokenType t).

(** The keys [unalphabetizedItemIndex] compares. *)
Definition alpha_keys (g : TokenGroup) : list string :=
  map (fun attr => alpha_key (sourceForNode attr)) (items g).

(** The callback of [findIndex] in [unalphabetizedItemIndex], on the whole
    array of keys. *)
Abbreviation inversion_at alpha :=
  (fun (e : string) (idx : Z) =>
     (0 <? idx) &&
     match at_index alpha (idx - 1) with
     | Some prev => String.ltb e prev
     | None => false
     end).

(** No key is less than the key before it. *)
Definition alphabetized (keys : list string) : Prop :=
  Sorted (fun a c => String.ltb c a = false) keys.

(** Every code unit of a string satisfies [p]. *)
Fixpoint all_chars (p : ascii -> bool) (s : string) : bool :=
  match s with
  | EmptyString => true
  | String c s' => p c && all_chars p s'
  end.

(** The name of a token starts with a prefix. *)
Definition named_with (prefix : string) (t : Token) : bool :=
  match name t with
  | Some n => startsWith n prefix
  | None => false
  end.

(** The three kinds of attribute nodes by their names: [@name],
    [...name] and the others. *)
Definition is_argument (t : Token) : bool := named_with "@" t.
Definition is_spread (t : Token) : bool :=
  negb (named_with "@" t) && named_with "..." t.
Definition is_plain (t : Token) : bool :=
  negb (named_with "@" t) && negb (named_with "..." t).

(** An attribute node with a name that is not empty. *)
Definition named_attribute (t : Token) : Prop :=
  type t = AttrNode /\ str_truthy (name t) = true.

(** In a list of tokens, no token has a field greater than that of the
    next token (code units compared, as [>] does on strings). *)
Definition ordered_by (field : Token -> option string) (l : list Token) : Prop :=
  Sorted (fun a c => str_gt (field a) (field c) = false) l.

(** The keys [unalphabetizedItemIndex] compares for the hash pairs of a
    mustache statement. *)
Definition pair_keys (node : MustacheStatement) : list string :=
  map (fun pair => alpha_key (sourceForNode pair)) (hash_pairs node).

(** The check of a mustache statement looks at its hash pairs: the
    statement has a source text, its path is a path expression, the rule
    alphabetizes, and some key is less than the key before it. *)
Definition pairs_unalphabetized (r : Rule) (node : MustacheStatement) : Prop :=
  mu_source node <> ""%string /\ path_type node = PathExpression
  /\ alphabetize (config r) = true /\ ~ alphabetized (pair_keys node).

(** The diagnostic for a token that is not alphabetized. *)
Definition notAlphabetized (t : TokenType) (item : Token) : Diagnostic :=
  {| message := (capitalizedSingular t ++ " " ++ sourceForNode item
                 ++ " is not alphabetized")%string;
     isFixable := true; d_node := item |}.

(** An applied order that is memoized on [r] is still the memoized one
    on [r']. *)
Definition memo_kept (r r' : Rule) : Prop :=
  forall o, appliedOrder r = Some o -> appliedOrder r' = Some o.

(** A method never replaces a memoized applied order. *)
Definition keeps_memo {A : Type} (m : M A) : Prop :=
  forall r v r', m r = Return (v, r') -> memo_kept r r'.

(** The configured order without [splattributes]. *)
Definition orderMinusSplattributes (c : Config) : list TokenType :=
  filter (fun attribute => negb (TokenType_eqb attribute SPLATTRIBUTES)) (order c).

(** What a diagnostic of the check of an element says: it is fixable and
    about a token of the group of one of the token types [types]; either
    the token
    [findUnalphabetizedToken] gives for the group, with the message that it
    is not alphabetized, or the token [findUnorderedToken] gives, with a
    message that it must go before or after other categories. *)
Definition reports (tgs : TokenGroups) (types : list TokenType)
  (d : Diagnostic) : Prop :=
  isFixable d = true
  /\ exists t,
      In t types /\ In (d_node d) (items (group tgs t))
      /\ ((findUnalphabetizedToken (group tgs t) = Some (d_node d)
           /\ message d
              = (capitalizedSingular t ++ " " ++ sourceForNode (d_node d)
                 ++ " is not alphabetized")%string)
          \/ (findUnorderedToken (group tgs t) = Some (d_node d)
              /\ exists rest,
                  message d
                  = (capitalizedSingular t ++ " " ++ sourceForNode (d_node d)
                     ++ " must go " ++ rest)%string)).

(** From [r] to [r'] at most [n] diagnostics were logged, each as
    [reports] says. *)
Definition adds (tgs : TokenGroups) (types : list TokenType) (n : nat)
  (r r' : Rule) : Prop :=
  exists ds,
    logged r' = (logged r ++ ds)%list
    /\ Forall (reports tgs types) ds /\ (List.length ds <= n)%nat.

(** All the tokens of an element. *)
Definition tokens_of (node : ElementNode) : list Token :=
  (attributes node ++ modifiers node ++ comments node)%list.

(** The first token starts at a column, and every later token two columns
    after the end of the token before it. *)
Fixpoint spaced (start : Z) (l : list Token) : Prop :=
  match l with
  | [] => True
  | t :: rest => startColumn t = start /\ spaced (endColumn t + 2) rest
  end.

(** What a token built by [replaceNode] has of the token it is built
    for: its token type and its width, the data of its category (and for
    an attribute the two format flags); it lies on one line and has no
    source text. *)
Definition rebuilt_token (ln : Z) (old new : Token) : Prop :=
  getTokenType new = getTokenType old
  /\ width new = width old
  /\ line (loc_start (loc new)) = ln /\ line (loc_end (loc new)) = ln
  /\ source new = ""%string
  /\ match category old with
     | MODIFIERS => path new = path old /\ params new = params old
     | COMMENTS => value new = value old
     | _ => name new = name old /\ value new = value old
            /\ isValueless new = isValueless old
            /\ quoteType new = quoteType old
     end.

(** The comparator of [orderAttribute] once the applied order [o] is
    memoized. *)
Definition compareRanks (o : list TokenType) (a c : Token) : Z :=
  let orderA := rankIn o a in
  let orderB := rankIn o c in
  if orderA =? orderB then
    (if calculateAttributeIndex c <? calculateAttributeIndex a then 1 else 0)
  else if orderB <? orderA then 1 else -1.

(** The tokens of a list with a given rank, in their order. *)
Definition ranked (o : list TokenType) (k : Z) (l : list Token) : list Token :=
  filter (fun t => rankIn o t =? k) l.

(** The comparator of [alphabetizeAttribute] for an attribute that is not
    the spread. *)
Definition compareNames (a c : Token) : Z :=
  if str_gt (name a) (name c) then 1 else -1.

(** An attribute node with a name that is not the spread
    [...attributes]. *)
Definition plainly_named (t : Token) : Prop :=
  named_attribute t /\ name t <> Some "...attributes"%string.

(** A token answers a lookup by [getNode]: it has the type of the wanted
    token and either its name, which is not empty, or its value. *)
Definition answers (wanted t : Token) : Prop :=
  type t = type wanted
  /\ ((str_truthy (name t) = true /\ name t = name wanted)
      \/ value t = value wanted).

(** An element the fix has worked on in place has the attributes and
    the modifiers it had, possibly in another order, and either the
    comments it had or none. *)
Definition same_tokens (node node' : ElementNode) : Prop :=
  Permutation (attributes node') (attributes node)
  /\ Permutation (modifiers node') (modifiers node)
  /\ (comments node' = comments node \/ comments node' = []).

(** What [createUnorderedErrorMessage] says a category must do, for its
    rank in the applied order [o] and the configured order. *)
Definition mustGo (o configured : list TokenType) (rank : Z) : string :=
  if rank =? 0 then
    ("before " ++ interpolate (at_index o 1) ++ " and "
     ++ interpolate (at_index o 2))%string
  else if rank =? 1 then
    ("after " ++ interpolate (at_index configured 0))%string
  else ("after " ++ interpolate (at_index o (rank - 1)))%string.

(** The order [getAppliedOrder] computes from token groups and a
    configuration when none is memoized. *)
Definition appliedOrderFor (tgs : TokenGroups) (c : Config) : list TokenType :=
  let maxLastIndex := Math_max (integer_lastIndexes tgs) in
  let minLastIndex := Math_min (integer_lastIndexes tgs) in
  let splattributeLastIndex := lastIndex (group tgs SPLATTRIBUTES) in
  let attributeLastIndex := lastIndex (group tgs ATTRIBUTES) in
  if strict_eq (of_index splattributeLastIndex) (Some maxLastIndex)
     || (truthy splattributeLastIndex
         && gt (of_index splattributeLastIndex) (of_index attributeLastIndex))
  then (orderMinusSplattributes c ++ [SPLATTRIBUTES])%list
  else if strict_eq (of_index splattributeLastIndex) (Some minLastIndex)
          || (truthy splattributeLastIndex
              && lt (of_index splattributeLastIndex)
                    (of_index attributeLastIndex))
  then SPLATTRIBUTES :: orderMinusSplattributes c
  else (orderMinusSplattributes c ++ [SPLATTRIBUTES])%list.

(** The applied order the rule works with: the memoized one, or else the
    one its token groups and configuration give. *)
Definition effective (r : Rule) : option (list TokenType) :=
  match appliedOrder r with
  | Some o => Some o
  | None =>
      match tokenGroups r with
      | Some tgs => Some (appliedOrderFor tgs (config r))
      | None => None
      end
  end.

(** Two rule instances that check the same tokens under the same
    configuration with the same applied order. *)
Definition alike (r1 r2 : Rule) : Prop :=
  config r1 = config r2 /\ tokenGroups r1 = tokenGroups r2
  /\ effective r1 = effective r2.

(** A method leaves the rule alike. *)
Definition steady {A : Type} (m : M A) : Prop :=
  forall r v r', m r = Return (v, r') -> alike r r'.

(** A method returns the same value on rule instances that are alike. *)
Definition agrees {A : Type} (m : M A) : Prop :=
  forall r1 r2 v r1',
    alike r1 r2 -> m r1 = Return (v, r1') ->
    exists r2', m r2 = Return (v, r2') /\ alike r1' r2'.

(** [n] when a value is there, 0 when it is not. *)
Definition when_some {A : Type} (o : option A) (n : nat) : nat :=
  match o with
  | Some _ => n
  | None => 0
  end.

(** From [before] to [after], [n] entries were added. *)
Definition grown {A : Type} (before after : list A) (n : nat) : Prop :=
  exists added, after = (before ++ added)%list /\ List.length added = n.

(** The positions [areSplattributesSurrounded] takes into account: a
    position 0 is taken for a missing one. *)
Definition counted (l : list Z) : list Z := filter (fun z => negb (z =? 0)) l.

(** The spread has a last position that is not negative and lies
    strictly between the least first position and the greatest last
    position among those that are not 0. *)
Definition enclosed (tgs : TokenGroups) : Prop :=
  exists s lo hi,
    lastIndex (group tgs SPLATTRIBUTES) = Some s /\ 0 <= s
    /\ minimum (counted (firstPositions tgs)) = Some lo
    /\ maximum (counted (lastPositions tgs)) = Some hi
    /\ lo < s /\ s < hi.

(** The fix of a mustache statement sorts its pairs: the statement has
    a source text and a path expression, the rule alphabetizes, and
    [unalphabetizedItemIndex] finds a key out of order. *)
Definition sorts_pairs (c : Config) (node : MustacheStatement) : bool :=
  negb (mu_source node =? "")%string
  && match path_type node with
     | PathExpression => true
     | OtherExpression => false
     end
  && alphabetize c
  && (0 <=? findIndex (inversion_at (pair_keys node)) (pair_keys node)).

(** The keys of the pairs are strings, each less than the next. *)
Definition keys_ascend (l : list Token) : Prop :=
  StronglySorted (fun a c => str_lt (key a) (key c) = true) l.

(** The applied order the rule uses for token groups: the memoized one,
    or else the one they give. *)
Definition orderFor (r : Rule) (tgs : TokenGroups) : list TokenType :=
  match appliedOrder r with
  | Some o => o
  | None => appliedOrderFor tgs (config r)
  end.

(** The tokens follow an applied order: no token of a token type has a
    greater index than a token of a type that comes later in the order. *)
Definition in_applied_order (o : list TokenType) (tgs : TokenGroups) : Prop :=
  forall i j ti tj x y,
    nth_error o i = Some ti -> nth_error o j = Some tj -> (i < j)%nat ->
    In x (items (group tgs ti)) -> In y (items (group tgs tj)) ->
    calculateAttributeIndex x <= calculateAttributeIndex y.

(** In every group but that of the comments, no key is less than the key
    before it. *)
Definition keys_in_order (tgs : TokenGroups) : Prop :=
  forall t, t <> COMMENTS -> alphabetized (alpha_keys (group tgs t)).

End Derived.

(** ** Parsed nodes used in the examples below *)

Module Examples.
Import Js AttributeOrder.

(** The double quote, to write source texts. *)
Definition dq : string := String "034"%char EmptyString.

Definition span (ln col : Z) (text : string) : SourceLocation :=
  b.loc ln col ln (col + Z.of_nat (String.length text)).

(** A parsed attribute [n=v] at a line and column, with its source text. *)
Definition attrAt (n v : string) (ln col : Z) : Token :=
  let text := (n ++ "=" ++ dq ++ v ++ dq)%string in
  {| type := AttrNode; name := Some n; key := None; value := Some v;
     path := None; params := ""; loc := span ln col text;
     isValueless := Some false; quoteType := Some dq; source := text |}.

(** The parsed spread [...attributes], a valueless attribute. *)
Definition splatAt (ln col : Z) : Token :=
  {| type := AttrNode; name := Some "...attributes"; key := None;
     value := Some ""; path := None; params := "";
     loc := span ln col "...attributes"; isValueless := Some true;
     quoteType := None; source := "...attributes" |}.

(** A parsed mustache comment with its text. *)
Definition commentAt (v : string) (ln col : Z) : Token :=
  let text := ("{{!" ++ v ++ "}}")%string in
  {| type := MustacheCommentStatement; name := None; key := None;
     value := Some v; path := None; params := ""; loc := span ln col text;
     isValueless := None; quoteType := None; source := text |}.

(** A parsed hash pair [k=v]. *)
Definition pairAt (k v : string) (ln col : Z) : Token :=
  let text := (k ++ "=" ++ v)%string in
  {| type := HashPair; name := None; key := Some k; value := Some v;
     path := None; params := ""; loc := span ln col text;
     isValueless := None; quoteType := None; source := text |}.

Definition divWith (attrs mods cs : list Token) (text : string) (endLine : Z)
  : ElementNode :=
  {| tag := "div"; attributes := attrs; modifiers := mods; comments := cs;
     children := []; blockParams := []; selfClosing := false;
     el_loc := b.loc 1 0 endLine 0; el_source := text |}.

(** The rule in a mode, as [checkElementAttributesOrder] has it once the
    token groups of the node are made. *)
Definition ruleOn (node : ElementNode) (c : Config) (m : Mode) : Rule :=
  {| config := c; mode := m; appliedOrder := None;
     tokenGroups := Some (groupTokens (getElementNodeTokens node));
     logged := []; replaced := [] |}.

(** The messages a call logged and the nodes it asked to put in place. *)
Definition messagesOf {A : Type} (c : Completion (A * Rule)) : list string :=
  match c with
  | Return (_, r) => map message (logged r)
  | Throw _ => []
  end.

Definition replacementsOf {A : Type} (c : Completion (A * Rule))
  : list ElementNode :=
  match c with
  | Return (_, r) => replaced r
  | Throw _ => []
  end.

Definition appliedOrderOf {A : Type} (c : Completion (A * Rule))
  : option (list TokenType) :=
  match c with
  | Return (_, r) => appliedOrder r
  | Throw _ => None
  end.

(** A rule that has already memoized an applied order. *)
Definition ruleWithMemo (o : list TokenType) (c : Config) (m : Mode) : Rule :=
  {| config := c; mode := m; appliedOrder := Some o; tokenGroups := None;
     logged := []; replaced := [] |}.

(** A rule in the middle of the check of a node: the token groups are
    made and the applied order is memoized. *)
Definition ruleWithin (node : ElementNode) (o : list TokenType) (c : Config)
  (m : Mode) : Rule :=
  {| config := c; mode := m; appliedOrder := Some o;
     tokenGroups := Some (groupTokens (getElementNodeTokens node));
     logged := []; replaced := [] |}.

Definition tokensOf (node : ElementNode) : TokenGroups :=
  groupTokens (getElementNodeTokens node).

Definition names (l : list Token) : list (option string) := map name l.
Definition texts (l : list Token) : list (option string) := map value l.

(** [<div b="1" a="2">]. *)
Definition unsortedDiv : ElementNode :=
  divWith [attrAt "b" "1" 1 5; attrAt "a" "2" 1 11] [] [] "<div b a></div>" 1.

(** The message the specification gives for [unsortedDiv], read without
    and with its back quotes. *)
Definition specifiedMessage : string :=
  ("Attributes a=" ++ dq ++ "2" ++ dq ++ " is not alphabetized")%string.

Definition specifiedMessageQuoted : string :=
  ("Attributes `a=" ++ dq ++ "2" ++ dq ++ "` is not alphabetized")%string.

(** An element over four lines whose first attribute starts its line:
    [class="x"] at line 2, column 0; [...attributes] at line 3, column 2;
    [@a="1"] at line 4, column 4. *)
Definition columnZeroDiv : ElementNode :=
  divWith [attrAt "class" "x" 2 0; splatAt 3 2; attrAt "@a" "1" 4 4] [] []
          "<div class ...attributes @a></div>" 4.

(** [<div class="x" ...attributes @a="1">]. *)
Definition sandwichedDiv : ElementNode :=
  divWith [attrAt "class" "x" 1 5; splatAt 1 15; attrAt "@a" "1" 1 29] [] []
          "<div class ...attributes @a></div>" 1.

(** [<div class="x" @a="1" {{! c }}>]: the comment is the last token. *)
Definition trailingCommentDiv : ElementNode :=
  divWith [attrAt "class" "x" 1 5; attrAt "@a" "1" 1 15] []
          [commentAt " c " 1 22] "<div class @a {{! c }}></div>" 1.

(** [<div class="x" {{! c }} @a="1">]: the comment is followed by [@a]. *)
Definition anchoredCommentDiv : ElementNode :=
  divWith [attrAt "class" "x" 1 5; attrAt "@a" "1" 1 25] []
          [commentAt " c " 1 15] "<div class {{! c }} @a></div>" 1.

(** [<div {{! c }} class="x" {{! c }} @a="1">]: two comments with the
    same text. *)
Definition twinCommentsDiv : ElementNode :=
  divWith [attrAt "class" "x" 1 14; attrAt "@a" "1" 1 33] []
          [commentAt " c " 1 5; commentAt " c " 1 24]
          "<div {{! c }} class {{! c }} @a></div>" 1.

(** [<div ...attributes class="x">] and [<div @a="1" ...attributes>]. *)
Definition spreadFirstDiv : ElementNode :=
  divWith [splatAt 1 5; attrAt "class" "x" 1 19] [] []
          "<div ...attributes class></div>" 1.

Definition spreadLastDiv : ElementNode :=
  divWith [attrAt "@a" "1" 1 5; splatAt 1 12] [] []
          "<div @a ...attributes></div>" 1.

(** A configuration that puts attributes before arguments, and
    [<div b="1" a="2" @x="3">]. *)
Definition attributesFirst : Config :=
  {| alphabetize := true; order := [ATTRIBUTES; ARGUMENTS; MODIFIERS] |}.

Definition mixedDiv : ElementNode :=
  divWith [attrAt "b" "1" 1 5; attrAt "a" "2" 1 11; attrAt "@x" "3" 1 17] [] []
          "<div b a @x></div>" 1.

(** [<div @x="3" a="2" b="1">], the text the fixed [mixedDiv] prints to,
    parsed again. *)
Definition mixedDivFixed : ElementNode :=
  divWith [attrAt "@x" "3" 1 5; attrAt "a" "2" 1 12; attrAt "b" "1" 1 18] [] []
          "<div @x a b></div>" 1.

(** [{{foo b=1 a=2}}]. *)
Definition unsortedMustache : MustacheStatement :=
  {| path_type := PathExpression;
     hash_pairs := [pairAt "b" "1" 1 6; pairAt "a" "2" 1 10];
     mu_source := "{{foo b=1 a=2}}" |}.

(** A shape validator and an error formatter to run [parseConfig] with:
    the validator accepts the values whose [order] can be searched as a
    list. *)
Definition listlike_validator (raw _default : Config.JsValue) : bool :=
  Config.order_is_listlike raw.

Definition plain_message (_rule _text : string) (_raw : Config.JsValue) : string :=
  Config.ERROR_MESSAGE.


End Examples.

(** ** Facts about [parseConfig] *)

Module ConfigFacts.
Import Js Config.

Lemma every_included_array elems names :
  every_included (JsArray elems) names
  = Return (forallb (fun n => existsb (is_string_value n) elems) names).
Proof.
  induction names as [|n names IH]; simpl; [reflexivity|].
  destruct (existsb (is_string_value n) elems); simpl; [exact IH | reflexivity].
Qed.

Lemma lookup_set_prop k k' v props :
  lookup k (set_prop k' v props)
  = if (k' =? k)%string then Some v else lookup k props.
Proof.
  induction props as [|[k0 v0] props IH]; simpl.
  - reflexivity.
  - destruct (k0 =? k')%string eqn:E0; simpl.
    + apply String.eqb_eq in E0; subst k0.
      destruct (k' =? k)%string; reflexivity.
    + destruct (k0 =? k)%string eqn:E1.
      * apply String.eqb_eq in E1; subst k0.
        rewrite String.eqb_sym, E0. reflexivity.
      * exact IH.
Qed.

Lemma lookup_spread_omitted k props :
  lookup k props = None ->
  forall base,
    lookup k (fold_left (fun acc kv => set_prop (fst kv) (snd kv) acc) props base)
    = lookup k base.
Proof.
  induction props as [|[k0 v0] props IH]; simpl; intros Hk base.
  - reflexivity.
  - destruct (k0 =? k)%string eqn:E; [discriminate|].
    rewrite (IH Hk), lookup_set_prop. simpl. rewrite E. reflexivity.
Qed.


Section Facts.

Variable isValidConfigObjectFormat : JsValue -> JsValue -> bool.
Variable createErrorMessage : string -> string -> JsValue -> string.

Let parse := parseConfig isValidConfigObjectFormat createErrorMessage.
Let valid (raw : JsValue) := isValidConfigObjectFormat raw Config.DEFAULT_CONFIG.


(** C10.  An accepted value that is neither [false] nor an object (for
    example [true]) yields the default configuration, and in the
    configuration returned for an object every field the object omits has
    the value of the default configuration. *)
Theorem parseConfig_fills_defaults (raw : JsValue) :
  (valid raw = true -> raw <> JsBoolean false -> is_object_type raw = false ->
   parse raw = Return Config.DEFAULT_CONFIG)
  /\ (forall props cfg k,
        raw = JsObject props ->
        parse raw = Return cfg ->
        lookup k props = None ->
        exists cprops,
          cfg = JsObject cprops
          /\ lookup k cprops = lookup k DEFAULT_CONFIG_props).
Proof.
  subst parse valid. unfold parseConfig. cbv beta zeta. split.
  - intros Hv Hf Hobj. rewrite Hv. cbn [negb].
    destruct raw as [| |bv|z|s|elems|props]; simpl in *; try discriminate;
      try reflexivity.
    destruct bv; [reflexivity | contradiction Hf; reflexivity].
  - intros props cfg k -> Hret Hk.
    destruct (isValidConfigObjectFormat (JsObject props) Config.DEFAULT_CONFIG);
      cbn -[every_included spread_over] in Hret; [|discriminate].
    assert (Hspread :
      lookup k (spread_over DEFAULT_CONFIG_props (JsObject props))
      = lookup k DEFAULT_CONFIG_props).
    { unfold spread_over. cbn [own_props]. apply lookup_spread_omitted, Hk. }
    destruct (lookup "order" props) as [o|];
      cbn -[every_included spread_over] in Hret.
    + destruct (truthy o).
      * destruct (every_included o REQUIRED) as [[|]|e]; try discriminate.
        injection Hret as <-. eexists; split; [reflexivity | exact Hspread].
      * injection Hret as <-. eexists; split; [reflexivity | exact Hspread].
    + injection Hret as <-. eexists; split; [reflexivity | exact Hspread].
Qed.

End Facts.

End ConfigFacts.

(** ** Facts about the applied order *)

Module AppliedOrderFacts.
Import Js AttributeOrder Spec.

Lemma num_max_Fin a c : num_max (Fin a) (Fin c) = Fin (Z.max a c).
Proof.
  unfold num_max. cbn [num_ltb].
  destruct (Z.ltb_spec a c); f_equal; lia.
Qed.

Lemma num_min_Fin a c : num_min (Fin a) (Fin c) = Fin (Z.min a c).
Proof.
  unfold num_min. cbn [num_ltb].
  destruct (Z.ltb_spec c a); f_equal; lia.
Qed.

Lemma fold_max_Fin l : forall a,
  fold_left num_max (map Fin l) (Fin a) = Fin (fold_left Z.max l a).
Proof.
  induction l as [|x l IH]; intros a; cbn [map fold_left]; [reflexivity|].
  rewrite num_max_Fin. apply IH.
Qed.

Lemma fold_min_Fin l : forall a,
  fold_left num_min (map Fin l) (Fin a) = Fin (fold_left Z.min l a).
Proof.
  induction l as [|x l IH]; intros a; cbn [map fold_left]; [reflexivity|].
  rewrite num_min_Fin. apply IH.
Qed.

Lemma Math_max_Fin l :
  Math_max (map Fin l)
  = match maximum l with Some m => Fin m | None => NegInfinity end.
Proof.
  destruct l as [|i rest]; [reflexivity|].
  unfold Math_max. cbn [map fold_left maximum].
  change (num_max NegInfinity (Fin i)) with (Fin i). apply fold_max_Fin.
Qed.

Lemma Math_min_Fin l :
  Math_min (map Fin l)
  = match minimum l with Some m => Fin m | None => PosInfinity end.
Proof.
  destruct l as [|i rest]; [reflexivity|].
  unfold Math_min. cbn [map fold_left minimum].
  change (num_min PosInfinity (Fin i)) with (Fin i). apply fold_min_Fin.
Qed.

Lemma integer_lastIndexes_Fin tgs :
  integer_lastIndexes tgs = map Fin (lastPositions tgs).
Proof.
  unfold integer_lastIndexes, lastPositions.
  induction (values tgs) as [|g l IH]; cbn [flat_map]; [reflexivity|].
  rewrite map_app, IH. destruct (lastIndex g); reflexivity.
Qed.

Lemma fold_max_ge l : forall a, a <= fold_left Z.max l a.
Proof.
  induction l as [|x l IH]; intros a; cbn [fold_left]; [lia|].
  specialize (IH (Z.max a x)). lia.
Qed.

Lemma fold_min_le l : forall a, fold_left Z.min l a <= a.
Proof.
  induction l as [|x l IH]; intros a; cbn [fold_left]; [lia|].
  specialize (IH (Z.min a x)). lia.
Qed.

Lemma fold_min_lower l : forall a x, In x l -> fold_left Z.min l a <= x.
Proof.
  induction l as [|y l IH]; intros a x Hin; cbn [fold_left]; [contradiction|].
  destruct Hin as [->|Hin].
  - pose proof (fold_min_le l (Z.min a x)). lia.
  - apply IH, Hin.
Qed.

Lemma fold_min_in l : forall a, fold_left Z.min l a = a \/ In (fold_left Z.min l a) l.
Proof.
  induction l as [|y l IH]; intros a; cbn [fold_left]; [left; reflexivity|].
  destruct (IH (Z.min a y)) as [H|H].
  - rewrite H. destruct (Z.min_spec a y) as [[_ ->]|[_ ->]];
      [left; reflexivity | right; left; reflexivity].
  - right; right; exact H.
Qed.

Lemma minimum_lower l m x : minimum l = Some m -> In x l -> m <= x.
Proof.
  destruct l as [|i rest]; cbn [minimum]; [discriminate|].
  intros [= <-] [->|Hin]; [apply fold_min_le | apply fold_min_lower, Hin].
Qed.

Lemma minimum_in l m : minimum l = Some m -> In m l.
Proof.
  destruct l as [|i rest]; cbn [minimum]; [discriminate|].
  intros [= <-]. destruct (fold_min_in rest i) as [->|H];
    [left; reflexivity | right; exact H].
Qed.

Lemma minimum_defined l x : In x l -> exists m, minimum l = Some m.
Proof. destruct l; [contradiction | intros _; eexists; reflexivity]. Qed.

(** The last position of a group of the node is one of [lastPositions]. *)
Lemma lastIndex_in_lastPositions tgs t z :
  lastIndex (group tgs t) = Some z -> In z (lastPositions tgs).
Proof.
  intros H. unfold lastPositions. apply in_flat_map.
  exists (group tgs t). split.
  - unfold values. apply in_map. destruct t; cbn; tauto.
  - rewrite H. left; reflexivity.
Qed.

Lemma lastIndex_nonnegative tgs t z :
  nonnegative tgs -> lastIndex (group tgs t) = Some z -> 0 <= z.
Proof.
  intros Hnn H.
  assert (Hin : In (group tgs t) (values tgs)).
  { unfold values. apply in_map. destruct t; cbn; tauto. }
  specialize (Hnn _ Hin). unfold lastIndex, indexes in H.
  destruct (items (group tgs t)) as [|tok rest]; cbn [map] in H; [discriminate|].
  injection H as <-. inversion Hnn; subst.
  pose proof (fold_max_ge (map calculateAttributeIndex rest)
                          (calculateAttributeIndex tok)). lia.
Qed.

Lemma filter_without_splattributes l :
  ~ In SPLATTRIBUTES l ->
  filter (fun attribute => negb (TokenType_eqb attribute SPLATTRIBUTES)) l = l.
Proof.
  induction l as [|x l IH]; intros Hn; cbn [filter]; [reflexivity|].
  destruct x; cbn [TokenType_eqb negb];
    try (rewrite IH; [reflexivity | intros H; apply Hn; right; exact H]).
  exfalso; apply Hn; left; reflexivity.
Qed.

(** X27.  For a node whose applied order is being computed (none is
    memoized on the rule), whose tokens have non-negative positions, and a
    configured order without [splattributes]: with [s] and [a] the last
    positions of splattributes and attributes, if [s] equals [maxLast], or
    is defined and exceeds [a], the applied order is the configured
    categories followed by splattributes; else if [s] equals [minLast], or
    is defined and below [a], it is splattributes followed by the configured
    categories; otherwise splattributes goes last. *)
Theorem getAppliedOrder_places_splattributes (r : Rule) (tgs : TokenGroups) :
  appliedOrder r = None ->
  tokenGroups r = Some tgs ->
  nonnegative tgs ->
  ~ In SPLATTRIBUTES (order (config r)) ->
  let s := lastIndex (group tgs SPLATTRIBUTES) in
  let a := lastIndex (group tgs ATTRIBUTES) in
  let goesLast := s = maxLast tgs \/ exceeds s a in
  let goesFirst := s = minLast tgs \/ precedes s a in
  exists o,
    returns getAppliedOrder r o
    /\ (goesLast -> o = (order (config r) ++ [SPLATTRIBUTES])%list)
    /\ (~ goesLast -> goesFirst -> o = SPLATTRIBUTES :: order (config r))
    /\ (~ goesLast -> ~ goesFirst ->
        o = (order (config r) ++ [SPLATTRIBUTES])%list).
Proof.
  intros Hmemo Htgs Hnn Hcfg s a goesLast goesFirst.
  unfold returns, getAppliedOrder, bind, this, getTokenGroups, set_appliedOrder, ret.
  rewrite Hmemo, Htgs.
  rewrite (filter_without_splattributes _ Hcfg).
  rewrite integer_lastIndexes_Fin, Math_max_Fin, Math_min_Fin.
  fold s a. fold (maxLast tgs) (minLast tgs).
  destruct s as [z|] eqn:Hs.
  - (* the spread exists *)
    pose proof (lastIndex_in_lastPositions tgs SPLATTRIBUTES z Hs) as Hin.
    pose proof (lastIndex_nonnegative tgs SPLATTRIBUTES z Hnn Hs) as Hz.
    assert (Hmax : exists hi, maxLast tgs = Some hi).
    { unfold maxLast. destruct (lastPositions tgs); [contradiction|].
      eexists; reflexivity. }
    destruct Hmax as [hi Hhi].
    destruct (minimum_defined _ _ Hin) as [lo Hlo]. fold (minLast tgs) in Hlo.
    pose proof (minimum_lower _ _ _ Hlo Hin) as Hlo_z.
    pose proof (minimum_in _ _ Hlo) as Hlo_in.
    rewrite Hhi, Hlo. cbn [of_index option_map strict_eq num_eqb truthy].
    assert (Ha : forall y, a = Some y -> 0 <= y).
    { intros y Hy. exact (lastIndex_nonnegative tgs ATTRIBUTES y Hnn Hy). }
    assert (HgoesLast :
      goesLast <->
      ((z =? hi) || (negb (z =? 0) && gt (Some (Fin z)) (option_map Fin a)))
      = true).
    { subst goesLast. unfold exceeds. rewrite Hhi. split.
      - intros [H|(x & y & Hx & Hy & Hlt)].
        + injection H as ->. rewrite Z.eqb_refl. reflexivity.
        + injection Hx as <-. rewrite Hy. cbn [option_map gt lt num_ltb].
          specialize (Ha y Hy).
          apply orb_true_iff; right. apply andb_true_iff; split.
          * apply negb_true_iff, Z.eqb_neq. lia.
          * apply Z.ltb_lt; lia.
      - intros H. apply orb_true_iff in H. destruct H as [H|H].
        + left. apply Z.eqb_eq in H. subst; reflexivity.
        + right. apply andb_true_iff in H. destruct H as [_ H].
          destruct a as [y|]; cbn [option_map gt lt num_ltb] in H;
            [|discriminate].
          exists z, y. repeat split. apply Z.ltb_lt, H. }
    assert (HgoesFirst :
      goesFirst <->
      ((z =? lo) || (negb (z =? 0) && lt (Some (Fin z)) (option_map Fin a)))
      = true).
    { subst goesFirst. unfold precedes. rewrite Hlo. split.
      - intros [H|(x & y & Hx & Hy & Hlt)].
        + injection H as ->. rewrite Z.eqb_refl. reflexivity.
        + injection Hx as <-. rewrite Hy. cbn [option_map lt num_ltb].
          destruct (Z.eqb_spec z 0) as [E|E].
          * (* a spread at position 0 is the least last position *)
            assert (lo = 0).
            { pose proof (lastIndex_in_lastPositions tgs ATTRIBUTES y Hy).
              assert (0 <= lo).
              { clear - Hnn Hlo_in.
                unfold lastPositions in Hlo_in. apply in_flat_map in Hlo_in.
                destruct Hlo_in as (g & Hg & Hl).
                unfold values in Hg. apply in_map_iff in Hg.
                destruct Hg as (t & <- & _).
                destruct (lastIndex (group tgs t)) as [w|] eqn:Hw;
                  [|contradiction].
                destruct Hl as [<-|[]].
                exact (lastIndex_nonnegative tgs t w Hnn Hw). }
              lia. }
            subst. reflexivity.
          * apply orb_true_iff; right. apply andb_true_iff; split;
              [reflexivity | apply Z.ltb_lt; lia].
      - intros H. apply orb_true_iff in H. destruct H as [H|H].
        + left. apply Z.eqb_eq in H. subst; reflexivity.
        + right. apply andb_true_iff in H. destruct H as [_ H].
          destruct a as [y|]; cbn [option_map lt num_ltb] in H;
            [|discriminate].
          exists z, y. repeat split. apply Z.ltb_lt, H. }
    unfold of_index.
    destruct ((z =? hi) || (negb (z =? 0) && gt (Some (Fin z)) (option_map Fin a)))
      eqn:E1.
    + assert (HL : goesLast) by (apply HgoesLast; reflexivity).
      eexists. split; [eexists; reflexivity|].
      repeat split; intros; first [reflexivity | contradiction].
    + assert (HnL : ~ goesLast) by (intros H; apply HgoesLast in H; discriminate).
      destruct ((z =? lo) || (negb (z =? 0) && lt (Some (Fin z)) (option_map Fin a)))
        eqn:E2.
      * assert (HF : goesFirst) by (apply HgoesFirst; reflexivity).
        eexists. split; [eexists; reflexivity|].
        repeat split; intros; first [reflexivity | contradiction].
      * assert (HnF : ~ goesFirst)
          by (intros H; apply HgoesFirst in H; discriminate).
        eexists. split; [eexists; reflexivity|].
        repeat split; intros; first [reflexivity | contradiction].
  - (* no spread: both tests of the method fail; by the words of the
       specification the first holds when there is no token at all and
       none holds otherwise *)
    cbn [of_index option_map strict_eq truthy andb orb].
    eexists. split; [eexists; reflexivity|].
    repeat split; intros; try reflexivity.
    exfalso. subst goesLast goesFirst.
    destruct H0 as [H0|(x & y & Hx & _)]; [|discriminate].
    apply H. left. symmetry in H0. unfold minLast in H0. unfold maxLast.
    destruct (lastPositions tgs); [reflexivity | discriminate].
Qed.

End AppliedOrderFacts.

(** ** Facts about the category-order predicate *)

Module UnorderedFacts.
Import Js AttributeOrder Spec.

Lemma same_but_memo_refl r : same_but_memo r r.
Proof. repeat split. Qed.

Lemma same_but_memo_trans r1 r2 r3 :
  same_but_memo r1 r2 -> same_but_memo r2 r3 -> same_but_memo r1 r3.
Proof.
  unfold same_but_memo. intros (A1 & A2 & A3 & A4 & A5) (B1 & B2 & B3 & B4 & B5).
  repeat split; congruence.
Qed.

Lemma getAppliedOrder_memo r o :
  appliedOrder r = Some o -> getAppliedOrder r = Return (o, r).
Proof.
  intros H. unfold getAppliedOrder, bind, this, ret. rewrite H. reflexivity.
Qed.

(** A call of [getAppliedOrder] that returns leaves its result memoized
    and nothing else changed. *)
Lemma getAppliedOrder_spec r o r' :
  getAppliedOrder r = Return (o, r') ->
  appliedOrder r' = Some o /\ same_but_memo r r'.
Proof.
  unfold getAppliedOrder, bind, this, getTokenGroups, set_appliedOrder, ret.
  destruct (appliedOrder r) as [o0|] eqn:Hm.
  - intros [= <- <-]. split; [exact Hm | apply same_but_memo_refl].
  - destruct (tokenGroups r) as [tgs|]; [|discriminate].
    intros [= <- <-]. split; [reflexivity | repeat split].
Qed.

Lemma getTokenGroups_some r tgs :
  tokenGroups r = Some tgs -> getTokenGroups r = Return (tgs, r).
Proof. intros H. unfold getTokenGroups. rewrite H. reflexivity. Qed.

Lemma getOrder_memo r o t :
  appliedOrder r = Some o ->
  getOrder t r = Return (indexOf TokenType_eqb o t, r).
Proof.
  intros H. unfold getOrder, bind, ret. rewrite (getAppliedOrder_memo r o H).
  reflexivity.
Qed.

Lemma groupAtRank_memo r o tgs k c :
  appliedOrder r = Some o -> tokenGroups r = Some tgs ->
  at_index o k = Some c ->
  groupAtRank k r = Return (group tgs c, r).
Proof.
  intros Ho Ht Hk. unfold groupAtRank, bind, ret.
  rewrite (getAppliedOrder_memo r o Ho), (getTokenGroups_some r tgs Ht), Hk.
  reflexivity.
Qed.

Lemma orM_returns (m1 m2 : M bool) r x y :
  m1 r = Return (x, r) -> m2 r = Return (y, r) ->
  orM m1 m2 r = Return (x || y, r).
Proof.
  intros H1 H2. unfold orM, bind, ret. rewrite H1.
  destruct x; [reflexivity | exact H2].
Qed.

Section Ranked.

Variables (r : Rule) (o : list TokenType) (tgs : TokenGroups).
Hypothesis Hmemo : appliedOrder r = Some o.
Hypothesis Hgroups : tokenGroups r = Some tgs.

Let L (x : TokenGroup) := of_index (lastIndex x).
Let F (x : TokenGroup) := of_index (firstIndex x).

Lemma lastAboveFirstOf_memo g k c :
  at_index o k = Some c ->
  lastAboveFirstOf g k r = Return (gt (L g) (F (group tgs c)), r).
Proof.
  intros Hk. unfold lastAboveFirstOf, bind, ret.
  rewrite (groupAtRank_memo r o tgs k c Hmemo Hgroups Hk). reflexivity.
Qed.

Lemma lastBelowFirstOf_memo g k c :
  at_index o k = Some c ->
  lastBelowFirstOf g k r = Return (lt (L g) (F (group tgs c)), r).
Proof.
  intros Hk. unfold lastBelowFirstOf, bind, ret.
  rewrite (groupAtRank_memo r o tgs k c Hmemo Hgroups Hk). reflexivity.
Qed.

Lemma lastAboveLastOf_memo g k c :
  at_index o k = Some c ->
  lastAboveLastOf g k r = Return (gt (L g) (L (group tgs c)), r).
Proof.
  intros Hk. unfold lastAboveLastOf, bind, ret.
  rewrite (groupAtRank_memo r o tgs k c Hmemo Hgroups Hk). reflexivity.
Qed.

Lemma lastBelowLastOf_memo g k c :
  at_index o k = Some c ->
  lastBelowLastOf g k r = Return (lt (L g) (L (group tgs c)), r).
Proof.
  intros Hk. unfold lastBelowLastOf, bind, ret.
  rewrite (groupAtRank_memo r o tgs k c Hmemo Hgroups Hk). reflexivity.
Qed.

(** The predicate on a rule whose applied order, of at least four
    categories, is memoized. *)
Lemma isAttributeUnordered_memo t c0 c1 c2 c3 rest :
  o = c0 :: c1 :: c2 :: c3 :: rest ->
  let g := group tgs t in
  let rank := indexOf TokenType_eqb o t in
  isAttributeUnordered t r
  = Return
      (if negb (exists_ g) then false
       else if areSplattributesSurrounded tgs then false
       else if rank =? 0 then
         gt (L g) (F (group tgs c1)) || (gt (L g) (F (group tgs c2))
                                          || gt (L g) (F (group tgs c3)))
       else if rank =? 1 then
         lt (L g) (F (group tgs c0)) || gt (L g) (F (group tgs c2))
       else if rank =? 2 then
         lt (L g) (L (group tgs c1)) || gt (L g) (L (group tgs c3))
       else if rank =? 3 then lt (L g) (L (group tgs c2))
       else false, r).
Proof.
  intros Ho g rank. unfold isAttributeUnordered, bind.
  rewrite (getOrder_memo r o t Hmemo), (getTokenGroups_some r tgs Hgroups).
  fold g rank.
  assert (H0 : at_index o 0 = Some c0) by (rewrite Ho; reflexivity).
  assert (H1 : at_index o 1 = Some c1) by (rewrite Ho; reflexivity).
  assert (H2 : at_index o 2 = Some c2) by (rewrite Ho; reflexivity).
  assert (H3 : at_index o 3 = Some c3) by (rewrite Ho; reflexivity).
  destruct (negb (exists_ g)); [reflexivity|].
  destruct (areSplattributesSurrounded tgs); [reflexivity|].
  destruct (rank =? 0).
  { apply orM_returns; [apply lastAboveFirstOf_memo, H1|].
    apply orM_returns; apply lastAboveFirstOf_memo; assumption. }
  destruct (rank =? 1).
  { apply orM_returns;
      [apply lastBelowFirstOf_memo, H0 | apply lastAboveFirstOf_memo, H2]. }
  destruct (rank =? 2).
  { apply orM_returns;
      [apply lastBelowLastOf_memo, H1 | apply lastAboveLastOf_memo, H3]. }
  destruct (rank =? 3).
  { apply lastBelowLastOf_memo, H2. }
  reflexivity.
Qed.

End Ranked.

(** C4, amended.  With the applied order [c0, c1, c2, c3, ...] of the node,
    the predicate is false for a category without tokens and for every
    category of a node whose splattributes are surrounded; for a category
    with tokens of a node whose splattributes are not surrounded it is, at
    rank 0, whether its last position exceeds the first position of [c1],
    [c2] or [c3]; at rank 1, whether it is below the first position of [c0]
    or exceeds that of [c2]; at rank 2, whether it is below the last
    position of [c1] or exceeds that of [c3]; at rank 3, whether it is below
    the last position of [c2]. *)
Theorem isAttributeUnordered_by_rank
  (r : Rule) (tgs : TokenGroups) (o : list TokenType) (t c0 c1 c2 c3 : TokenType)
  (rest : list TokenType) :
  tokenGroups r = Some tgs ->
  returns getAppliedOrder r o ->
  o = c0 :: c1 :: c2 :: c3 :: rest ->
  let g := group tgs t in
  let rank := indexOf TokenType_eqb o t in
  let L x := of_index (lastIndex x) in
  let F x := of_index (firstIndex x) in
  exists v,
    returns (isAttributeUnordered t) r v
    /\ (exists_ g = false -> v = false)
    /\ (areSplattributesSurrounded tgs = true -> v = false)
    /\ (exists_ g = true -> areSplattributesSurrounded tgs = false ->
        (rank = 0 ->
         v = gt (L g) (F (group tgs c1)) || gt (L g) (F (group tgs c2))
             || gt (L g) (F (group tgs c3)))
        /\ (rank = 1 ->
            v = lt (L g) (F (group tgs c0)) || gt (L g) (F (group tgs c2)))
        /\ (rank = 2 ->
            v = lt (L g) (L (group tgs c1)) || gt (L g) (L (group tgs c3)))
        /\ (rank = 3 -> v = lt (L g) (L (group tgs c2)))).
Proof.
  intros Hgroups [r1 Hret] Ho g rank L F.
  destruct (getAppliedOrder_spec r o r1 Hret) as [Hmemo (_ & _ & Hsame & _ & _)].
  assert (Hgroups1 : tokenGroups r1 = Some tgs) by congruence.
  pose proof (isAttributeUnordered_memo r1 o tgs Hmemo Hgroups1 t c0 c1 c2 c3 rest Ho)
    as Hrun.
  cbv zeta in Hrun. fold g rank in Hrun.
  eexists. split.
  - unfold returns, isAttributeUnordered, bind, getOrder.
    unfold bind at 1. rewrite Hret. cbn [ret].
    exists r1. 
    unfold isAttributeUnordered, bind, getOrder in Hrun.
    unfold bind at 1 in Hrun. 
    rewrite (getAppliedOrder_memo r1 o Hmemo) in Hrun. cbn [ret] in Hrun.
    exact Hrun.
  - subst L F. repeat split; intros;
      repeat match goal with
             | H : exists_ g = _ |- _ => rewrite H; clear H
             | H : areSplattributesSurrounded tgs = _ |- _ => rewrite H; clear H
             | H : rank = _ |- _ => rewrite H; clear H
             end;
      cbn [negb Z.eqb]; rewrite ?orb_assoc;
      first [reflexivity | destruct (negb (exists_ g)); reflexivity].
Qed.

End UnorderedFacts.

(** ** Facts about the check and the fixers *)

Module FixFacts.
Import Js AttributeOrder Spec UnorderedFacts.

Lemma bind_inv {A B : Type} (m : M A) (f : A -> M B) r v r' :
  bind m f r = Return (v, r') ->
  exists a r1, m r = Return (a, r1) /\ f a r1 = Return (v, r').
Proof.
  unfold bind. destruct (m r) as [[a r1]|e]; [|discriminate].
  intros H. exists a, r1. split; [reflexivity | exact H].
Qed.

Lemma ret_inv {A : Type} (a v : A) r r' :
  ret a r = Return (v, r') -> v = a /\ r' = r.
Proof. unfold ret. intros [= <- <-]. split; reflexivity. Qed.

Lemma this_inv r v r' : this r = Return (v, r') -> v = r /\ r' = r.
Proof. unfold this. intros [= <- <-]. split; reflexivity. Qed.

Lemma getTokenGroups_inv r v r' :
  getTokenGroups r = Return (v, r') -> tokenGroups r = Some v /\ r' = r.
Proof.
  unfold getTokenGroups. destruct (tokenGroups r); [|discriminate].
  intros [= <- <-]. split; reflexivity.
Qed.

Lemma lift_inv {A : Type} (c : Completion A) r v r' :
  lift c r = Return (v, r') -> c = Return v /\ r' = r.
Proof.
  unfold lift. destruct c; [|discriminate].
  intros [= <- <-]. split; reflexivity.
Qed.

(** Splits a hypothesis on a sequence of calls into one per call. *)
Ltac minv_fresh H :=
  let a := fresh "a" in
  let r1 := fresh "r" in
  let H1 := fresh "Hcall" in
  apply bind_inv in H; destruct H as (a & r1 & H1 & H).

Tactic Notation "minv" hyp(H) := minv_fresh H.

Tactic Notation "minv" hyp(H) "as" ident(a) ident(r1) ident(H1) :=
  apply bind_inv in H; destruct H as (a & r1 & H1 & H).

Lemma getOrder_frame t r v r' :
  getOrder t r = Return (v, r') -> same_but_memo r r'.
Proof.
  unfold getOrder. intros H. minv H. apply ret_inv in H. destruct H as [_ ->].
  apply getAppliedOrder_spec in Hcall. tauto.
Qed.

Lemma groupAtRank_frame k r v r' :
  groupAtRank k r = Return (v, r') -> same_but_memo r r'.
Proof.
  unfold groupAtRank. intros H. minv H. minv H.
  apply getAppliedOrder_spec in Hcall. destruct Hcall as [_ Hsame].
  apply getTokenGroups_inv in Hcall0. destruct Hcall0 as [_ ->].
  destruct (at_index a k); [|discriminate].
  apply ret_inv in H. destruct H as [_ ->]. exact Hsame.
Qed.

Lemma compare_frame (f : TokenGroup -> Z -> M bool) g k r v r' :
  (f = lastAboveFirstOf \/ f = lastBelowFirstOf
   \/ f = lastAboveLastOf \/ f = lastBelowLastOf) ->
  f g k r = Return (v, r') -> same_but_memo r r'.
Proof.
  intros [ -> | [ -> | [ -> | -> ]]] H;
    unfold lastAboveFirstOf, lastBelowFirstOf, lastAboveLastOf, lastBelowLastOf in H;
    minv H; apply ret_inv in H; destruct H as [_ ->];
    exact (groupAtRank_frame _ _ _ _ Hcall).
Qed.

Lemma orM_frame (m1 m2 : M bool) r v r' :
  (forall r0 v0 r0', m1 r0 = Return (v0, r0') -> same_but_memo r0 r0') ->
  (forall r0 v0 r0', m2 r0 = Return (v0, r0') -> same_but_memo r0 r0') ->
  orM m1 m2 r = Return (v, r') -> same_but_memo r r'.
Proof.
  intros H1 H2 H. unfold orM in H. minv H.
  destruct a.
  - apply ret_inv in H. destruct H as [_ ->]. exact (H1 _ _ _ Hcall).
  - exact (same_but_memo_trans _ _ _ (H1 _ _ _ Hcall) (H2 _ _ _ H)).
Qed.

(** The predicate changes nothing of the rule but the memoized order. *)
Lemma isAttributeUnordered_frame t r v r' :
  isAttributeUnordered t r = Return (v, r') -> same_but_memo r r'.
Proof.
  unfold isAttributeUnordered. intros H. minv H. minv H.
  pose proof (getOrder_frame _ _ _ _ Hcall) as S1.
  apply getTokenGroups_inv in Hcall0. destruct Hcall0 as [_ ->].
  assert (Hc : forall f g k r0 v0 r0',
             (f = lastAboveFirstOf \/ f = lastBelowFirstOf
              \/ f = lastAboveLastOf \/ f = lastBelowLastOf) ->
             f g k r0 = Return (v0, r0') -> same_but_memo r0 r0')
    by (intros; eapply compare_frame; eassumption).
  apply (same_but_memo_trans _ _ _ S1).
  destruct (negb (exists_ _)).
  { apply ret_inv in H. destruct H as [_ ->]. apply same_but_memo_refl. }
  destruct (areSplattributesSurrounded _).
  { apply ret_inv in H. destruct H as [_ ->]. apply same_but_memo_refl. }
  destruct (a =? 0).
  { revert H. apply orM_frame; [|intros ? ? ?; apply orM_frame];
      intros ? ? ?; apply Hc; tauto. }
  destruct (a =? 1).
  { revert H. apply orM_frame; intros ? ? ?; apply Hc; tauto. }
  destruct (a =? 2).
  { revert H. apply orM_frame; intros ? ? ?; apply Hc; tauto. }
  destruct (a =? 3).
  { revert H. apply Hc; tauto. }
  apply ret_inv in H. destruct H as [_ ->]. apply same_but_memo_refl.
Qed.

Lemma insertByM_frame {A : Type} (cmp : A -> A -> M Z) x l :
  (forall u w r0 v0 r0', cmp u w r0 = Return (v0, r0') -> same_but_memo r0 r0') ->
  forall r v r', insertByM cmp x l r = Return (v, r') -> same_but_memo r r'.
Proof.
  intros Hcmp. induction l as [|y l IH]; intros r v r' H; cbn [insertByM] in H.
  - apply ret_inv in H. destruct H as [_ ->]. apply same_but_memo_refl.
  - minv H. pose proof (Hcmp _ _ _ _ _ Hcall) as S1.
    destruct (a <? 0).
    + apply ret_inv in H. destruct H as [_ ->]. exact S1.
    + minv H. apply ret_inv in H. destruct H as [_ ->].
      exact (same_but_memo_trans _ _ _ S1 (IH _ _ _ Hcall0)).
Qed.

Lemma sortM_frame {A : Type} (cmp : A -> A -> M Z) l :
  (forall u w r0 v0 r0', cmp u w r0 = Return (v0, r0') -> same_but_memo r0 r0') ->
  forall r v r', sortM cmp l r = Return (v, r') -> same_but_memo r r'.
Proof.
  intros Hcmp. unfold sortM. generalize (@nil A) as acc.
  induction l as [|x l IH]; intros acc r v r' H; cbn [sortM_from] in H.
  - apply ret_inv in H. destruct H as [_ ->]. apply same_but_memo_refl.
  - minv H.
    exact (same_but_memo_trans _ _ _ (insertByM_frame cmp x acc Hcmp _ _ _ Hcall)
                               (IH _ _ _ _ H)).
Qed.

Lemma compareAttributeNames_frame u w r v r' :
  compareAttributeNames u w r = Return (v, r') -> same_but_memo r r'.
Proof.
  unfold compareAttributeNames. intros H.
  destruct (option_string_eqb _ _).
  - minv H. apply ret_inv in H. destruct H as [_ ->].
    exact (getOrder_frame _ _ _ _ Hcall).
  - destruct (str_gt _ _); apply ret_inv in H; destruct H as [_ ->];
      apply same_but_memo_refl.
Qed.

Lemma compareOrder_frame u w r v r' :
  compareOrder u w r = Return (v, r') -> same_but_memo r r'.
Proof.
  unfold compareOrder. intros H. minv H. minv H.
  pose proof (getOrder_frame _ _ _ _ Hcall) as S1.
  pose proof (getOrder_frame _ _ _ _ Hcall0) as S2.
  destruct (a =? a0); apply ret_inv in H; destruct H as [_ ->];
    exact (same_but_memo_trans _ _ _ S1 S2).
Qed.

Lemma orderComment_frame node sorted r v r' :
  orderComment node sorted r = Return (v, r') ->
  r' = r /\ fst v = with_comments node [].
Proof.
  unfold orderComment. intros H. minv H. minv H.
  apply getTokenGroups_inv in Hcall. destruct Hcall as [_ ->].
  apply lift_inv in Hcall0. destruct Hcall0 as [_ ->].
  apply ret_inv in H. destruct H as [-> ->]. split; reflexivity.
Qed.

Lemma rebuilt_from_rebuilt node sorted : rebuilt_from node (rebuilt node sorted).
Proof. repeat split. Qed.

Lemma replaceNode_inv node sorted r v r' :
  replaceNode node sorted r = Return (v, r') ->
  config r' = config r /\ mode r' = mode r
  /\ appliedOrder r' = appliedOrder r /\ tokenGroups r' = tokenGroups r
  /\ logged r' = logged r
  /\ replaced r' = (replaced r ++ [rebuilt node sorted])%list.
Proof.
  unfold replaceNode, replaceNode_helper. intros [= _ <-]. repeat split.
Qed.

Lemma log_inv d r v r' :
  log d r = Return (v, r') ->
  config r' = config r /\ mode r' = mode r
  /\ appliedOrder r' = appliedOrder r /\ tokenGroups r' = tokenGroups r
  /\ logged r' = (logged r ++ [d])%list /\ replaced r' = replaced r.
Proof. unfold log. intros [= _ <-]. repeat split. Qed.

Lemma same_frame_refl node : same_frame node node.
Proof. repeat split. Qed.

Lemma same_frame_trans n1 n2 n3 :
  same_frame n1 n2 -> same_frame n2 n3 -> same_frame n1 n3.
Proof.
  unfold same_frame.
  intros (A1 & A2 & A3 & A4 & A5 & A6) (B1 & B2 & B3 & B4 & B5 & B6).
  repeat split; congruence.
Qed.

Lemma rebuilt_from_frame n1 n2 new :
  same_frame n1 n2 -> rebuilt_from n2 new -> rebuilt_from n1 new.
Proof.
  unfold same_frame, rebuilt_from.
  intros (A1 & A2 & A3 & A4 & _) (B1 & B2 & B3 & B4).
  repeat split; congruence.
Qed.

Lemma step_ok_memo node r r' : same_but_memo r r' -> step_ok node r node r'.
Proof.
  intros (A1 & A2 & A3 & A4 & A5). repeat split; try assumption.
  exists []. rewrite app_nil_r. repeat split; [assumption | constructor].
Qed.

Lemma step_ok_trans n1 r1 n2 r2 n3 r3 :
  step_ok n1 r1 n2 r2 -> step_ok n2 r2 n3 r3 -> step_ok n1 r1 n3 r3.
Proof.
  intros (A1 & A2 & A3 & A4 & A5 & A6) (B1 & B2 & B3 & B4 & B5 & B6).
  split; [congruence|]. split; [congruence|]. split; [congruence|].
  split; [apply (same_frame_trans _ _ _ A4 B4)|]. split.
  - intros Hm. destruct (A5 Hm) as [E1 E2].
    destruct B5 as [E3 E4]; [congruence|]. split; congruence.
  - intros Hm. destruct (A6 Hm) as [E1 (news1 & R1 & F1 & N1)].
    destruct B6 as [E2 (news2 & R2 & F2 & N2)]; [congruence|].
    split; [congruence|].
    exists (news1 ++ news2)%list. split; [|split].
    + rewrite R2, R1, app_assoc. reflexivity.
    + apply Forall_app. split; [exact F1|].
      eapply Forall_impl; [|exact F2].
      intros new. apply rebuilt_from_frame, A4.
    + intros E. apply app_eq_nil in E. destruct E as [-> ->].
      rewrite (N2 eq_refl). apply N1. reflexivity.
Qed.

Lemma createUnorderedErrorMessage_frame t src r v r' :
  createUnorderedErrorMessage t src r = Return (v, r') -> same_but_memo r r'.
Proof.
  unfold createUnorderedErrorMessage. intros H. minv H.
  pose proof (getOrder_frame _ _ _ _ Hcall) as S1.
  apply (same_but_memo_trans _ _ _ S1).
  destruct (a =? 0); [|destruct (a =? 1)].
  - minv H. minv H. minv H.
    apply getAppliedOrder_spec in Hcall0, Hcall1.
    apply lift_inv in Hcall2. destruct Hcall2 as [_ ->].
    apply ret_inv in H. destruct H as [_ ->].
    exact (same_but_memo_trans _ _ _ (proj2 Hcall0) (proj2 Hcall1)).
  - minv H. minv H.
    apply lift_inv in Hcall0. destruct Hcall0 as [_ ->].
    apply this_inv in Hcall1. destruct Hcall1 as [_ ->].
    apply ret_inv in H. destruct H as [_ ->]. apply same_but_memo_refl.
  - minv H. minv H.
    apply lift_inv in Hcall0. destruct Hcall0 as [_ ->].
    apply getAppliedOrder_spec in Hcall1.
    apply ret_inv in H. destruct H as [_ ->]. exact (proj2 Hcall1).
Qed.

(** The two outcomes of the optional call of [orderComment]. *)
Lemma after_comments_inv node sorted r v r' :
  match comments node with
  | [] => ret (node, sorted)
  | _ :: _ => orderComment node sorted
  end r = Return (v, r') ->
  r' = r /\ same_frame node (fst v) /\ (comments node = [] -> fst v = node).
Proof.
  destruct (comments node) as [|c cs] eqn:Hc; intros H.
  - apply ret_inv in H. destruct H as [-> ->].
    repeat split.
  - apply orderComment_frame in H. destruct H as [-> ->].
    repeat split. discriminate.
Qed.

Lemma alphabetizeAttribute_ok t node r node' r' :
  alphabetizeAttribute t node r = Return (node', r') -> step_ok node r node' r'.
Proof.
  unfold alphabetizeAttribute. intros H. minv H.
  apply getTokenGroups_inv in Hcall. destruct Hcall as [_ ->].
  destruct (findUnalphabetizedToken _) as [item|].
  2:{ apply ret_inv in H. destruct H as [-> ->].
      apply step_ok_memo, same_but_memo_refl. }
  minv H. apply this_inv in Hcall. destruct Hcall as [-> ->].
  destruct (mode r) eqn:Hmode.
  - (* fix *)
    minv H. minv H. minv H. minv H.
    pose proof (sortM_frame _ _ compareAttributeNames_frame _ _ _ Hcall)
      as (S1 & S2 & S3 & S4 & S5).
    apply replaceNode_inv in Hcall0.
    destruct Hcall0 as (P1 & P2 & _ & P4 & P5 & P6).
    apply after_comments_inv in Hcall1. destruct Hcall1 as (-> & F1 & _).
    apply replaceNode_inv in Hcall2.
    destruct Hcall2 as (Q1 & Q2 & _ & Q4 & Q5 & Q6).
    apply ret_inv in H. destruct H as [-> ->].
    split; [congruence|]. split; [congruence|]. split; [congruence|].
    split; [|split].
    + eapply same_frame_trans; [|exact F1]. repeat split.
    + intros Hd. congruence.
    + intros _. split; [congruence|].
      eexists. split; [|split].
      * rewrite Q6, P6, S5, <- app_assoc. reflexivity.
      * apply Forall_cons; [|apply Forall_cons; [|apply Forall_nil]].
        -- eapply rebuilt_from_frame; [|apply rebuilt_from_rebuilt].
           repeat split.
        -- eapply rebuilt_from_frame; [|apply rebuilt_from_rebuilt].
           eapply same_frame_trans; [|exact F1]. repeat split.
      * discriminate.
  - (* detect *)
    minv H. minv H.
    apply lift_inv in Hcall. destruct Hcall as [_ ->].
    apply log_inv in Hcall0. destruct Hcall0 as (P1 & P2 & _ & P4 & P5 & P6).
    apply ret_inv in H. destruct H as [-> ->].
    split; [congruence|]. split; [congruence|]. split; [congruence|].
    split; [apply same_frame_refl|]. split.
    + intros _. split; [reflexivity | congruence].
    + intros Hf. congruence.
Qed.

Lemma orderAttribute_ok t node r node' r' :
  orderAttribute t node r = Return (node', r') -> step_ok node r node' r'.
Proof.
  unfold orderAttribute. intros H. minv H.
  apply getTokenGroups_inv in Hcall. destruct Hcall as [_ ->].
  minv H. apply this_inv in Hcall. destruct Hcall as [-> ->].
  destruct (mode r) eqn:Hmode.
  - (* fix *)
    minv H. minv H. minv H.
    pose proof (sortM_frame _ _ compareOrder_frame _ _ _ Hcall)
      as (S1 & S2 & S3 & S4 & S5).
    apply after_comments_inv in Hcall0. destruct Hcall0 as (-> & F1 & _).
    apply replaceNode_inv in Hcall1.
    destruct Hcall1 as (Q1 & Q2 & _ & Q4 & Q5 & Q6).
    apply ret_inv in H. destruct H as [-> ->].
    split; [congruence|]. split; [congruence|]. split; [congruence|].
    split; [exact F1|]. split.
    + intros Hd. congruence.
    + intros _. split; [congruence|].
      eexists. split; [|split].
      * rewrite Q6, S5. reflexivity.
      * apply Forall_cons; [|apply Forall_nil].
        eapply rebuilt_from_frame; [exact F1 | apply rebuilt_from_rebuilt].
      * discriminate.
  - (* detect *)
    destruct (findUnorderedToken _) as [it|]; [|discriminate].
    minv H. minv H.
    pose proof (createUnorderedErrorMessage_frame _ _ _ _ _ Hcall)
      as (S1 & S2 & S3 & S4 & S5).
    apply log_inv in Hcall0. destruct Hcall0 as (P1 & P2 & _ & P4 & P5 & P6).
    apply ret_inv in H. destruct H as [-> ->].
    split; [congruence|]. split; [congruence|]. split; [congruence|].
    split; [apply same_frame_refl|]. split.
    + intros _. split; [reflexivity | congruence].
    + intros Hf. congruence.
Qed.

Lemma checkTokenType_ok t node r node' r' :
  checkTokenType t node r = Return (node', r') -> step_ok node r node' r'.
Proof.
  unfold checkTokenType. intros H. minv H as tgs r0 Hg.
  apply getTokenGroups_inv in Hg. destruct Hg as [_ ->].
  minv H as rr r0 Hthis. apply this_inv in Hthis. destruct Hthis as [-> ->].
  minv H as node1 r1 Halpha. minv H as unordered r2 Hun.
  assert (K1 : step_ok node r node1 r1).
  { destruct (_ && _ && _).
    - exact (alphabetizeAttribute_ok _ _ _ _ _ Halpha).
    - apply ret_inv in Halpha. destruct Halpha as [-> ->].
      apply step_ok_memo, same_but_memo_refl. }
  apply isAttributeUnordered_frame in Hun.
  pose proof (step_ok_memo node1 _ _ Hun) as K2.
  apply (step_ok_trans _ _ _ _ _ _ K1).
  apply (step_ok_trans _ _ _ _ _ _ K2).
  destruct unordered.
  - exact (orderAttribute_ok _ _ _ _ _ H).
  - apply ret_inv in H. destruct H as [-> ->].
    apply step_ok_memo, same_but_memo_refl.
Qed.

Lemma forEachTokenType_ok types : forall node r node' r',
  forEachTokenType types node r = Return (node', r') -> step_ok node r node' r'.
Proof.
  induction types as [|t types IH]; intros node r node' r' H;
    cbn [forEachTokenType] in H.
  - apply ret_inv in H. destruct H as [-> ->].
    apply step_ok_memo, same_but_memo_refl.
  - minv H.
    exact (step_ok_trans _ _ _ _ _ _ (checkTokenType_ok _ _ _ _ _ Hcall)
                         (IH _ _ _ _ H)).
Qed.

Lemma makeTokenGroups_inv tokens r v r' :
  makeTokenGroups tokens r = Return (v, r') ->
  v = tokens /\ config r' = config r /\ mode r' = mode r
  /\ appliedOrder r' = appliedOrder r /\ tokenGroups r' = Some tokens
  /\ logged r' = logged r /\ replaced r' = replaced r.
Proof.
  unfold makeTokenGroups, bind, set_tokenGroups, ret. intros [= <- <-].
  repeat split.
Qed.

Lemma checkElementAttributesOrder_ok node r node' r' :
  checkElementAttributesOrder node r = Return (node', r') ->
  (mode r = DetectMode -> node' = node /\ replaced r' = replaced r)
  /\ (mode r = FixMode ->
      exists news,
        replaced r' = (replaced r ++ news)%list
        /\ Forall (rebuilt_from node) news
        /\ (news = [] -> node' = node)).
Proof.
  unfold checkElementAttributesOrder. intros H.
  destruct (el_source node =? "")%string.
  - apply ret_inv in H. destruct H as [-> ->]. split.
    + intros _. split; reflexivity.
    + intros _. exists []. rewrite app_nil_r.
      repeat split. constructor.
  - minv H as tgs r1 Hmk. minv H as rr r2 Hthis.
    apply makeTokenGroups_inv in Hmk.
    destruct Hmk as (_ & M1 & M2 & _ & M4 & M5 & M6).
    apply this_inv in Hthis. destruct Hthis as [-> ->].
    apply forEachTokenType_ok in H.
    destruct H as (_ & _ & _ & _ & D & F). split.
    + intros Hm. destruct D as [-> E]; [congruence|]. split; congruence.
    + intros Hm. destruct F as [_ (news & E & Fa & N)]; [congruence|].
      exists news. repeat split; [congruence | exact Fa | exact N].
Qed.

Lemma checkMustacheAttributesOrder_ok node r node' r' :
  checkMustacheAttributesOrder node r = Return (node', r') ->
  replaced r' = replaced r
  /\ (mode r = DetectMode -> node' = node)
  /\ (mode r = FixMode ->
      logged r' = logged r
      /\ (node' = node
          \/ node' = with_hash_pairs node (sort compareKeys (hash_pairs node)))).
Proof.
  unfold checkMustacheAttributesOrder. intros H.
  destruct (mu_source node =? "")%string.
  { apply ret_inv in H. destruct H as [-> ->]. repeat split. left; reflexivity. }
  destruct (path_type node).
  2:{ apply ret_inv in H. destruct H as [-> ->]. repeat split. left; reflexivity. }
  minv H as tgs r1 Hmk. minv H as rr r2 Hthis.
  apply makeTokenGroups_inv in Hmk.
  destruct Hmk as (-> & M1 & M2 & _ & M4 & M5 & M6).
  apply this_inv in Hthis. destruct Hthis as [-> ->].
  destruct (_ && _).
  2:{ apply ret_inv in H. destruct H as [-> ->].
      repeat split; try congruence. left; reflexivity. }
  destruct (mode r1) eqn:Hm1.
  - apply ret_inv in H. destruct H as [-> ->].
    split; [congruence|]. split; [intros Hd; congruence|].
    intros _. split; [congruence | right; reflexivity].
  - destruct (findUnalphabetizedToken _) as [item|]; [|discriminate].
    minv H as msg r3 Hmsg. minv H as u r4 Hlog.
    apply lift_inv in Hmsg. destruct Hmsg as [_ ->].
    apply log_inv in Hlog. destruct Hlog as (P1 & P2 & _ & P4 & P5 & P6).
    apply ret_inv in H. destruct H as [-> ->].
    split; [congruence|]. split; [intros _; reflexivity|].
    intros Hf. congruence.
Qed.

(** *** Surrounded splattributes *)

Lemma getAppliedOrder_total r tgs :
  tokenGroups r = Some tgs ->
  exists o r', getAppliedOrder r = Return (o, r').
Proof.
  intros Ht. unfold getAppliedOrder, bind, this, getTokenGroups,
    set_appliedOrder, ret.
  destruct (appliedOrder r); rewrite ?Ht; eexists; eexists; reflexivity.
Qed.

Lemma isAttributeUnordered_surrounded r tgs t :
  tokenGroups r = Some tgs ->
  areSplattributesSurrounded tgs = true ->
  exists r', isAttributeUnordered t r = Return (false, r') /\ same_but_memo r r'.
Proof.
  intros Ht Hs. destruct (getAppliedOrder_total r tgs Ht) as (o & r1 & Ho).
  destruct (getAppliedOrder_spec _ _ _ Ho) as [_ S1].
  exists r1. split; [|exact S1].
  unfold isAttributeUnordered, getOrder, bind. rewrite Ho. cbn [ret].
  assert (Ht1 : tokenGroups r1 = Some tgs)
    by (destruct S1 as (_ & _ & E & _); congruence).
  rewrite (getTokenGroups_some _ _ Ht1), Hs.
  destruct (negb (exists_ _)); reflexivity.
Qed.

Lemma checkTokenType_surrounded r tgs t node :
  tokenGroups r = Some tgs ->
  areSplattributesSurrounded tgs = true ->
  exists r', checkTokenType t node r = Return (node, r') /\ same_but_memo r r'.
Proof.
  intros Ht Hs.
  destruct (isAttributeUnordered_surrounded r tgs t Ht Hs) as (r1 & Hun & S1).
  exists r1. split; [|exact S1].
  unfold checkTokenType, bind, this. rewrite (getTokenGroups_some _ _ Ht), Hs.
  cbn [negb]. rewrite andb_false_r. cbn [ret]. rewrite Hun. reflexivity.
Qed.

Lemma forEachTokenType_surrounded types : forall r tgs node,
  tokenGroups r = Some tgs ->
  areSplattributesSurrounded tgs = true ->
  exists r', forEachTokenType types node r = Return (node, r')
             /\ same_but_memo r r'.
Proof.
  induction types as [|t types IH]; intros r tgs node Ht Hs;
    cbn [forEachTokenType].
  - exists r. split; [reflexivity | apply same_but_memo_refl].
  - destruct (checkTokenType_surrounded r tgs t node Ht Hs) as (r1 & H1 & S1).
    assert (Ht1 : tokenGroups r1 = Some tgs)
      by (destruct S1 as (_ & _ & E & _); congruence).
    destruct (IH r1 tgs node Ht1 Hs) as (r2 & H2 & S2).
    exists r2. split; [|exact (same_but_memo_trans _ _ _ S1 S2)].
    unfold bind. rewrite H1. exact H2.
Qed.

(** When [areSplattributesSurrounded] holds of the tokens of an element,
    the check returns in both modes, logs nothing, requests no replacement
    and leaves the node as it was. *)
Lemma surrounded_node_untouched node r :
  areSplattributesSurrounded (groupTokens (getElementNodeTokens node)) = true ->
  exists r',
    checkElementAttributesOrder node r = Return (node, r')
    /\ logged r' = logged r /\ replaced r' = replaced r.
Proof.
  intros Hs. unfold checkElementAttributesOrder.
  destruct (el_source node =? "")%string.
  - exists r. repeat split.
  - unfold bind at 1. unfold makeTokenGroups, bind at 1, set_tokenGroups, ret.
    unfold bind, this.
    match goal with
    | |- context [forEachTokenType ?ts node ?r0] =>
        destruct (forEachTokenType_surrounded ts r0 _ node eq_refl Hs)
          as (r2 & H2 & (_ & _ & _ & E1 & E2))
    end.
    exists r2. repeat split; [exact H2 | exact E1 | exact E2].
Qed.

(** *** Messages *)

Lemma createNotAlphabetizedErrorMessage_text t src :
  createNotAlphabetizedErrorMessage t src
  = Return (capitalizedSingular t ++ " " ++ src ++ " is not alphabetized")%string.
Proof. destruct t; reflexivity. Qed.

End FixFacts.

(** ** Facts about the sandwiching test *)

Module SurroundedFacts.
Import Js AttributeOrder Spec AppliedOrderFacts.

Lemma or_else_nonzero o d :
  nonzero o -> or_else o d = match o with Some z => Fin z | None => d end.
Proof.
  destruct o as [z|]; [|reflexivity]. intros H. cbn [or_else].
  destruct (Z.eqb_spec z 0) as [->|_]; [contradiction H; reflexivity | reflexivity].
Qed.

Lemma fold_max_or_else l :
  Forall nonzero l -> forall a,
  fold_left num_max (map (fun o => or_else o NegInfinity) l) (Fin a)
  = Fin (fold_left Z.max (defined l) a).
Proof.
  induction 1 as [|o l Ho _ IH]; intros a; [reflexivity|].
  cbn [map fold_left]. rewrite (or_else_nonzero _ _ Ho).
  destruct o as [z|].
  - rewrite num_max_Fin. exact (IH _).
  - exact (IH a).
Qed.

Lemma fold_min_or_else l :
  Forall nonzero l -> forall a,
  fold_left num_min (map (fun o => or_else o PosInfinity) l) (Fin a)
  = Fin (fold_left Z.min (defined l) a).
Proof.
  induction 1 as [|o l Ho _ IH]; intros a; [reflexivity|].
  cbn [map fold_left]. rewrite (or_else_nonzero _ _ Ho).
  destruct o as [z|].
  - rewrite num_min_Fin. exact (IH _).
  - exact (IH a).
Qed.

Lemma Math_max_or_else l :
  Forall nonzero l ->
  Math_max (map (fun o => or_else o NegInfinity) l)
  = match maximum (defined l) with Some m => Fin m | None => NegInfinity end.
Proof.
  unfold Math_max. induction 1 as [|o l Ho Hl IH]; [reflexivity|].
  cbn [map fold_left]. rewrite (or_else_nonzero _ _ Ho).
  destruct o as [z|].
  - exact (fold_max_or_else l Hl z).
  - exact IH.
Qed.

Lemma Math_min_or_else l :
  Forall nonzero l ->
  Math_min (map (fun o => or_else o PosInfinity) l)
  = match minimum (defined l) with Some m => Fin m | None => PosInfinity end.
Proof.
  unfold Math_min. induction 1 as [|o l Ho Hl IH]; [reflexivity|].
  cbn [map fold_left]. rewrite (or_else_nonzero _ _ Ho).
  destruct o as [z|].
  - exact (fold_min_or_else l Hl z).
  - exact IH.
Qed.

Lemma defined_map {A : Type} (f : A -> option Z) (l : list A) :
  defined (map f l)
  = flat_map (fun g => match f g with Some i => [i] | None => [] end) l.
Proof.
  unfold defined. induction l as [|x l IH]; [reflexivity|].
  cbn [map flat_map]. rewrite IH. reflexivity.
Qed.

Lemma fold_max_positive l : forall a, 0 < a -> 0 < fold_left Z.max l a.
Proof. intros a Ha. pose proof (fold_max_ge l a). lia. Qed.

Lemma fold_min_positive l :
  Forall (fun x => 0 < x) l -> forall a, 0 < a -> 0 < fold_left Z.min l a.
Proof.
  induction 1 as [|x l Hx _ IH]; intros a Ha; cbn [fold_left]; [exact Ha|].
  apply IH. lia.
Qed.

Section Positive.

Variable tgs : TokenGroups.
Hypothesis Hpos : positive tgs.

Lemma lastIndex_nonzero g : In g (values tgs) -> nonzero (lastIndex g).
Proof.
  intros Hg. specialize (Hpos g Hg). unfold nonzero, lastIndex, indexes.
  destruct (items g) as [|t rest]; cbn [map]; [discriminate|].
  inversion Hpos as [|? ? Ht _]; subst. intros [= E].
  pose proof (fold_max_positive (map calculateAttributeIndex rest) _ Ht). lia.
Qed.

Lemma firstIndex_nonzero g : In g (values tgs) -> nonzero (firstIndex g).
Proof.
  intros Hg. specialize (Hpos g Hg). unfold nonzero, firstIndex, indexes.
  destruct (items g) as [|t rest]; cbn [map]; [discriminate|].
  inversion Hpos as [|? ? Ht Hrest]; subst. intros [= E].
  assert (0 < fold_left Z.min (map calculateAttributeIndex rest)
                        (calculateAttributeIndex t)).
  { apply fold_min_positive; [|exact Ht].
    apply Forall_map. exact Hrest. }
  lia.
Qed.

Lemma maxIndex_maxLast :
  Math_max (map (fun tokenGroup => or_else (lastIndex tokenGroup) NegInfinity)
                (values tgs))
  = match maxLast tgs with Some m => Fin m | None => NegInfinity end.
Proof.
  rewrite <- (map_map lastIndex (fun o => or_else o NegInfinity)).
  rewrite Math_max_or_else.
  - rewrite defined_map. reflexivity.
  - apply Forall_map, Forall_forall. exact lastIndex_nonzero.
Qed.

Lemma minIndex_minFirst :
  Math_min (map (fun tokenGroup => or_else (firstIndex tokenGroup) PosInfinity)
                (values tgs))
  = match minFirst tgs with Some m => Fin m | None => PosInfinity end.
Proof.
  rewrite <- (map_map firstIndex (fun o => or_else o PosInfinity)).
  rewrite Math_min_or_else.
  - rewrite defined_map. reflexivity.
  - apply Forall_map, Forall_forall. exact firstIndex_nonzero.
Qed.

(** When no token starts at column 0, the test of the rule is the
    condition of the specification. *)
Lemma surrounded_iff_sandwiched :
  areSplattributesSurrounded tgs = true <-> sandwiched tgs.
Proof.
  unfold areSplattributesSurrounded, sandwiched.
  rewrite maxIndex_maxLast, minIndex_minFirst.
  destruct (lastIndex (group tgs SPLATTRIBUTES)) as [s|] eqn:Hs;
    cbn [of_index option_map lt gt num_ltb].
  2:{ split; [discriminate | intros (s & lo & hi & H & _); discriminate]. }
  assert (Hs0 : 0 < s).
  { assert (Hin : In (group tgs SPLATTRIBUTES) (values tgs))
      by (unfold values; cbn; tauto).
    pose proof (lastIndex_nonzero _ Hin) as Hnz. rewrite Hs in Hnz.
    pose proof (lastIndex_nonnegative tgs SPLATTRIBUTES s) as Hnn.
    assert (0 <= s).
    { apply Hnn; [|exact Hs]. intros g Hg.
      eapply Forall_impl; [|exact (Hpos g Hg)]. cbv beta. intros; lia. }
    assert (s <> 0) by (intros ->; apply Hnz; reflexivity). lia. }
  destruct (Z.ltb_spec s 0) as [?|_]; [lia|].
  destruct (minFirst tgs) as [lo|], (maxLast tgs) as [hi|];
    cbn [num_ltb]; split.
  - intros H. apply andb_true_iff in H. destruct H as [H1 H2].
    exists s, lo, hi. repeat split; [apply Z.ltb_lt, H1 | apply Z.ltb_lt, H2].
  - intros (s' & lo' & hi' & [= <-] & [= <-] & [= <-] & H1 & H2).
    apply andb_true_iff. split; apply Z.ltb_lt; assumption.
  - rewrite andb_false_r. discriminate.
  - intros (s' & lo' & hi' & _ & _ & H & _). discriminate.
  - discriminate.
  - intros (s' & lo' & hi' & _ & H & _). discriminate.
  - discriminate.
  - intros (s' & lo' & hi' & _ & H & _). discriminate.
Qed.

End Positive.

(** X9.  For an element none of whose tokens starts at column 0 and whose
    spread lies strictly between the least first position and the greatest
    last position, the check returns in both modes, logs nothing, requests
    no replacement and leaves the node as it was. *)
Lemma sandwiched_node_untouched node r :
  positive (groupTokens (getElementNodeTokens node)) ->
  sandwiched (groupTokens (getElementNodeTokens node)) ->
  exists r',
    checkElementAttributesOrder node r = Return (node, r')
    /\ logged r' = logged r /\ replaced r' = replaced r.
Proof.
  intros Hpos Hs. apply FixFacts.surrounded_node_untouched.
  apply (surrounded_iff_sandwiched _ Hpos), Hs.
Qed.

End SurroundedFacts.

(** ** The check returns *)

Module TotalityFacts.
Import Js AttributeOrder Spec UnorderedFacts FixFacts.

Lemma total_ret {A : Type} (P : Rule -> Prop) (a : A) (Q : A -> Rule -> Prop) :
  (forall r, P r -> Q a r) -> total P (ret a) Q.
Proof. intros H r Hr. exists a, r. split; [reflexivity | exact (H r Hr)]. Qed.

Lemma total_bind {A B : Type} (P : Rule -> Prop) (m : M A)
  (Q : A -> Rule -> Prop) (f : A -> M B) (R : B -> Rule -> Prop) :
  total P m Q -> (forall a, total (Q a) (f a) R) -> total P (bind m f) R.
Proof.
  intros Hm Hf r Hr. destruct (Hm r Hr) as (a & r1 & E1 & Q1).
  destruct (Hf a r1 Q1) as (v & r2 & E2 & R2).
  exists v, r2. split; [|exact R2]. unfold bind. rewrite E1. exact E2.
Qed.

Lemma total_weaken {A : Type} (P P' : Rule -> Prop) (m : M A)
  (Q Q' : A -> Rule -> Prop) :
  total P m Q -> (forall r, P' r -> P r) -> (forall v r, Q v r -> Q' v r) ->
  total P' m Q'.
Proof.
  intros Hm HP HQ r Hr. destruct (Hm r (HP r Hr)) as (v & r' & E & Hq).
  exists v, r'. split; [exact E | exact (HQ _ _ Hq)].
Qed.

(** [getAppliedOrder] returns an order of at least four categories. *)
Lemma getAppliedOrder_ready tgs r :
  ready tgs r ->
  exists o r',
    getAppliedOrder r = Return (o, r')
    /\ ready tgs r' /\ appliedOrder r' = Some o
    /\ (4 <= List.length o)%nat /\ same_but_memo r r'.
Proof.
  intros (R1 & R2 & R3).
  destruct (getAppliedOrder_total r tgs R1) as (o & r' & E).
  destruct (getAppliedOrder_spec _ _ _ E) as [Hm S].
  assert (Hlen : (4 <= List.length o)%nat).
  { revert E. unfold getAppliedOrder, bind, this, getTokenGroups,
      set_appliedOrder, ret.
    destruct (appliedOrder r) as [o0|] eqn:Ho.
    - intros [= <- _]. exact (R3 _ eq_refl).
    - rewrite R1. intros [= <- _].
      repeat match goal with
             | |- context [if ?c then _ else _] => destruct c
             end;
        rewrite ?length_app; cbn [List.length]; lia. }
  exists o, r'. repeat split; try assumption.
  - destruct S as (_ & _ & T & _). congruence.
  - destruct S as (C & _). rewrite C. exact R2.
  - intros o' Ho'. rewrite Hm in Ho'. injection Ho' as <-. exact Hlen.
  - apply S.
  - apply S.
  - apply S.
  - apply S.
  - apply S.
Qed.

Section Ready.

Variable tgs : TokenGroups.

Let keeps {A : Type} (m : M A) : Prop :=
  total (ready tgs) m (fun _ r' => ready tgs r').

Lemma keeps_ret {A : Type} (a : A) : keeps (ret a).
Proof. apply total_ret. auto. Qed.

Lemma keeps_bind {A B : Type} (m : M A) (f : A -> M B) :
  keeps m -> (forall a, keeps (f a)) -> keeps (bind m f).
Proof. intros Hm Hf. eapply total_bind; [exact Hm | exact Hf]. Qed.

Lemma keeps_this : keeps this.
Proof. intros r Hr. exists r, r. split; [reflexivity | exact Hr]. Qed.

Lemma keeps_getTokenGroups : keeps getTokenGroups.
Proof.
  intros r Hr. exists tgs, r. split; [|exact Hr].
  apply getTokenGroups_some, Hr.
Qed.

Lemma keeps_lift {A : Type} (a : A) : keeps (lift (Return a)).
Proof. intros r Hr. exists a, r. split; [reflexivity | exact Hr]. Qed.

Lemma keeps_log d : keeps (log d).
Proof.
  intros r Hr. eexists; eexists. split; [reflexivity|]. exact Hr.
Qed.

Lemma keeps_replaceNode node sorted : keeps (replaceNode node sorted).
Proof.
  intros r Hr. eexists; eexists. split; [reflexivity|]. exact Hr.
Qed.

Lemma keeps_getAppliedOrder : keeps getAppliedOrder.
Proof.
  intros r Hr. destruct (getAppliedOrder_ready tgs r Hr) as (o & r' & E & R & _).
  exists o, r'. split; assumption.
Qed.

Lemma keeps_getOrder t : keeps (getOrder t).
Proof.
  unfold getOrder. apply keeps_bind; [exact keeps_getAppliedOrder|].
  intros o. apply keeps_ret.
Qed.

Lemma at_index_some {A : Type} (l : list A) k :
  0 <= k -> (Z.to_nat k < List.length l)%nat -> exists x, at_index l k = Some x.
Proof.
  intros Hk Hlen. unfold at_index.
  destruct (Z.ltb_spec k 0); [lia|].
  destruct (nth_error l (Z.to_nat k)) eqn:E; [eexists; reflexivity|].
  apply nth_error_None in E. lia.
Qed.

Lemma keeps_groupAtRank k : 0 <= k <= 3 -> keeps (groupAtRank k).
Proof.
  intros Hk r Hr.
  destruct (getAppliedOrder_ready tgs r Hr) as (o & r1 & E & R1 & Hm & Hlen & _).
  destruct (at_index_some o k) as (c & Hc); [lia | lia |].
  exists (group tgs c), r1. split; [|exact R1].
  unfold groupAtRank, bind. rewrite E.
  rewrite (getTokenGroups_some r1 tgs (proj1 R1)), Hc. reflexivity.
Qed.

Lemma keeps_compare (f : TokenGroup -> Z -> M bool) g k :
  (f = lastAboveFirstOf \/ f = lastBelowFirstOf
   \/ f = lastAboveLastOf \/ f = lastBelowLastOf) ->
  0 <= k <= 3 -> keeps (f g k).
Proof.
  intros [ -> | [ -> | [ -> | -> ]]] Hk;
    unfold lastAboveFirstOf, lastBelowFirstOf, lastAboveLastOf, lastBelowLastOf;
    (apply keeps_bind; [exact (keeps_groupAtRank k Hk) | intros; apply keeps_ret]).
Qed.

Lemma keeps_orM (m1 m2 : M bool) : keeps m1 -> keeps m2 -> keeps (orM m1 m2).
Proof.
  intros H1 H2. unfold orM. apply keeps_bind; [exact H1|].
  intros [|]; [apply keeps_ret | exact H2].
Qed.

(** The predicate returns, and only says yes for a category with tokens. *)
Lemma isAttributeUnordered_returns t :
  total (ready tgs) (isAttributeUnordered t)
        (fun v r' => ready tgs r' /\ (v = true -> exists_ (group tgs t) = true)).
Proof.
  intros r Hr.
  destruct (keeps_getOrder t r Hr) as (rank & r1 & E1 & R1).
  unfold isAttributeUnordered, bind. rewrite E1.
  rewrite (getTokenGroups_some r1 tgs (proj1 R1)).
  destruct (exists_ (group tgs t)) eqn:Hex; cbn [negb].
  2:{ exists false, r1. split; [reflexivity|].
      split; [exact R1 | discriminate]. }
  assert (K : forall m : M bool, keeps m ->
            exists v r', m r1 = Return (v, r')
                         /\ ready tgs r' /\ (v = true -> true = true)).
  { intros m Hm. destruct (Hm r1 R1) as (v & r' & E & R).
    exists v, r'. split; [exact E|]. split; [exact R | reflexivity]. }
  destruct (areSplattributesSurrounded tgs); [apply K, keeps_ret|].
  destruct (rank =? 0).
  { apply K. repeat apply keeps_orM; apply keeps_compare; (tauto || lia). }
  destruct (rank =? 1).
  { apply K. repeat apply keeps_orM; apply keeps_compare; (tauto || lia). }
  destruct (rank =? 2).
  { apply K. repeat apply keeps_orM; apply keeps_compare; (tauto || lia). }
  destruct (rank =? 3).
  { apply K. apply keeps_compare; (tauto || lia). }
  apply K, keeps_ret.
Qed.

Lemma capitalizedAttribute_returns t :
  exists cap, capitalizedAttribute (TokenType_string t) = Return cap.
Proof. destruct t; eexists; reflexivity. Qed.

Lemma keeps_createUnorderedErrorMessage t src :
  keeps (createUnorderedErrorMessage t src).
Proof.
  unfold createUnorderedErrorMessage.
  destruct (capitalizedAttribute_returns t) as (cap & ->).
  apply keeps_bind; [exact (keeps_getOrder t)|]. intros rank.
  destruct (rank =? 0); [|destruct (rank =? 1)].
  - apply keeps_bind; [exact keeps_getAppliedOrder|]. intros o1.
    apply keeps_bind; [exact keeps_getAppliedOrder|]. intros o2.
    apply keeps_bind; [apply keeps_lift|]. intros c. apply keeps_ret.
  - apply keeps_bind; [apply keeps_lift|]. intros c.
    apply keeps_bind; [exact keeps_this|]. intros rr. apply keeps_ret.
  - apply keeps_bind; [apply keeps_lift|]. intros c.
    apply keeps_bind; [exact keeps_getAppliedOrder|]. intros o. apply keeps_ret.
Qed.

Lemma keeps_insertByM {A : Type} (cmp : A -> A -> M Z) x l :
  (forall u w, keeps (cmp u w)) -> keeps (insertByM cmp x l).
Proof.
  intros Hcmp. induction l as [|y l IH]; cbn [insertByM].
  - apply keeps_ret.
  - apply keeps_bind; [apply Hcmp|]. intros c.
    destruct (c <? 0); [apply keeps_ret|].
    apply keeps_bind; [exact IH|]. intros rest. apply keeps_ret.
Qed.

Lemma keeps_sortM {A : Type} (cmp : A -> A -> M Z) l :
  (forall u w, keeps (cmp u w)) -> keeps (sortM cmp l).
Proof.
  intros Hcmp. unfold sortM. generalize (@nil A) as acc.
  induction l as [|x l IH]; intros acc; cbn [sortM_from].
  - apply keeps_ret.
  - apply keeps_bind; [apply keeps_insertByM, Hcmp|]. intros acc'. apply IH.
Qed.

Lemma keeps_compareAttributeNames u w : keeps (compareAttributeNames u w).
Proof.
  unfold compareAttributeNames. destruct (option_string_eqb _ _).
  - apply keeps_bind; [apply keeps_getOrder|]. intros; apply keeps_ret.
  - destruct (str_gt _ _); apply keeps_ret.
Qed.

Lemma keeps_compareOrder u w : keeps (compareOrder u w).
Proof.
  unfold compareOrder.
  apply keeps_bind; [apply keeps_getOrder|]. intros orderA.
  apply keeps_bind; [apply keeps_getOrder|]. intros orderB.
  destruct (orderA =? orderB); apply keeps_ret.
Qed.

Lemma option_string_eqb_refl a : option_string_eqb a a = true.
Proof. destruct a as [x|]; [apply String.eqb_refl | reflexivity]. Qed.

Lemma NodeType_eqb_refl a : NodeType_eqb a a = true.
Proof. destruct a; reflexivity. Qed.

Lemma getNode_some c :
  In c (flat_map items (values tgs)) -> exists tok, getNode tgs c = Some tok.
Proof.
  intros Hin. unfold getNode.
  match goal with |- exists tok, find ?p ?l = Some tok =>
    destruct (find p l) as [tok|] eqn:E; [eexists; reflexivity|];
    pose proof (find_none p l E c Hin) as Hc
  end.
  cbv beta in Hc.
  rewrite NodeType_eqb_refl, (option_string_eqb_refl (value c)) in Hc.
  rewrite orb_true_r in Hc. discriminate.
Qed.

Lemma reinsert_all_returns rc : forall sorted,
  incl rc (flat_map items (values tgs)) ->
  exists sorted', reinsert_all tgs rc sorted = Return sorted'.
Proof.
  induction rc as [|c rc IH]; intros sorted Hin; cbn [reinsert_all].
  - eexists; reflexivity.
  - destruct (getNode_some c) as (tok & Htok); [apply Hin; left; reflexivity|].
    unfold reinsert. rewrite Htok. cbv zeta.
    match goal with
    | |- context [if ?a then Return sorted else Return ?s'] =>
        destruct a; apply IH; intros x Hx; apply Hin; right; exact Hx
    end.
Qed.

Lemma insertBy_In {A : Type} (cmp : A -> A -> Z) x l z :
  In z (insertBy cmp x l) -> z = x \/ In z l.
Proof.
  induction l as [|y l IH]; cbn [insertBy].
  - intros [<-|[]]. left; reflexivity.
  - destruct (cmp x y <? 0).
    + intros [<-|H]; [left; reflexivity | right; exact H].
    + intros [<-|H]; [right; left; reflexivity|].
      destruct (IH H) as [->|H']; [left; reflexivity | right; right; exact H'].
Qed.

Lemma sort_In {A : Type} (cmp : A -> A -> Z) l z : In z (sort cmp l) -> In z l.
Proof.
  unfold sort.
  assert (G : forall acc, In z (fold_left (fun acc x => insertBy cmp x acc) l acc)
                          -> In z acc \/ In z l).
  { induction l as [|x l IH]; intros acc H; cbn [fold_left] in H.
    - left; exact H.
    - destruct (IH _ H) as [H1|H1].
      + destruct (insertBy_In _ _ _ _ H1) as [->|H2];
          [right; left; reflexivity | left; exact H2].
      + right; right; exact H1. }
  intros H. destruct (G [] H) as [[]|H1]. exact H1.
Qed.

Lemma orderComment_returns node sorted :
  known tgs node ->
  total (ready tgs) (orderComment node sorted)
        (fun v r' => ready tgs r' /\ fst v = with_comments node []).
Proof.
  intros Hk r Hr. unfold orderComment, bind.
  rewrite (getTokenGroups_some r tgs (proj1 Hr)).
  destruct (reinsert_all_returns
              (sort (fun a c => calculateAttributeIndex c
                                - calculateAttributeIndex a) (comments node))
              sorted) as (sorted' & E).
  { intros x Hx. apply Hk. exact (sort_In _ _ _ Hx). }
  rewrite E. cbn [lift ret]. eexists; eexists.
  split; [reflexivity|]. split; [exact Hr | reflexivity].
Qed.

Lemma after_comments_returns node sorted :
  known tgs node ->
  total (ready tgs)
        (match comments node with
         | [] => ret (node, sorted)
         | _ :: _ => orderComment node sorted
         end)
        (fun v r' => ready tgs r' /\ known tgs (fst v)).
Proof.
  intros Hk. destruct (comments node) eqn:Hc.
  - apply total_ret. intros r Hr. split; [exact Hr | exact Hk].
  - eapply total_weaken; [exact (orderComment_returns node sorted Hk) | auto |].
    intros v r [Hr ->]. split; [exact Hr|].
    unfold known. cbn [comments with_comments]. intros x [].
Qed.

Lemma alphabetizeAttribute_returns t node :
  known tgs node ->
  total (ready tgs) (alphabetizeAttribute t node)
        (fun node' r' => ready tgs r' /\ known tgs node').
Proof.
  intros Hk. unfold alphabetizeAttribute.
  eapply total_bind; [exact keeps_getTokenGroups|]. intros tgs0.
  destruct (findUnalphabetizedToken _) as [item|];
    [|apply total_ret; intros r Hr; split; [exact Hr | exact Hk]].
  eapply total_bind; [exact keeps_this|]. intros rr.
  destruct (mode rr).
  - eapply total_bind; [exact (keeps_sortM _ _ keeps_compareAttributeNames)|].
    intros sortedAttributes. cbv zeta.
    eapply total_bind; [apply keeps_replaceNode|]. intros u.
    eapply total_bind.
    { apply (after_comments_returns
               (with_modifiers (with_attributes node sortedAttributes)
                               (sort compareModifierPaths (modifiers node)))).
      exact Hk. }
    intros after. cbv beta.
    intros r [Hr Hka].
    destruct (keeps_replaceNode (fst after) (snd after) r Hr) as (u' & r' & E & R).
    exists (fst after), r'. split; [|split; [exact R | exact Hka]].
    unfold bind. rewrite E. reflexivity.
  - rewrite createNotAlphabetizedErrorMessage_text.
    eapply total_bind; [apply keeps_lift|]. intros msg.
    eapply total_bind; [apply keeps_log|]. intros u.
    apply total_ret. intros r Hr. split; [exact Hr | exact Hk].
Qed.

Lemma fold_max_in l : forall a,
  fold_left Z.max l a = a \/ In (fold_left Z.max l a) l.
Proof.
  induction l as [|y l IH]; intros a; cbn [fold_left]; [left; reflexivity|].
  destruct (IH (Z.max a y)) as [H|H].
  - rewrite H. destruct (Z.max_spec a y) as [[_ ->]|[_ ->]];
      [right; left; reflexivity | left; reflexivity].
  - right; right; exact H.
Qed.

Lemma findUnorderedToken_some g :
  exists_ g = true -> exists it, findUnorderedToken g = Some it.
Proof.
  unfold exists_, findUnorderedToken, lastIndex, indexes. intros Hex.
  destruct (items g) as [|tok rest] eqn:Hitems; [discriminate|].
  cbn [map of_index option_map].
  set (m := fold_left Z.max (map calculateAttributeIndex rest)
                      (calculateAttributeIndex tok)).
  assert (Hin : exists it, In it (tok :: rest) /\ calculateAttributeIndex it = m).
  { destruct (fold_max_in (map calculateAttributeIndex rest)
                          (calculateAttributeIndex tok)) as [H|H].
    - exists tok. split; [left; reflexivity | symmetry; exact H].
    - apply in_map_iff in H. destruct H as (it & E & Hit).
      exists it. split; [right; exact Hit | exact E]. }
  destruct Hin as (it & Hit & Em).
  match goal with |- exists _, find ?p ?l = Some _ =>
    destruct (find p l) as [found|] eqn:E; [eexists; reflexivity|];
    pose proof (find_none p l E it Hit) as Hc
  end.
  cbv beta in Hc. rewrite Em in Hc. cbn [strict_eq num_eqb] in Hc.
  rewrite Z.eqb_refl in Hc. discriminate.
Qed.

Lemma orderAttribute_returns t node :
  known tgs node -> exists_ (group tgs t) = true ->
  total (ready tgs) (orderAttribute t node)
        (fun node' r' => ready tgs r' /\ known tgs node').
Proof.
  intros Hk Hex r Hr. unfold orderAttribute. unfold bind at 1.
  rewrite (getTokenGroups_some r tgs (proj1 Hr)).
  unfold bind at 1. cbn [this].
  destruct (mode r).
  - revert r Hr.
    eapply total_bind; [exact (keeps_sortM _ _ keeps_compareOrder)|].
    intros sorted.
    eapply total_bind; [exact (after_comments_returns node sorted Hk)|].
    intros after. cbv beta.
    intros r [Hr Hka].
    destruct (keeps_replaceNode (fst after) (snd after) r Hr) as (u' & r' & E & R).
    exists (fst after), r'. split; [|split; [exact R | exact Hka]].
    unfold bind. rewrite E. reflexivity.
  - destruct (findUnorderedToken_some _ Hex) as (found & ->).
    revert r Hr.
    eapply total_bind; [apply keeps_createUnorderedErrorMessage|]. intros msg.
    eapply total_bind; [apply keeps_log|]. intros u.
    apply total_ret. intros r Hr. split; [exact Hr | exact Hk].
Qed.

Lemma checkTokenType_returns t node :
  known tgs node ->
  total (ready tgs) (checkTokenType t node)
        (fun node' r' => ready tgs r' /\ known tgs node').
Proof.
  intros Hk. unfold checkTokenType.
  eapply total_bind; [exact keeps_getTokenGroups|]. intros tgs0.
  eapply total_bind; [exact keeps_this|]. intros rr.
  eapply total_bind.
  { instantiate (1 := fun node' r' => ready tgs r' /\ known tgs node').
    destruct (_ && _ && _).
    - exact (alphabetizeAttribute_returns t node Hk).
    - apply total_ret. intros r Hr. split; [exact Hr | exact Hk]. }
  intros node1 r [Hr Hk1].
  destruct (isAttributeUnordered_returns t r Hr) as (v & r1 & E & R1 & Hv).
  unfold bind at 1. rewrite E.
  destruct v.
  - exact (orderAttribute_returns t node1 Hk1 (Hv eq_refl) r1 R1).
  - exists node1, r1. split; [reflexivity|]. split; [exact R1 | exact Hk1].
Qed.

Lemma forEachTokenType_returns types : forall node,
  known tgs node ->
  total (ready tgs) (forEachTokenType types node)
        (fun node' r' => ready tgs r' /\ known tgs node').
Proof.
  induction types as [|t types IH]; intros node Hk; cbn [forEachTokenType].
  - apply total_ret. intros r Hr. split; [exact Hr | exact Hk].
  - eapply total_bind; [exact (checkTokenType_returns t node Hk)|].
    intros node1 r [Hr Hk1]. exact (IH node1 Hk1 r Hr).
Qed.

End Ready.

Lemma push_keeps acc t x y u :
  In y (items (group acc u)) -> In y (items (group (push acc t x) u)).
Proof.
  destruct t, u; cbn; intros H; try exact H; apply in_or_app; left; exact H.
Qed.

Lemma push_adds acc t x : In x (items (group (push acc t x) t)).
Proof. destruct t; cbn; apply in_or_app; right; left; reflexivity. Qed.

Lemma fold_push_keeps tokens : forall acc u y,
  In y (items (group acc u)) ->
  In y (items (group (fold_left (fun acc tn => push acc (fst tn) (snd tn))
                                tokens acc) u)).
Proof.
  induction tokens as [|[t0 x0] tokens IH]; intros acc u y H; cbn [fold_left];
    [exact H|]. apply IH, push_keeps, H.
Qed.

Lemma groupTokens_In tokens t x :
  In (t, x) tokens -> In x (items (group (groupTokens tokens) t)).
Proof.
  unfold groupTokens. generalize no_tokens as acc.
  induction tokens as [|[t0 x0] tokens IH]; intros acc Hin; [contradiction|].
  cbn [fold_left fst snd]. destruct Hin as [[= -> ->]|Hin].
  - apply fold_push_keeps, push_adds.
  - apply IH, Hin.
Qed.

Lemma known_own_tokens node :
  known (groupTokens (getElementNodeTokens node)) node.
Proof.
  intros c Hc. apply in_flat_map.
  exists (group (groupTokens (getElementNodeTokens node)) COMMENTS). split.
  - unfold values. apply in_map. cbn; tauto.
  - apply groupTokens_In. unfold getElementNodeTokens.
    apply in_or_app; right. apply in_or_app; right.
    apply in_map_iff. exists c. split; [reflexivity | exact Hc].
Qed.

(** X10.  With a configured order of three categories besides
    splattributes, and no applied order memoized (or one of four entries),
    the check of an element returns in both modes: no call throws. *)
Lemma checkElementAttributesOrder_returns node r :
  (3 <= List.length
          (filter (fun attribute => negb (TokenType_eqb attribute SPLATTRIBUTES))
                  (order (config r))))%nat ->
  (forall o, appliedOrder r = Some o -> (4 <= List.length o)%nat) ->
  exists node' r', checkElementAttributesOrder node r = Return (node', r').
Proof.
  intros Hcfg Hmemo. unfold checkElementAttributesOrder.
  destruct (el_source node =? "")%string; [eexists; eexists; reflexivity|].
  unfold bind at 1. unfold makeTokenGroups, bind at 1, set_tokenGroups, ret.
  unfold bind at 1. cbn [this].
  match goal with
  | |- context [forEachTokenType ?ts node ?r0] =>
      destruct (forEachTokenType_returns
                  (groupTokens (getElementNodeTokens node)) ts node
                  (known_own_tokens node) r0) as (node' & r' & E & _)
  end.
  - split; [reflexivity|]. split; [exact Hcfg | exact Hmemo].
  - exists node', r'. exact E.
Qed.

Lemma findIndex_from_range {A : Type} (p : A -> Z -> bool) l : forall i,
  findIndex_from p l i = -1
  \/ i <= findIndex_from p l i < i + Z.of_nat (List.length l).
Proof.
  induction l as [|y l IH]; intros i; cbn [findIndex_from List.length];
    [left; reflexivity|].
  destruct (p y i); [right; lia|].
  destruct (IH (i + 1)) as [H|H]; [left; exact H | right; lia].
Qed.

Lemma findUnalphabetizedToken_some g :
  0 <= unalphabetizedItemIndex g -> exists item, findUnalphabetizedToken g = Some item.
Proof.
  unfold findUnalphabetizedToken, unalphabetizedItemIndex, findIndex.
  match goal with |- context [findIndex_from ?p ?l 0] =>
    destruct (findIndex_from_range p l 0) as [H|H]; [rewrite H; lia|];
    set (i := findIndex_from p l 0) in *
  end.
  rewrite length_map in H. intros _.
  apply TotalityFacts.at_index_some; lia.
Qed.

(** The check of a mustache statement returns in both modes. *)
Lemma checkMustacheAttributesOrder_returns node r :
  exists node' r', checkMustacheAttributesOrder node r = Return (node', r').
Proof.
  unfold checkMustacheAttributesOrder.
  destruct (mu_source node =? "")%string; [eexists; eexists; reflexivity|].
  destruct (path_type node); [|eexists; eexists; reflexivity].
  unfold bind at 1. unfold makeTokenGroups, bind at 1, set_tokenGroups, ret.
  unfold bind at 1. cbn [this config mode alphabetize].
  destruct (alphabetize (config r)); cbn [andb];
    [|eexists; eexists; reflexivity].
  destruct (Z.leb_spec 0 (unalphabetizedItemIndex
                            (group (groupTokens (getMustacheStatementTokens node))
                                   ATTRIBUTES))) as [Hle|_];
    [|eexists; eexists; reflexivity].
  destruct (mode r); [eexists; eexists; reflexivity|].
  destruct (findUnalphabetizedToken_some _ Hle) as (item & ->).
  rewrite createNotAlphabetizedErrorMessage_text.
  eexists; eexists; reflexivity.
Qed.

End TotalityFacts.

(** ** The rule on the example nodes *)

Module Cases.
Import Js AttributeOrder Spec Examples.

(** C1.  [columnZeroDiv] has its spread strictly between the least first
    position (0, of [class]) and the greatest last position (16, of [@a]),
    yet [areSplattributesSurrounded] is false for it, because a first
    position 0 is taken for a missing one: in detection mode the check logs
    two diagnostics, and in fix mode it requests replacements that move the
    spread to the end. *)
Theorem surrounded_test_misses_column_zero :
  sandwiched (tokensOf columnZeroDiv)
  /\ areSplattributesSurrounded (tokensOf columnZeroDiv) = false
  /\ messagesOf (checkElementAttributesOrder columnZeroDiv
                   (new_rule DEFAULT_CONFIG DetectMode))
     = [("Argument @a=" ++ dq ++ "1" ++ dq
         ++ " must go before attributes and modifiers")%string;
        ("Attribute class=" ++ dq ++ "x" ++ dq ++ " must go after arguments")%string]
  /\ map (fun n => names (attributes n))
         (replacementsOf (checkElementAttributesOrder columnZeroDiv
                            (new_rule DEFAULT_CONFIG FixMode)))
     = [[Some "@a"; Some "class"; Some "...attributes"];
        [Some "@a"; Some "class"; Some "...attributes"]].
Proof.
  split; [|split; [|split]]; try reflexivity.
  exists 6, 0, 16. repeat split; try reflexivity; lia.
Qed.

(** C2.  The comment of [trailingCommentDiv] follows every other token.
    [orderComment] finds no place for it and returns the sorted tokens
    without it, so neither node the fix puts in place has a comment, and
    the comments of the original node are emptied.  In
    [anchoredCommentDiv] the comment has an anchor and the first node put
    in place has it, but [orderComment] has emptied the comments of the
    original node, so the node put in place for the next category has
    none. *)
Theorem trailing_comment_is_dropped :
  texts (comments trailingCommentDiv) = [Some " c "]
  /\ match orderComment trailingCommentDiv
                        [attrAt "@a" "1" 1 15; attrAt "class" "x" 1 5]
                        (ruleOn trailingCommentDiv DEFAULT_CONFIG FixMode)
     with
     | Return ((node', sorted'), _) =>
         names sorted' = [Some "@a"; Some "class"] /\ comments node' = []
     | Throw _ => False
     end
  /\ map (fun n => (names (attributes n), texts (comments n)))
         (replacementsOf (checkElementAttributesOrder trailingCommentDiv
                            (new_rule DEFAULT_CONFIG FixMode)))
     = [([Some "@a"; Some "class"], []); ([Some "@a"; Some "class"], [])]
  /\ map (fun n => (names (attributes n), texts (comments n)))
         (replacementsOf (checkElementAttributesOrder anchoredCommentDiv
                            (new_rule DEFAULT_CONFIG FixMode)))
     = [([Some "@a"; Some "class"], [Some " c "]);
        ([Some "@a"; Some "class"], [])].
Proof.
  split; [reflexivity|]. split; [|split; reflexivity].
  vm_compute. split; reflexivity.
Qed.

(** C3.  One rule instance checks [spreadFirstDiv] and then
    [spreadLastDiv].  The applied order computed for the first node, with
    splattributes in front, is still the memoized one after the second
    node, whose own tokens give the order with splattributes at the end;
    with the stale order the second node gets a diagnostic that a fresh
    instance does not give (and in fix mode its spread is moved to the
    front). *)
Theorem applied_order_survives_the_node :
  let both m :=
    bind (checkElementAttributesOrder spreadFirstDiv)
         (fun _ => checkElementAttributesOrder spreadLastDiv)
         (new_rule DEFAULT_CONFIG m) in
  let alone m :=
    checkElementAttributesOrder spreadLastDiv (new_rule DEFAULT_CONFIG m) in
  appliedOrderOf (both DetectMode)
  = Some [SPLATTRIBUTES; ARGUMENTS; ATTRIBUTES; MODIFIERS]
  /\ appliedOrderOf (alone DetectMode)
     = Some [ARGUMENTS; ATTRIBUTES; MODIFIERS; SPLATTRIBUTES]
  /\ messagesOf (checkElementAttributesOrder spreadFirstDiv
                   (new_rule DEFAULT_CONFIG DetectMode)) = []
  /\ messagesOf (alone DetectMode) = []
  /\ messagesOf (both DetectMode)
     = [("Argument @a=" ++ dq ++ "1" ++ dq ++ " must go after arguments")%string]
  /\ replacementsOf (alone FixMode) = []
  /\ map (fun n => names (attributes n)) (replacementsOf (both FixMode))
     = [[Some "...attributes"; Some "@a"]].
Proof.
  cbv zeta. repeat split; reflexivity.
Qed.

(** C4, as stated, fails.  In [sandwichedDiv] arguments have rank 0 and
    their last position exceeds the first position of the category of rank
    1, yet the predicate is false for them: the splattributes are
    surrounded. *)
Lemma rank0_test_suppressed_when_surrounded :
  let r := ruleOn sandwichedDiv DEFAULT_CONFIG DetectMode in
  let tgs := tokensOf sandwichedDiv in
  ~ (forall o, returns getAppliedOrder r o ->
       indexOf TokenType_eqb o ARGUMENTS = 0 ->
       (returns (isAttributeUnordered ARGUMENTS) r true
        <-> Exists
              (fun k =>
                 exists c, at_index o k = Some c
                 /\ gt (of_index (lastIndex (group tgs ARGUMENTS)))
                       (of_index (firstIndex (group tgs c))) = true)
              [1; 2; 3])).
Proof.
  cbv zeta. intros H.
  specialize (H [ARGUMENTS; ATTRIBUTES; MODIFIERS; SPLATTRIBUTES]).
  destruct H as [_ H]; [eexists; cbv; reflexivity | reflexivity |].
  destruct H as [r' H].
  - apply Exists_cons_hd. exists ATTRIBUTES. split; reflexivity.
  - vm_compute in H. discriminate.
Qed.

(** C6.  With attributes configured before arguments, the fix of
    [mixedDiv] puts in place an element whose attributes are [@x], [a], [b]
    in this order.  On that element, parsed again from its text, the check
    reports two ordering violations, and a second fix puts yet another
    element in place. *)
Theorem fix_of_mixedDiv_is_not_stable :
  map (fun n => names (attributes n))
      (replacementsOf (checkElementAttributesOrder mixedDiv
                         (new_rule attributesFirst FixMode)))
  = [names (attributes mixedDivFixed); names (attributes mixedDivFixed)]
  /\ messagesOf (checkElementAttributesOrder mixedDivFixed
                   (new_rule attributesFirst DetectMode))
     = [("Attribute b=" ++ dq ++ "1" ++ dq
         ++ " must go before arguments and modifiers")%string;
        ("Argument @x=" ++ dq ++ "3" ++ dq ++ " must go after attributes")%string]
  /\ map (fun n => names (attributes n))
         (replacementsOf (checkElementAttributesOrder mixedDivFixed
                            (new_rule attributesFirst FixMode)))
     = [[Some "a"; Some "b"; Some "@x"]; [Some "a"; Some "b"; Some "@x"]].
Proof. repeat split; reflexivity. Qed.

(** C5.  One rule instance checks [spreadFirstDiv] and then comes to
    [spreadLastDiv].  In [spreadLastDiv] the last position of the spread
    is the greatest last position of all, so splattributes are to go
    last, and a rule with no order memoized computes that order.  The
    rule that has checked [spreadFirstDiv] returns the order memoized for
    that node instead, with splattributes in front. *)
Theorem stale_order_misplaces_splattributes :
  let tgs := tokensOf spreadLastDiv in
  let fresh := ruleOn spreadLastDiv DEFAULT_CONFIG DetectMode in
  let after m :=
    bind (checkElementAttributesOrder spreadFirstDiv)
         (fun _ => bind (makeTokenGroups tgs) (fun _ => getAppliedOrder))
         (new_rule DEFAULT_CONFIG m) in
  lastIndex (group tgs SPLATTRIBUTES) = maxLast tgs
  /\ lastIndex (group tgs SPLATTRIBUTES) <> minLast tgs
  /\ returns getAppliedOrder fresh [ARGUMENTS; ATTRIBUTES; MODIFIERS; SPLATTRIBUTES]
  /\ (exists r', after DetectMode
                 = Return ([SPLATTRIBUTES; ARGUMENTS; ATTRIBUTES; MODIFIERS], r'))
  /\ (exists r', after FixMode
                 = Return ([SPLATTRIBUTES; ARGUMENTS; ATTRIBUTES; MODIFIERS], r')).
Proof.
  cbv zeta. split; [reflexivity|]. split; [intros H; vm_compute in H; discriminate|].
  split; [eexists; vm_compute; reflexivity|].
  split; eexists; vm_compute; reflexivity.
Qed.


(** C7, as stated, fails.  The fix of [unsortedMustache] requests no
    replacement: the statement itself comes back with its hash pairs in
    another order. *)
Lemma mustache_fix_sorts_in_place :
  match checkMustacheAttributesOrder unsortedMustache
                                     (new_rule DEFAULT_CONFIG FixMode)
  with
  | Return (node', r') =>
      map key (hash_pairs unsortedMustache) = [Some "b"; Some "a"]
      /\ map key (hash_pairs node') = [Some "a"; Some "b"]
      /\ replaced r' = []
  | Throw _ => False
  end.
Proof. vm_compute. repeat split; reflexivity. Qed.

(** C8, as stated, fails.  The message logged for [unsortedDiv] names the
    category in the singular. *)
Lemma message_is_singular :
  messagesOf (checkElementAttributesOrder unsortedDiv
                (new_rule DEFAULT_CONFIG DetectMode))
  = [("Attribute a=" ++ dq ++ "2" ++ dq ++ " is not alphabetized")%string]
  /\ messagesOf (checkElementAttributesOrder unsortedDiv
                   (new_rule DEFAULT_CONFIG DetectMode)) <> [specifiedMessage]
  /\ messagesOf (checkElementAttributesOrder unsortedDiv
                   (new_rule DEFAULT_CONFIG DetectMode)) <> [specifiedMessageQuoted].
Proof.
  split; [reflexivity|]. split; intros H; vm_compute in H; discriminate.
Qed.

(** C8, amended.  In detection mode, a category whose group has an
    unalphabetized token gets one diagnostic, fixable and on that token,
    whose message is the category name with its first letter in upper case
    and its last letter removed (Argument, Attribute, Modifier), a space,
    the source text of the token and [ is not alphabetized]; and the
    message for [unsortedDiv] under the default configuration is exactly
    [Attribute a="2" is not alphabetized]. *)
Theorem not_alphabetized_message :
  (forall r tgs t node item,
      tokenGroups r = Some tgs ->
      mode r = DetectMode ->
      findUnalphabetizedToken (group tgs t) = Some item ->
      exists r',
        alphabetizeAttribute t node r = Return (node, r')
        /\ logged r'
           = (logged r
              ++ [{| message := (capitalizedSingular t ++ " "
                                 ++ sourceForNode item
                                 ++ " is not alphabetized")%string;
                     isFixable := true; d_node := item |}])%list)
  /\ (forall node r node' r',
        mode r = DetectMode ->
        checkMustacheAttributesOrder node r = Return (node', r') ->
        logged r' = logged r
        \/ exists item,
            logged r'
            = (logged r
               ++ [{| message := ("Attribute " ++ sourceForNode item
                                  ++ " is not alphabetized")%string;
                      isFixable := true; d_node := item |}])%list)
  /\ messagesOf (checkElementAttributesOrder unsortedDiv
                   (new_rule DEFAULT_CONFIG DetectMode))
     = [("Attribute a=" ++ dq ++ "2" ++ dq ++ " is not alphabetized")%string].
Proof.
  split; [|split; [|reflexivity]].
  - intros r tgs t node item Ht Hm Hitem.
    unfold alphabetizeAttribute, bind, this.
    rewrite (UnorderedFacts.getTokenGroups_some _ _ Ht), Hitem, Hm.
    rewrite FixFacts.createNotAlphabetizedErrorMessage_text.
    cbn [lift log ret]. eexists. split; reflexivity.
  - intros node r node' r' Hm H. unfold checkMustacheAttributesOrder in H.
    destruct (mu_source node =? "")%string;
      [apply FixFacts.ret_inv in H; destruct H as [_ ->]; left; reflexivity|].
    destruct (path_type node);
      [|apply FixFacts.ret_inv in H; destruct H as [_ ->]; left; reflexivity].
    apply FixFacts.bind_inv in H. destruct H as (tgs & r1 & Hmk & H).
    apply FixFacts.makeTokenGroups_inv in Hmk.
    destruct Hmk as (-> & _ & M2 & _ & _ & M5 & _).
    apply FixFacts.bind_inv in H. destruct H as (rr & r2 & Hthis & H).
    apply FixFacts.this_inv in Hthis. destruct Hthis as [-> ->].
    destruct (_ && _);
      [|apply FixFacts.ret_inv in H; destruct H as [_ ->]; left; exact M5].
    rewrite M2, Hm in H.
    destruct (findUnalphabetizedToken _) as [item|]; [|discriminate].
    rewrite FixFacts.createNotAlphabetizedErrorMessage_text in H.
    cbn [lift] in H. unfold bind, log, ret in H. injection H as _ <-.
    right. exists item. cbn [logged]. rewrite M5. reflexivity.
Qed.

End Cases.

(** ** The general statements at concrete inputs *)

Module Witnesses.
Import Js AttributeOrder Spec Examples.


(** [true] gives the default configuration, and [{ alphabetize: false }]
    gets the default [order]. *)
Lemma parseConfig_fills_defaults_witness :
  Config.parseConfig listlike_validator plain_message (Config.JsBoolean true)
  = Return Config.DEFAULT_CONFIG
  /\ exists cprops,
      Config.parseConfig listlike_validator plain_message
        (Config.JsObject [("alphabetize", Config.JsBoolean false)])
      = Return (Config.JsObject cprops)
      /\ Config.lookup "order" cprops
         = Config.lookup "order" Config.DEFAULT_CONFIG_props.
Proof.
  split.
  - apply (proj1 (ConfigFacts.parseConfig_fills_defaults
                    listlike_validator plain_message (Config.JsBoolean true)));
      [reflexivity | discriminate | reflexivity].
  - destruct (proj2 (ConfigFacts.parseConfig_fills_defaults
                       listlike_validator plain_message
                       (Config.JsObject [("alphabetize", Config.JsBoolean false)]))
                    [("alphabetize", Config.JsBoolean false)]
                    (Config.JsObject
                       [("alphabetize", Config.JsBoolean false);
                        ("order",
                         Config.JsArray (map Config.JsString Config.REQUIRED))])
                    "order" eq_refl eq_refl eq_refl)
      as (cprops & Hc & Hk).
    exists cprops. split; [|exact Hk].
    rewrite <- Hc. reflexivity.
Defined.

Lemma nonnegative_spreadFirstDiv : nonnegative (tokensOf spreadFirstDiv).
Proof.
  intros g Hg. unfold values in Hg. cbn in Hg.
  repeat (destruct Hg as [<-|Hg]; [repeat constructor; cbv; discriminate|]).
  contradiction.
Defined.

(** In [spreadFirstDiv] the spread has the least last position and does
    not exceed the attributes: splattributes go first. *)
Lemma getAppliedOrder_places_splattributes_witness :
  returns getAppliedOrder (ruleOn spreadFirstDiv DEFAULT_CONFIG DetectMode)
          [SPLATTRIBUTES; ARGUMENTS; ATTRIBUTES; MODIFIERS].
Proof.
  destruct (AppliedOrderFacts.getAppliedOrder_places_splattributes
              (ruleOn spreadFirstDiv DEFAULT_CONFIG DetectMode)
              (tokensOf spreadFirstDiv) eq_refl eq_refl
              nonnegative_spreadFirstDiv)
    as (o & Hret & _ & Hfirst & _).
  - cbn. intros [H|[H|[H|H]]]; try discriminate; contradiction.
  - rewrite Hfirst in Hret; [exact Hret | |].
    + intros [H|(x & y & Hx & Hy & Hlt)].
      * vm_compute in H. discriminate.
      * vm_compute in Hx, Hy. injection Hx as <-. injection Hy as <-. lia.
    + left. reflexivity.
Defined.

(** In [spreadLastDiv], whose splattributes are not surrounded, arguments
    have rank 0 and their last position exceeds no first position. *)
Lemma isAttributeUnordered_by_rank_witness :
  returns (isAttributeUnordered ARGUMENTS)
          (ruleOn spreadLastDiv DEFAULT_CONFIG DetectMode) false.
Proof.
  destruct (UnorderedFacts.isAttributeUnordered_by_rank
              (ruleOn spreadLastDiv DEFAULT_CONFIG DetectMode)
              (tokensOf spreadLastDiv)
              [ARGUMENTS; ATTRIBUTES; MODIFIERS; SPLATTRIBUTES]
              ARGUMENTS ARGUMENTS ATTRIBUTES MODIFIERS SPLATTRIBUTES []
              eq_refl
              (ex_intro _ _ eq_refl)
              eq_refl)
    as (v & Hret & _ & _ & Hrank).
  destruct (Hrank eq_refl eq_refl) as (H0 & _).
  rewrite (H0 eq_refl) in Hret. exact Hret.
Defined.

(** The diagnostic for the attributes of [unsortedDiv]. *)
Lemma not_alphabetized_message_witness :
  exists r',
    alphabetizeAttribute ATTRIBUTES unsortedDiv
                         (ruleOn unsortedDiv DEFAULT_CONFIG DetectMode)
    = Return (unsortedDiv, r')
    /\ map message (logged r')
       = [("Attribute a=" ++ dq ++ "2" ++ dq ++ " is not alphabetized")%string].
Proof.
  destruct (proj1 Cases.not_alphabetized_message
                  (ruleOn unsortedDiv DEFAULT_CONFIG DetectMode)
                  (tokensOf unsortedDiv) ATTRIBUTES unsortedDiv
                  (attrAt "a" "2" 1 11) eq_refl eq_refl eq_refl)
    as (r' & Hrun & Hlog).
  exists r'. split; [exact Hrun|]. rewrite Hlog. reflexivity.
Defined.

End Witnesses.

(** ** Token groups: positions, keys and grouping *)

Module GroupFacts.
Import Js AttributeOrder Spec Derived.

Lemma fold_max_upper l : forall a x, In x l -> x <= fold_left Z.max l a.
Proof.
  induction l as [|y l IH]; intros a x Hin; cbn [fold_left]; [contradiction|].
  destruct Hin as [->|Hin].
  - pose proof (AppliedOrderFacts.fold_max_ge l (Z.max a x)). lia.
  - apply IH, Hin.
Qed.

Lemma index_upper g hi :
  lastIndex g = Some hi ->
  Forall (fun x => calculateAttributeIndex x <= hi) (items g).
Proof.
  unfold lastIndex, indexes. destruct (items g) as [|t rest]; [discriminate|].
  cbn [map]. intros [= <-]. apply Forall_forall. intros x [<-|Hx].
  - apply AppliedOrderFacts.fold_max_ge.
  - apply fold_max_upper, in_map, Hx.
Qed.

Lemma first_match_unique {A : Type} (p : A -> bool) pre x post pre' y post' :
  (pre ++ x :: post)%list = (pre' ++ y :: post')%list ->
  Forall (fun z => p z = false) pre -> p x = true ->
  Forall (fun z => p z = false) pre' -> p y = true ->
  y = x.
Proof.
  revert pre'. induction pre as [|a pre IH]; intros pre' E Hpre Hx Hpre' Hy.
  - destruct pre' as [|b pre']; cbn [app] in E.
    + congruence.
    + injection E as <- _. inversion Hpre'; subst. congruence.
  - destruct pre' as [|b pre']; cbn [app] in E.
    + injection E as <- _. inversion Hpre; subst. congruence.
    + injection E as _ E. inversion Hpre; inversion Hpre'; subst.
      exact (IH pre' E ltac:(assumption) Hx ltac:(assumption) Hy).
Qed.

(** X1.  The first and the last index of a group without tokens are
    undefined; those of a group with tokens are indexes of its tokens, and
    every index of the group lies between them. *)
Theorem index_bounds (g : TokenGroup) :
  match items g with
  | [] => firstIndex g = None /\ lastIndex g = None
  | _ :: _ =>
      exists lo hi,
        firstIndex g = Some lo /\ lastIndex g = Some hi
        /\ In lo (indexes g) /\ In hi (indexes g)
        /\ forall i, In i (indexes g) -> lo <= i <= hi
  end.
Proof.
  unfold firstIndex, lastIndex, indexes.
  destruct (items g) as [|t rest]; cbn [map]; [split; reflexivity|].
  set (a := calculateAttributeIndex t).
  set (l := map calculateAttributeIndex rest).
  exists (fold_left Z.min l a), (fold_left Z.max l a).
  split; [reflexivity|]. split; [reflexivity|]. split; [|split].
  - destruct (AppliedOrderFacts.fold_min_in l a) as [->|H];
      [left; reflexivity | right; exact H].
  - destruct (TotalityFacts.fold_max_in l a) as [->|H];
      [left; reflexivity | right; exact H].
  - intros i [<-|Hi].
    + pose proof (AppliedOrderFacts.fold_min_le l a).
      pose proof (AppliedOrderFacts.fold_max_ge l a). lia.
    + pose proof (AppliedOrderFacts.fold_min_lower l a i Hi).
      pose proof (fold_max_upper l a i Hi). lia.
Qed.

Lemma at_index_last (pre0 : list string) p suf :
  at_index ((pre0 ++ [p]) ++ suf)%list (Z.of_nat (List.length pre0) + 1 - 1)
  = Some p.
Proof.
  unfold at_index. destruct (Z.ltb_spec (Z.of_nat (List.length pre0) + 1 - 1) 0);
    [lia|].
  replace (Z.to_nat (Z.of_nat (List.length pre0) + 1 - 1)) with (List.length pre0)
    by lia.
  rewrite <- app_assoc. rewrite nth_error_app2 by lia.
  rewrite Nat.sub_diag. reflexivity.
Qed.

Lemma scan_sorted suf : forall pre0 p,
  findIndex_from (inversion_at ((pre0 ++ [p]) ++ suf)%list) suf
                 (Z.of_nat (List.length pre0) + 1) = -1
  <-> alphabetized (p :: suf).
Proof.
  induction suf as [|e suf IH]; intros pre0 p; cbn [findIndex_from].
  - split; [intros _; repeat constructor | reflexivity].
  - rewrite at_index_last.
    destruct (Z.ltb_spec 0 (Z.of_nat (List.length pre0) + 1)) as [_|?]; [|lia].
    cbn [andb].
    replace ((pre0 ++ [p]) ++ e :: suf)%list
      with (((pre0 ++ [p]) ++ [e]) ++ suf)%list
      by (rewrite <- !app_assoc; reflexivity).
    specialize (IH (pre0 ++ [p])%list e).
    rewrite length_app in IH. cbn [List.length] in IH.
    replace (Z.of_nat (List.length pre0 + 1)) with (Z.of_nat (List.length pre0) + 1)
      in IH by lia.
    destruct (String.ltb e p) eqn:E.
    + split; [lia|]. intros H. inversion H as [|? ? _ Hd]; subst.
      inversion Hd; subst. congruence.
    + rewrite IH. split.
      * intros H. constructor; [exact H | constructor; exact E].
      * intros H. inversion H; subst. assumption.
Qed.

Lemma scan_range suf : forall pre0 p,
  let i := findIndex_from (inversion_at ((pre0 ++ [p]) ++ suf)%list) suf
                          (Z.of_nat (List.length pre0) + 1) in
  i = -1
  \/ exists k a c,
      i = Z.of_nat (List.length pre0) + 1 + Z.of_nat k
      /\ nth_error (p :: suf) k = Some a
      /\ nth_error (p :: suf) (S k) = Some c
      /\ String.ltb c a = true
      /\ alphabetized (firstn (S k) (p :: suf)).
Proof.
  induction suf as [|e suf IH]; intros pre0 p; cbn [findIndex_from].
  - left; reflexivity.
  - rewrite at_index_last.
    destruct (Z.ltb_spec 0 (Z.of_nat (List.length pre0) + 1)) as [_|?]; [|lia].
    cbn [andb].
    replace ((pre0 ++ [p]) ++ e :: suf)%list
      with (((pre0 ++ [p]) ++ [e]) ++ suf)%list
      by (rewrite <- !app_assoc; reflexivity).
    specialize (IH (pre0 ++ [p])%list e).
    rewrite length_app in IH. cbn [List.length] in IH.
    replace (Z.of_nat (List.length pre0 + 1)) with (Z.of_nat (List.length pre0) + 1)
      in IH by lia.
    destruct (String.ltb e p) eqn:E.
    + right. exists 0%nat, p, e. repeat split; try reflexivity; try lia; try exact E.
      cbn. repeat constructor.
    + cbv zeta in IH. destruct IH as [->|(k & a & c & Hi & Ha & Hc & Hlt & Hs)];
        [left; reflexivity|].
      right. exists (S k), a, c. repeat split; try assumption; try lia.
      cbn [firstn]. cbn [firstn] in Hs.
      constructor; [exact Hs | constructor; exact E].
Qed.

Lemma first_inversion (keys : list string) :
  let i := findIndex (inversion_at keys) keys in
  (i = -1 <-> alphabetized keys)
  /\ (i = -1
      \/ exists k a c,
          i = Z.of_nat (S k)
          /\ nth_error keys k = Some a /\ nth_error keys (S k) = Some c
          /\ String.ltb c a = true
          /\ alphabetized (firstn (S k) keys)).
Proof.
  cbv zeta. unfold findIndex. destruct keys as [|e suf].
  - cbn [findIndex_from].
    split; [split; [intros _; constructor | reflexivity] | left; reflexivity].
  - cbn [findIndex_from]. change (0 <? 0) with false. cbn [andb].
    pose proof (scan_sorted suf [] e) as Hs.
    pose proof (scan_range suf [] e) as Hr.
    cbn [app List.length] in Hs, Hr. cbv zeta in Hr.
    change (Z.of_nat 0 + 1) with 1 in *. change (0 + 1) with 1 in *.
    split; [exact Hs|].
    destruct Hr as [Hr|(k & a & c & Hi & Ha & Hc & Hlt & Hsorted)];
      [left; exact Hr|].
    right. exists k, a, c.
    split; [rewrite Hi; lia|].
    split; [exact Ha|]. split; [exact Hc|]. split; [exact Hlt | exact Hsorted].
Qed.

(** X2.  [unalphabetizedItemIndex] is -1 exactly when no key of the group
    is less than the key before it; otherwise it is the index of the first
    key that is less than its predecessor, the keys before it being in
    order.  [findUnalphabetizedToken] is undefined in the first case and
    the token at that index in the second. *)
Theorem unalphabetizedItemIndex_first_inversion (g : TokenGroup) :
  let keys := alpha_keys g in
  let i := unalphabetizedItemIndex g in
  (i = -1 <-> alphabetized keys)
  /\ (i = -1
      \/ exists k a c,
          i = Z.of_nat (S k)
          /\ nth_error keys k = Some a /\ nth_error keys (S k) = Some c
          /\ String.ltb c a = true
          /\ alphabetized (firstn (S k) keys)
          /\ findUnalphabetizedToken g = nth_error (items g) (S k))
  /\ (findUnalphabetizedToken g = None <-> alphabetized keys).
Proof.
  cbv zeta.
  assert (Hlen : List.length (alpha_keys g) = List.length (items g))
    by (unfold alpha_keys; apply length_map).
  destruct (first_inversion (alpha_keys g)) as [Hs Hr].
  unfold findUnalphabetizedToken.
  change (unalphabetizedItemIndex g) with (findIndex (inversion_at (alpha_keys g))
                                                     (alpha_keys g)).
  remember (findIndex (inversion_at (alpha_keys g)) (alpha_keys g)) as i eqn:Ei.
  clear Ei.
  split; [exact Hs|]. split.
  - destruct Hr as [Hr|(k & a & c & Hi & Ha & Hc & Hlt & Hsorted)];
      [left; exact Hr|].
    right. exists k, a, c.
    split; [exact Hi|].
    split; [exact Ha|]. split; [exact Hc|]. split; [exact Hlt|].
    split; [exact Hsorted|].
    unfold at_index. destruct (Z.ltb_spec i 0); [lia|].
    f_equal. lia.
  - split.
    + intros Hnone. apply Hs.
      destruct Hr as [Hr|(k & a & c & Hi & Ha & Hc & Hlt & Hsorted)];
        [exact Hr|].
      exfalso. unfold at_index in Hnone.
      destruct (Z.ltb_spec i 0); [lia|].
      apply nth_error_None in Hnone.
      assert (S k < List.length (alpha_keys g))%nat
        by (apply nth_error_Some; congruence).
      lia.
    + intros H. apply Hs in H. rewrite H. reflexivity.
Qed.

Lemma dropWhile_prefix p pre s :
  all_chars p pre = true -> dropWhile p (pre ++ s)%string = dropWhile p s.
Proof.
  induction pre as [|c pre IH]; cbn [all_chars String.append dropWhile];
    [reflexivity|].
  destruct (p c); cbn [andb]; [exact IH | discriminate].
Qed.

Lemma takeWhile_all p s : all_chars p (takeWhile p s) = true.
Proof.
  induction s as [|c s IH]; cbn [takeWhile]; [reflexivity|].
  destruct (p c) eqn:E; [|reflexivity]. cbn [all_chars]. rewrite E. exact IH.
Qed.

Lemma takeWhile_fixed p s : all_chars p s = true -> takeWhile p s = s.
Proof.
  induction s as [|c s IH]; cbn [all_chars takeWhile]; [reflexivity|].
  destruct (p c); cbn [andb]; [|discriminate]. intros H. rewrite (IH H).
  reflexivity.
Qed.

(** X3.  The key of a source text does not change when a run of
    non-letters is put in front of the text, so an argument [@name] and an
    attribute [name] have the same key; the key is made of word characters
    and dashes only, and taking the key of a key gives the key back. *)
Theorem alpha_key_ignores_prefix (pre text : string) :
  all_chars (fun c => negb (is_letter c)) pre = true ->
  alpha_key (pre ++ text) = alpha_key text
  /\ all_chars is_word_or_dash (alpha_key text) = true
  /\ alpha_key (alpha_key text) = alpha_key text.
Proof.
  intros Hpre. unfold alpha_key. split; [|split].
  - rewrite (dropWhile_prefix _ _ _ Hpre). reflexivity.
  - apply takeWhile_all.
  - set (rest := dropWhile (fun c => negb (is_letter c)) text).
    assert (Hrest : dropWhile (fun c => negb (is_letter c))
                              (takeWhile is_word_or_dash rest)
                    = takeWhile is_word_or_dash rest).
    { assert (Hhead : match rest with
                      | EmptyString => True
                      | String c _ => is_letter c = true
                      end).
      { subst rest. induction text as [|c text IH]; cbn [dropWhile]; [exact I|].
        destruct (is_letter c) eqn:E; cbn [negb]; [exact E | exact IH]. }
      destruct rest as [|c rest']; [reflexivity|].
      assert (Hw : is_word_or_dash c = true)
        by (unfold is_word_or_dash; rewrite Hhead; reflexivity).
      cbn [takeWhile]. rewrite Hw. cbn [dropWhile]. rewrite Hhead.
      reflexivity. }
    rewrite Hrest. apply takeWhile_fixed, takeWhile_all.
Qed.

Lemma push_items acc t0 x t :
  items (group (push acc t0 x) t)
  = (items (group acc t) ++ if TokenType_eqb t0 t then [x] else [])%list.
Proof.
  destruct t0, t; cbn; rewrite ?app_nil_r; reflexivity.
Qed.

Lemma perm_insert {A : Type} (x : A) pre post l :
  Permutation (pre ++ post) l -> Permutation (pre ++ x :: post) (x :: l).
Proof.
  intros H. apply Permutation_sym, Permutation_cons_app, Permutation_sym, H.
Qed.

Lemma groupTokens_items (tokens : list (TokenType * Token)) (t : TokenType) :
  items (group (groupTokens tokens) t)
  = map snd (filter (fun tn => TokenType_eqb (fst tn) t) tokens).
Proof.
  unfold groupTokens.
  assert (G : forall acc,
             items (group (fold_left (fun acc tn => push acc (fst tn) (snd tn))
                                     tokens acc) t)
             = (items (group acc t)
                ++ map snd (filter (fun tn => TokenType_eqb (fst tn) t) tokens))%list).
  { induction tokens as [|[t0 x] tokens IH]; intros acc; cbn [fold_left filter].
    - cbn [map]. rewrite app_nil_r. reflexivity.
    - rewrite IH, push_items. cbn [fst snd].
      destruct (TokenType_eqb t0 t); cbn [map]; rewrite <- app_assoc; reflexivity. }
  rewrite G. destruct t; reflexivity.
Qed.

Lemma all_items_groupTokens tokens :
  flat_map items (values (groupTokens tokens))
  = flat_map (fun t => map snd (filter (fun tn => TokenType_eqb (fst tn) t) tokens))
             TokenType_values.
Proof.
  unfold values. rewrite flat_map_concat_map, map_map.
  rewrite flat_map_concat_map. f_equal. apply map_ext. intros t.
  apply groupTokens_items.
Qed.

Lemma groupTokens_perm (tokens : list (TokenType * Token)) :
  Permutation (flat_map items (values (groupTokens tokens))) (map snd tokens).
Proof.
  rewrite all_items_groupTokens. unfold TokenType_values. cbn [flat_map].
  rewrite app_nil_r.
  induction tokens as [|[t0 x] tokens IH]; [constructor|].
  cbn [filter map fst snd].
  set (pick := fun t => map snd (filter (fun tn => TokenType_eqb (fst tn) t) tokens))
    in *.
  destruct t0; cbn [TokenType_eqb map snd app].
  - apply perm_skip, IH.
  - apply (perm_insert x (pick ARGUMENTS)), IH.
  - rewrite (app_assoc (pick ARGUMENTS)).
    apply perm_insert. rewrite <- app_assoc. exact IH.
  - rewrite (app_assoc (pick ATTRIBUTES)), (app_assoc (pick ARGUMENTS)).
    apply perm_insert. rewrite <- !app_assoc. exact IH.
  - rewrite (app_assoc (pick MODIFIERS)), (app_assoc (pick ATTRIBUTES)),
      (app_assoc (pick ARGUMENTS)).
    apply perm_insert. rewrite <- !app_assoc. exact IH.
Qed.

(** X4.  [groupTokens] loses and repeats nothing: the group of a token
    type holds exactly the tokens paired with that type, in the order in
    which they were given, and the five groups together hold every given
    token exactly as often as it was given. *)
Theorem groupTokens_partition (tokens : list (TokenType * Token)) :
  (forall t, items (group (groupTokens tokens) t)
             = map snd (filter (fun tn => TokenType_eqb (fst tn) t) tokens))
  /\ Permutation (flat_map items (values (groupTokens tokens))) (map snd tokens).
Proof.
  split; [intros t; apply groupTokens_items | apply groupTokens_perm].
Qed.

Lemma filter_map_tagged {A : Type} (f : A -> TokenType) (t : TokenType) l :
  map snd (filter (fun tn => TokenType_eqb (fst tn) t) (map (fun x => (f x, x)) l))
  = filter (fun x => TokenType_eqb (f x) t) l.
Proof.
  induction l as [|x l IH]; [reflexivity|]. cbn [map filter fst].
  destruct (TokenType_eqb (f x) t); cbn [map snd]; rewrite IH; reflexivity.
Qed.

Lemma filter_none {A : Type} (p : A -> bool) l :
  (forall x, In x l -> p x = false) -> filter p l = [].
Proof.
  induction l as [|x l IH]; intros H; [reflexivity|]. cbn [filter].
  rewrite (H x (or_introl eq_refl)). apply IH. intros y Hy. apply H. right. exact Hy.
Qed.

Lemma filter_all {A : Type} (p : A -> bool) l :
  (forall x, In x l -> p x = true) -> filter p l = l.
Proof.
  induction l as [|x l IH]; intros H; [reflexivity|]. cbn [filter].
  rewrite (H x (or_introl eq_refl)). f_equal. apply IH. intros y Hy. apply H.
  right. exact Hy.
Qed.

Lemma getTokenType_named t :
  named_attribute t ->
  getTokenType t
  = if is_argument t then ARGUMENTS
    else if is_spread t then SPLATTRIBUTES else ATTRIBUTES.
Proof.
  intros [Ht Hn]. unfold getTokenType, is_argument, is_spread, named_with.
  rewrite Ht, Hn. cbn [type_includes_Comment negb].
  destruct (name t) as [n|]; [|discriminate].
  destruct (startsWith n "@"); [reflexivity|]. cbn [negb andb].
  destruct (startsWith n "..."); reflexivity.
Qed.

(** X5.  The token groups of an element whose attributes are attribute
    nodes with a name: the arguments are the attributes named [@...], the
    splattributes those named [......] (and not [@...]), the attributes
    the others, each in the order of the element; the modifiers and the
    comments are those of the element. *)
Theorem element_token_groups (node : ElementNode) :
  Forall named_attribute (attributes node) ->
  let tgs := groupTokens (getElementNodeTokens node) in
  g_arguments tgs = filter is_argument (attributes node)
  /\ g_attributes tgs = filter is_plain (attributes node)
  /\ g_splattributes tgs = filter is_spread (attributes node)
  /\ g_modifiers tgs = modifiers node
  /\ g_comments tgs = comments node.
Proof.
  intros Hattrs tgs.
  assert (G : forall t,
             items (group tgs t)
             = (filter (fun x => TokenType_eqb (getTokenType x) t) (attributes node)
                ++ filter (fun x => TokenType_eqb MODIFIERS t) (modifiers node)
                ++ filter (fun x => TokenType_eqb COMMENTS t) (comments node))%list).
  { intros t. subst tgs. rewrite groupTokens_items. unfold getElementNodeTokens.
    rewrite !filter_app, !map_app.
    rewrite (filter_map_tagged getTokenType), (filter_map_tagged (fun _ => MODIFIERS)),
      (filter_map_tagged (fun _ => COMMENTS)). reflexivity. }
  assert (E : forall t p,
             (forall x, named_attribute x ->
                        TokenType_eqb (getTokenType x) t = p x) ->
             filter (fun x => TokenType_eqb (getTokenType x) t) (attributes node)
             = filter p (attributes node)).
  { intros t p Hp. apply filter_ext_in. intros x Hx. apply Hp.
    rewrite Forall_forall in Hattrs. apply Hattrs, Hx. }
  pose proof (G ARGUMENTS) as GA. pose proof (G ATTRIBUTES) as GT.
  pose proof (G SPLATTRIBUTES) as GS. pose proof (G MODIFIERS) as GM.
  pose proof (G COMMENTS) as GC. cbn [group items] in GA, GT, GS, GM, GC.
  cbn [TokenType_eqb] in GA, GT, GS, GM, GC.
  rewrite !(filter_none (fun _ => false)), ?app_nil_r in GA, GT, GS by reflexivity.
  rewrite !(filter_none (fun _ => false)), ?app_nil_r in GM, GC by reflexivity.
  rewrite !(filter_all (fun _ => true)), ?app_nil_r in GM, GC by reflexivity.
  split; [|split; [|split; [|split]]].
  - rewrite GA. apply E. intros x Hx. rewrite (getTokenType_named x Hx).
    unfold is_spread. destruct (is_argument x); [reflexivity|].
    destruct (negb _ && _); reflexivity.
  - rewrite GT. apply E. intros x Hx. rewrite (getTokenType_named x Hx).
    unfold is_plain, is_spread, is_argument.
    destruct (named_with "@" x); [reflexivity|]. cbn [negb andb].
    destruct (named_with "..." x); reflexivity.
  - rewrite GS. apply E. intros x Hx. rewrite (getTokenType_named x Hx).
    unfold is_spread, is_argument.
    destruct (named_with "@" x); [reflexivity|]. cbn [negb andb].
    destruct (named_with "..." x); reflexivity.
  - rewrite GM. rewrite filter_none; [cbn [app]; apply app_nil_r|].
    intros x Hx. rewrite Forall_forall in Hattrs.
    rewrite (getTokenType_named x (Hattrs x Hx)).
    destruct (is_argument x); [reflexivity|]. destruct (is_spread x); reflexivity.
  - rewrite GC. rewrite filter_none; [reflexivity|].
    intros x Hx. rewrite Forall_forall in Hattrs.
    rewrite (getTokenType_named x (Hattrs x Hx)).
    destruct (is_argument x); [reflexivity|]. destruct (is_spread x); reflexivity.
Qed.

End GroupFacts.

(** ** Sorting: [sort] and what the comparators of the rule make of it *)

Module SortFacts.
Import Js AttributeOrder Spec Derived.

Lemma insertBy_perm {A : Type} (cmp : A -> A -> Z) x l :
  Permutation (insertBy cmp x l) (x :: l).
Proof.
  induction l as [|y l IH]; cbn [insertBy]; [apply Permutation_refl|].
  destruct (cmp x y <? 0); [apply Permutation_refl|].
  eapply perm_trans; [apply perm_skip, IH | apply perm_swap].
Qed.

Lemma sort_from_perm {A : Type} (cmp : A -> A -> Z) l : forall acc,
  Permutation (fold_left (fun acc x => insertBy cmp x acc) l acc) (acc ++ l).
Proof.
  induction l as [|x l IH]; intros acc; cbn [fold_left].
  - rewrite app_nil_r. apply Permutation_refl.
  - eapply perm_trans; [apply IH|].
    eapply perm_trans; [apply Permutation_app_tail, insertBy_perm|].
    cbn [app]. apply Permutation_middle.
Qed.

Lemma sort_perm {A : Type} (cmp : A -> A -> Z) l : Permutation (sort cmp l) l.
Proof. apply (sort_from_perm cmp l []). Qed.

Section Sorted.
Context {A : Type} (cmp : A -> A -> Z) (R : A -> A -> Prop).
Hypothesis before : forall x y, (cmp x y <? 0) = true -> R x y.
Hypothesis after : forall x z, (cmp x z <? 0) = false -> R z x.

Lemma insertBy_sorted x l : Sorted R l -> Sorted R (insertBy cmp x l).
Proof.
  induction l as [|y l IH]; intros Hs; cbn [insertBy].
  - repeat constructor.
  - destruct (cmp x y <? 0) eqn:E.
    + constructor; [exact Hs | constructor; apply before, E].
    + inversion Hs as [|? ? Hl Hd]; subst. constructor; [apply IH, Hl|].
      destruct l as [|z l]; cbn [insertBy].
      * constructor. apply after, E.
      * destruct (cmp x z <? 0); constructor.
        -- apply after, E.
        -- inversion Hd; assumption.
Qed.

Lemma sort_from_sorted l : forall acc,
  Sorted R acc -> Sorted R (fold_left (fun acc x => insertBy cmp x acc) l acc).
Proof.
  induction l as [|x l IH]; intros acc Hacc; cbn [fold_left]; [exact Hacc|].
  apply IH, insertBy_sorted, Hacc.
Qed.

Lemma sort_sorted l : Sorted R (sort cmp l).
Proof. apply sort_from_sorted. constructor. Qed.

End Sorted.

Lemma str_gt_asym a c : str_gt a c = true -> str_gt c a = false.
Proof.
  unfold str_gt, str_lt. destruct a as [x|], c as [y|]; try discriminate.
  unfold String.ltb. rewrite (String.compare_antisym x y).
  destruct (String.compare y x); cbn; congruence.
Qed.

Lemma sort_ordered_by (field : Token -> option string) l :
  ordered_by field
    (sort (fun a c => if str_gt (field a) (field c) then 1 else -1) l).
Proof.
  apply sort_sorted.
  - intros x y. destruct (str_gt (field x) (field y)); [discriminate | reflexivity].
  - intros x z. destruct (str_gt (field x) (field z)) eqn:E; [|discriminate].
    intros _. apply str_gt_asym, E.
Qed.

Lemma flat_map_indexes l :
  flat_map indexes l = map calculateAttributeIndex (flat_map items l).
Proof.
  induction l as [|g l IH]; [reflexivity|]. cbn [flat_map].
  rewrite map_app, IH. reflexivity.
Qed.

(** X6.  [getAllIndexes] is in ascending order and holds the index of
    every token of the groups, each as often as tokens have it; for the
    groups made of a list of tokens these are the indexes of the tokens of
    the list. *)
Theorem getAllIndexes_sorted :
  (forall tgs,
      Sorted Z.le (getAllIndexes tgs)
      /\ Permutation (getAllIndexes tgs)
                     (map calculateAttributeIndex (flat_map items (values tgs))))
  /\ (forall tokens,
        Permutation (getAllIndexes (groupTokens tokens))
                    (map (fun tn => calculateAttributeIndex (snd tn)) tokens)).
Proof.
  unfold getAllIndexes. split; [intros tgs; split|].
  - apply sort_sorted; intros x y H; lia.
  - rewrite <- flat_map_indexes. apply sort_perm.
  - intros tokens. eapply perm_trans; [apply sort_perm|].
    rewrite flat_map_indexes, <- (map_map snd calculateAttributeIndex).
    apply Permutation_map, GroupFacts.groupTokens_perm.
Qed.

End SortFacts.

(** ** The check of a mustache statement *)

Module MustacheFacts.
Import Js AttributeOrder Spec Derived.

Lemma pairs_group node :
  items (group (groupTokens (getMustacheStatementTokens node)) ATTRIBUTES)
  = hash_pairs node.
Proof.
  rewrite GroupFacts.groupTokens_items. unfold getMustacheStatementTokens.
  rewrite (GroupFacts.filter_map_tagged (fun _ => ATTRIBUTES)).
  apply GroupFacts.filter_all. reflexivity.
Qed.

Lemma pairs_index node :
  unalphabetizedItemIndex
    (group (groupTokens (getMustacheStatementTokens node)) ATTRIBUTES)
  = findIndex (inversion_at (pair_keys node)) (pair_keys node).
Proof. unfold unalphabetizedItemIndex. rewrite pairs_group. reflexivity. Qed.

Lemma pairs_guard r node :
  (mu_source node =? "")%string = false ->
  path_type node = PathExpression ->
  alphabetize (config r)
  && (0 <=? findIndex (inversion_at (pair_keys node)) (pair_keys node)) = true
  <-> pairs_unalphabetized r node.
Proof.
  intros Hsrc Hpath. unfold pairs_unalphabetized.
  destruct (GroupFacts.first_inversion (pair_keys node)) as [Hs Hr].
  cbv zeta in Hs, Hr.
  remember (findIndex (inversion_at (pair_keys node)) (pair_keys node)) as i.
  apply String.eqb_neq in Hsrc. split.
  - intros H. apply andb_prop in H. destruct H as [Ha Hi].
    split; [exact Hsrc|]. split; [exact Hpath|]. split; [exact Ha|].
    intros Hal. apply Hs in Hal. lia.
  - intros (_ & _ & Ha & Hn). rewrite Ha. cbn [andb].
    destruct Hr as [Hr|(k & _ & _ & Hi & _)]; [|lia].
    exfalso. apply Hn, Hs, Hr.
Qed.

(** X7.  In fix mode the check of a mustache statement returns, logs
    nothing and requests no replacement; the statement keeps its path and
    its source text, and its hash pairs are the pairs it had, possibly in
    another order.  When the statement is looked at and the keys of the
    source texts of its pairs are out of order, the pairs come back with no
    [key] greater than the next one; otherwise the statement is as it
    was. *)
Theorem mustache_fix_sorts_by_key (node : MustacheStatement) (r : Rule) :
  mode r = FixMode ->
  exists node' r',
    checkMustacheAttributesOrder node r = Return (node', r')
    /\ logged r' = logged r /\ replaced r' = replaced r
    /\ appliedOrder r' = appliedOrder r
    /\ path_type node' = path_type node /\ mu_source node' = mu_source node
    /\ Permutation (hash_pairs node') (hash_pairs node)
    /\ (pairs_unalphabetized r node -> ordered_by key (hash_pairs node'))
    /\ (~ pairs_unalphabetized r node -> node' = node).
Proof.
  intros Hm. unfold checkMustacheAttributesOrder.
  assert (Same : forall r0,
             logged r0 = logged r -> replaced r0 = replaced r ->
             appliedOrder r0 = appliedOrder r ->
             ~ pairs_unalphabetized r node ->
             exists node' r',
               Return (node, r0) = Return (node', r')
               /\ logged r' = logged r /\ replaced r' = replaced r
               /\ appliedOrder r' = appliedOrder r
               /\ path_type node' = path_type node
               /\ mu_source node' = mu_source node
               /\ Permutation (hash_pairs node') (hash_pairs node)
               /\ (pairs_unalphabetized r node -> ordered_by key (hash_pairs node'))
               /\ (~ pairs_unalphabetized r node -> node' = node)).
  { intros r0 H1 H2 H3 Hn. exists node, r0.
    split; [reflexivity|]. split; [exact H1|]. split; [exact H2|].
    split; [exact H3|]. split; [reflexivity|]. split; [reflexivity|].
    split; [apply Permutation_refl|]. split; [intros H; contradiction|].
    intros _. reflexivity. }
  destruct (mu_source node =? "")%string eqn:Hsrc.
  { apply (Same r); try reflexivity. intros (H & _).
    apply String.eqb_eq in Hsrc. contradiction. }
  destruct (path_type node) eqn:Hpath.
  2:{ apply (Same r); try reflexivity. intros (_ & H & _). congruence. }
  unfold bind at 1. unfold makeTokenGroups, bind at 1, set_tokenGroups, ret.
  unfold bind at 1. cbn [this config mode]. rewrite pairs_index.
  pose proof (pairs_guard r node Hsrc Hpath) as G.
  destruct (alphabetize (config r)
            && (0 <=? findIndex (inversion_at (pair_keys node)) (pair_keys node)))
    eqn:E.
  - rewrite Hm. eexists; eexists. split; [reflexivity|].
    cbn [logged replaced appliedOrder with_hash_pairs path_type mu_source
         hash_pairs].
    split; [reflexivity|]. split; [reflexivity|]. split; [reflexivity|].
    split; [exact Hpath|]. split; [reflexivity|].
    split; [apply SortFacts.sort_perm|]. split.
    + intros _. apply (SortFacts.sort_ordered_by key).
    + intros Hn. exfalso. apply Hn, G. reflexivity.
  - eapply Same; try reflexivity. intros H. apply G in H. discriminate.
Qed.

(** X8.  In detection mode the check of a mustache statement returns the
    statement as it was and requests no replacement.  It logs nothing
    unless the statement is looked at and the keys of the source texts of
    its pairs are out of order; then it logs one fixable diagnostic, for
    the first pair whose key is less than the key before it, with the
    message [Attribute <source text> is not alphabetized]. *)
Theorem mustache_detection_reports_first_inversion
  (node : MustacheStatement) (r : Rule) :
  mode r = DetectMode ->
  exists r',
    checkMustacheAttributesOrder node r = Return (node, r')
    /\ replaced r' = replaced r
    /\ (~ pairs_unalphabetized r node -> logged r' = logged r)
    /\ (pairs_unalphabetized r node ->
        exists k a c item,
          nth_error (pair_keys node) k = Some a
          /\ nth_error (pair_keys node) (S k) = Some c
          /\ String.ltb c a = true
          /\ alphabetized (firstn (S k) (pair_keys node))
          /\ nth_error (hash_pairs node) (S k) = Some item
          /\ logged r' = (logged r ++ [notAlphabetized ATTRIBUTES item])%list).
Proof.
  intros Hm. unfold checkMustacheAttributesOrder.
  assert (Same : forall r0,
             logged r0 = logged r -> replaced r0 = replaced r ->
             ~ pairs_unalphabetized r node ->
             exists r',
               Return (node, r0) = Return (node, r')
               /\ replaced r' = replaced r
               /\ (~ pairs_unalphabetized r node -> logged r' = logged r)
               /\ (pairs_unalphabetized r node ->
                   exists k a c item,
                     nth_error (pair_keys node) k = Some a
                     /\ nth_error (pair_keys node) (S k) = Some c
                     /\ String.ltb c a = true
                     /\ alphabetized (firstn (S k) (pair_keys node))
                     /\ nth_error (hash_pairs node) (S k) = Some item
                     /\ logged r'
                        = (logged r ++ [notAlphabetized ATTRIBUTES item])%list)).
  { intros r0 H1 H2 Hn. exists r0. split; [reflexivity|]. split; [exact H2|].
    split; [intros _; exact H1 | intros H; contradiction]. }
  destruct (mu_source node =? "")%string eqn:Hsrc.
  { apply (Same r); try reflexivity. intros (H & _).
    apply String.eqb_eq in Hsrc. contradiction. }
  destruct (path_type node) eqn:Hpath.
  2:{ apply (Same r); try reflexivity. intros (_ & H & _). congruence. }
  unfold bind at 1. unfold makeTokenGroups, bind at 1, set_tokenGroups, ret.
  unfold bind at 1. cbn [this config mode]. rewrite pairs_index.
  pose proof (pairs_guard r node Hsrc Hpath) as G.
  destruct (GroupFacts.first_inversion (pair_keys node)) as [Hs Hr]. cbv zeta in Hs, Hr.
  unfold findUnalphabetizedToken. rewrite pairs_index, pairs_group.
  destruct (alphabetize (config r)
            && (0 <=? findIndex (inversion_at (pair_keys node)) (pair_keys node)))
    eqn:E.
  - rewrite Hm.
    destruct Hr as [Hr|(k & a & c & Hi & Ha & Hc & Hlt & Hsorted)].
    { apply andb_prop in E. destruct E as [_ E]. rewrite Hr in E. discriminate. }
    assert (Hlen : (S k < List.length (hash_pairs node))%nat).
    { rewrite <- (length_map (fun pair => alpha_key (sourceForNode pair))).
      apply nth_error_Some. unfold pair_keys in Hc. congruence. }
    destruct (nth_error (hash_pairs node) (S k)) as [item|] eqn:Hitem;
      [|apply nth_error_None in Hitem; lia].
    rewrite Hi. unfold at_index.
    destruct (Z.ltb_spec (Z.of_nat (S k)) 0); [lia|].
    rewrite Nat2Z.id, Hitem.
    unfold bind, lift, log, ret.
    rewrite FixFacts.createNotAlphabetizedErrorMessage_text.
    eexists. split; [reflexivity|]. cbn [logged replaced].
    split; [reflexivity|]. split.
    + intros Hn. exfalso. apply Hn, G. reflexivity.
    + intros _. exists k, a, c, item.
      split; [exact Ha|]. split; [exact Hc|]. split; [exact Hlt|].
      split; [exact Hsorted|]. split; [exact Hitem | reflexivity].
  - eapply Same; try reflexivity. intros H. apply G in H. discriminate.
Qed.

End MustacheFacts.

(** ** The memoized applied order *)

Module MemoFacts.
Import Js AttributeOrder Spec Derived.

Lemma memo_kept_refl r : memo_kept r r.
Proof. intros o H. exact H. Qed.

Lemma memo_kept_trans r1 r2 r3 :
  memo_kept r1 r2 -> memo_kept r2 r3 -> memo_kept r1 r3.
Proof. intros H1 H2 o H. apply H2, H1, H. Qed.

Lemma keeps_memo_ret {A : Type} (a : A) : keeps_memo (ret a).
Proof. intros r v r' [= _ <-]. apply memo_kept_refl. Qed.

Lemma keeps_memo_bind {A B : Type} (m : M A) (f : A -> M B) :
  keeps_memo m -> (forall a, keeps_memo (f a)) -> keeps_memo (bind m f).
Proof.
  intros Hm Hf r v r' H. apply FixFacts.bind_inv in H.
  destruct H as (a & r1 & H1 & H2).
  eapply memo_kept_trans; [eapply Hm, H1 | eapply Hf, H2].
Qed.

Lemma keeps_memo_throw {A : Type} e : keeps_memo (@throw A e).
Proof. intros r v r' H. discriminate H. Qed.

Lemma keeps_memo_this : keeps_memo this.
Proof. intros r v r' [= _ <-]. apply memo_kept_refl. Qed.

Lemma keeps_memo_lift {A : Type} (c : Completion A) : keeps_memo (lift c).
Proof.
  intros r v r' H. destruct c; [|discriminate H].
  injection H as _ <-. apply memo_kept_refl.
Qed.

Lemma keeps_memo_getTokenGroups : keeps_memo getTokenGroups.
Proof.
  intros r v r' H. unfold getTokenGroups in H.
  destruct (tokenGroups r); [|discriminate H].
  injection H as _ <-. apply memo_kept_refl.
Qed.

Lemma keeps_memo_set_tokenGroups tgs : keeps_memo (set_tokenGroups tgs).
Proof. intros r v r' [= _ <-] o H. exact H. Qed.

Lemma keeps_memo_makeTokenGroups tgs : keeps_memo (makeTokenGroups tgs).
Proof.
  apply keeps_memo_bind; [apply keeps_memo_set_tokenGroups|].
  intros _. apply keeps_memo_ret.
Qed.

Lemma keeps_memo_log d : keeps_memo (log d).
Proof. intros r v r' [= _ <-] o H. exact H. Qed.

Lemma keeps_memo_replaceNode node sorted : keeps_memo (replaceNode node sorted).
Proof. intros r v r' [= _ <-] o H. exact H. Qed.

Lemma keeps_memo_getAppliedOrder : keeps_memo getAppliedOrder.
Proof.
  intros r v r' H o Ho.
  rewrite (UnorderedFacts.getAppliedOrder_memo r o Ho) in H.
  injection H as _ <-. exact Ho.
Qed.

Create HintDb memo.

#[local] Hint Resolve keeps_memo_ret keeps_memo_throw keeps_memo_this
  keeps_memo_lift keeps_memo_getTokenGroups keeps_memo_makeTokenGroups
  keeps_memo_log keeps_memo_replaceNode keeps_memo_getAppliedOrder : memo.

Ltac memo_step :=
  first
    [ solve [auto with memo]
    | apply keeps_memo_bind; [|intros ?]
    | match goal with
      | |- keeps_memo (if ?c then _ else _) => destruct c
      | |- keeps_memo (match ?x with _ => _ end) => destruct x
      end ].

Ltac memo := repeat memo_step.

Lemma keeps_memo_getOrder t : keeps_memo (getOrder t).
Proof. unfold getOrder. memo. Qed.

Lemma keeps_memo_groupAtRank k : keeps_memo (groupAtRank k).
Proof. unfold groupAtRank. memo. Qed.

#[local] Hint Resolve keeps_memo_getOrder keeps_memo_groupAtRank : memo.

Lemma keeps_memo_orM (m1 m2 : M bool) :
  keeps_memo m1 -> keeps_memo m2 -> keeps_memo (orM m1 m2).
Proof. intros H1 H2. unfold orM. memo; assumption. Qed.

Lemma keeps_memo_isAttributeUnordered t : keeps_memo (isAttributeUnordered t).
Proof.
  unfold isAttributeUnordered, lastAboveFirstOf, lastBelowFirstOf,
    lastAboveLastOf, lastBelowLastOf.
  memo; repeat (apply keeps_memo_orM); memo.
Qed.

Lemma keeps_memo_createUnorderedErrorMessage t src :
  keeps_memo (createUnorderedErrorMessage t src).
Proof. unfold createUnorderedErrorMessage. memo. Qed.

Lemma keeps_memo_insertByM {A : Type} (cmp : A -> A -> M Z) x l :
  (forall u w, keeps_memo (cmp u w)) -> keeps_memo (insertByM cmp x l).
Proof.
  intros Hc. induction l as [|y l IH]; cbn [insertByM]; [apply keeps_memo_ret|].
  apply keeps_memo_bind; [apply Hc|]. intros c.
  destruct (c <? 0); [apply keeps_memo_ret|].
  apply keeps_memo_bind; [exact IH|]. intros rest. apply keeps_memo_ret.
Qed.

Lemma keeps_memo_sortM {A : Type} (cmp : A -> A -> M Z) l :
  (forall u w, keeps_memo (cmp u w)) -> keeps_memo (sortM cmp l).
Proof.
  intros Hc. unfold sortM. generalize (@nil A) as acc.
  induction l as [|x l IH]; intros acc; cbn [sortM_from]; [apply keeps_memo_ret|].
  apply keeps_memo_bind; [apply keeps_memo_insertByM, Hc|]. intros acc'. apply IH.
Qed.

Lemma keeps_memo_compareAttributeNames u w :
  keeps_memo (compareAttributeNames u w).
Proof. unfold compareAttributeNames. memo. Qed.

Lemma keeps_memo_compareOrder u w : keeps_memo (compareOrder u w).
Proof. unfold compareOrder. memo. Qed.

Lemma keeps_memo_orderComment node sorted : keeps_memo (orderComment node sorted).
Proof. unfold orderComment. memo. Qed.

#[local] Hint Resolve keeps_memo_isAttributeUnordered
  keeps_memo_createUnorderedErrorMessage keeps_memo_orderComment : memo.

Lemma keeps_memo_alphabetizeAttribute t node :
  keeps_memo (alphabetizeAttribute t node).
Proof.
  unfold alphabetizeAttribute.
  apply keeps_memo_bind; [auto with memo|]. intros tgs.
  destruct (findUnalphabetizedToken _); [|auto with memo].
  apply keeps_memo_bind; [auto with memo|]. intros r0.
  destruct (mode r0).
  - apply keeps_memo_bind;
      [apply keeps_memo_sortM, keeps_memo_compareAttributeNames|].
    intros sortedAttributes. cbv zeta. memo.
  - memo.
Qed.

Lemma keeps_memo_orderAttribute t node : keeps_memo (orderAttribute t node).
Proof.
  unfold orderAttribute.
  apply keeps_memo_bind; [auto with memo|]. intros tgs. cbv zeta.
  apply keeps_memo_bind; [auto with memo|]. intros r0.
  destruct (mode r0).
  - apply keeps_memo_bind; [apply keeps_memo_sortM, keeps_memo_compareOrder|].
    intros sorted. memo.
  - memo.
Qed.

Lemma keeps_memo_checkTokenType t node : keeps_memo (checkTokenType t node).
Proof.
  unfold checkTokenType.
  apply keeps_memo_bind; [auto with memo|]. intros tgs.
  apply keeps_memo_bind; [auto with memo|]. intros r0. cbv zeta.
  apply keeps_memo_bind.
  - destruct (_ && _); [apply keeps_memo_alphabetizeAttribute | auto with memo].
  - intros node1. apply keeps_memo_bind; [auto with memo|]. intros unordered.
    destruct unordered; [apply keeps_memo_orderAttribute | auto with memo].
Qed.

Lemma keeps_memo_forEachTokenType types : forall node,
  keeps_memo (forEachTokenType types node).
Proof.
  induction types as [|t types IH]; intros node; cbn [forEachTokenType];
    [apply keeps_memo_ret|].
  apply keeps_memo_bind; [apply keeps_memo_checkTokenType | exact IH].
Qed.

Lemma keeps_memo_checkElementAttributesOrder node :
  keeps_memo (checkElementAttributesOrder node).
Proof.
  unfold checkElementAttributesOrder.
  destruct (el_source node =? "")%string; [apply keeps_memo_ret|].
  apply keeps_memo_bind; [auto with memo|]. intros _.
  apply keeps_memo_bind; [auto with memo|]. intros r0.
  apply keeps_memo_forEachTokenType.
Qed.

Lemma keeps_memo_checkMustacheAttributesOrder node :
  keeps_memo (checkMustacheAttributesOrder node).
Proof. unfold checkMustacheAttributesOrder. memo. Qed.

(** X11.  The place of [splattributes] in the configured order is never
    used: the first call of [getAppliedOrder] takes the configured order
    without [splattributes], in which [splattributes] does not occur, and
    puts [splattributes] either after it or before it; it memoizes the result and changes nothing else, and the
    next call returns the same order from the memo. *)
Theorem getAppliedOrder_ignores_configured_place (r : Rule) (tgs : TokenGroups) :
  appliedOrder r = None ->
  tokenGroups r = Some tgs ->
  exists o r',
    getAppliedOrder r = Return (o, r')
    /\ (o = (orderMinusSplattributes (config r) ++ [SPLATTRIBUTES])%list
        \/ o = SPLATTRIBUTES :: orderMinusSplattributes (config r))
    /\ ~ In SPLATTRIBUTES (orderMinusSplattributes (config r))
    /\ appliedOrder r' = Some o /\ same_but_memo r r'
    /\ getAppliedOrder r' = Return (o, r').
Proof.
  intros Hmemo Htgs.
  destruct (FixFacts.getAppliedOrder_total r tgs Htgs) as (o & r' & E).
  destruct (UnorderedFacts.getAppliedOrder_spec _ _ _ E) as [Hm S].
  assert (Hshape : o = (orderMinusSplattributes (config r) ++ [SPLATTRIBUTES])%list
                   \/ o = SPLATTRIBUTES :: orderMinusSplattributes (config r)).
  { revert E. unfold getAppliedOrder, bind, this, getTokenGroups,
      set_appliedOrder, ret. rewrite Hmemo, Htgs. intros [= <- _].
    unfold orderMinusSplattributes.
    repeat match goal with
           | |- context [if ?c then _ else _] => destruct c
           end; tauto. }
  exists o, r'. split; [exact E|]. split; [exact Hshape|]. split.
  - unfold orderMinusSplattributes.
    intros H. apply filter_In in H. destruct H as [_ H]. discriminate H.
  - split; [exact Hm|]. split; [exact S|].
    apply UnorderedFacts.getAppliedOrder_memo, Hm.
Qed.

(** X12.  An applied order that is memoized on the rule is never
    replaced: after the check of any element or mustache statement that
    returns, whatever its tokens, it is still the memoized order, and
    [getOrder] still ranks the token types by it. *)
Theorem applied_order_is_never_reset (r : Rule) (o : list TokenType) :
  appliedOrder r = Some o ->
  (forall node node' r',
      checkElementAttributesOrder node r = Return (node', r') ->
      appliedOrder r' = Some o
      /\ forall t, getOrder t r' = Return (indexOf TokenType_eqb o t, r'))
  /\ (forall node node' r',
        checkMustacheAttributesOrder node r = Return (node', r') ->
        appliedOrder r' = Some o
        /\ forall t, getOrder t r' = Return (indexOf TokenType_eqb o t, r')).
Proof.
  intros Hmemo. split; intros node node' r' H.
  - pose proof (keeps_memo_checkElementAttributesOrder node r node' r' H o Hmemo)
      as Hk.
    split; [exact Hk|]. intros t. apply UnorderedFacts.getOrder_memo, Hk.
  - pose proof (keeps_memo_checkMustacheAttributesOrder node r node' r' H o Hmemo)
      as Hk.
    split; [exact Hk|]. intros t. apply UnorderedFacts.getOrder_memo, Hk.
Qed.

End MemoFacts.

(** ** The diagnostics of the check of an element *)

Module ReportFacts.
Import Js AttributeOrder Spec Derived UnorderedFacts FixFacts.

Lemma at_index_In {A : Type} (l : list A) i x : at_index l i = Some x -> In x l.
Proof.
  unfold at_index. destruct (i <? 0); [discriminate|]. apply nth_error_In.
Qed.

Lemma capitalizedAttribute_singular t :
  capitalizedAttribute (TokenType_string t) = Return (capitalizedSingular t).
Proof. destruct t; reflexivity. Qed.

Lemma createUnorderedErrorMessage_shape t src r msg r' :
  createUnorderedErrorMessage t src r = Return (msg, r') ->
  exists rest,
    msg = (capitalizedSingular t ++ " " ++ src ++ " must go " ++ rest)%string.
Proof.
  unfold createUnorderedErrorMessage. rewrite capitalizedAttribute_singular.
  intros H. minv H as rank r1 Hrank.
  destruct (rank =? 0); [|destruct (rank =? 1)].
  - minv H as o1 r2 H1. minv H as o2 r3 H2. minv H as cap r4 Hcap.
    apply lift_inv in Hcap. destruct Hcap as [[= <-] ->].
    apply ret_inv in H. destruct H as [-> _].
    exists ("before " ++ interpolate (at_index o1 1) ++ " and "
            ++ interpolate (at_index o2 2))%string.
    reflexivity.
  - minv H as cap r2 Hcap. minv H as rr r3 Hthis.
    apply lift_inv in Hcap. destruct Hcap as [[= <-] ->].
    apply ret_inv in H. destruct H as [-> _].
    exists ("after " ++ interpolate (at_index (order (config rr)) (rank - 1)))%string.
    reflexivity.
  - minv H as cap r2 Hcap. minv H as o r3 Ho.
    apply lift_inv in Hcap. destruct Hcap as [[= <-] ->].
    apply ret_inv in H. destruct H as [-> _].
    exists ("after " ++ interpolate (at_index o (rank - 1)))%string.
    reflexivity.
Qed.

Lemma adds_none tgs types r r' : logged r' = logged r -> adds tgs types 0%nat r r'.
Proof.
  intros H. exists []. rewrite app_nil_r.
  split; [exact H|]. split; [constructor | apply Nat.le_refl].
Qed.

Lemma adds_trans tgs types n m r1 r2 r3 :
  adds tgs types n r1 r2 -> adds tgs types m r2 r3 ->
  adds tgs types (n + m)%nat r1 r3.
Proof.
  intros (ds1 & L1 & F1 & N1) (ds2 & L2 & F2 & N2).
  exists (ds1 ++ ds2)%list. split; [|split].
  - rewrite L2, L1, app_assoc. reflexivity.
  - apply Forall_app. split; assumption.
  - rewrite length_app. lia.
Qed.

Lemma adds_more tgs types types' n m r r' :
  (n <= m)%nat -> incl types types' ->
  adds tgs types n r r' -> adds tgs types' m r r'.
Proof.
  intros Hle Hincl (ds & L & F & N). exists ds.
  split; [exact L|]. split; [|lia].
  eapply Forall_impl; [|exact F].
  intros d (Hfix & t & Ht & Hrest). split; [exact Hfix|].
  exists t. split; [apply Hincl, Ht | exact Hrest].
Qed.

Section Detect.

Variable tgs : TokenGroups.

Lemma alphabetizeAttribute_reports t node r node' r' :
  tokenGroups r = Some tgs -> mode r = DetectMode ->
  alphabetizeAttribute t node r = Return (node', r') ->
  adds tgs [t] 1%nat r r'.
Proof.
  intros Ht Hm. unfold alphabetizeAttribute. intros H. minv H as g r0 Hg.
  apply getTokenGroups_inv in Hg. destruct Hg as [Hg ->].
  assert (g = tgs) by congruence. subst g.
  destruct (findUnalphabetizedToken (group tgs t)) as [item|] eqn:Hitem.
  2:{ apply ret_inv in H. destruct H as [_ ->].
      apply (adds_more tgs [t] [t] 0);
        [lia | apply incl_refl | apply adds_none; reflexivity]. }
  minv H as rr r0 Hthis. apply this_inv in Hthis. destruct Hthis as [-> ->].
  rewrite Hm in H. minv H as msg r1 Hmsg. minv H as u r2 Hlog.
  apply lift_inv in Hmsg. destruct Hmsg as [Hmsg ->].
  rewrite createNotAlphabetizedErrorMessage_text in Hmsg. injection Hmsg as <-.
  apply log_inv in Hlog. destruct Hlog as (_ & _ & _ & _ & L & _).
  apply ret_inv in H. destruct H as [_ ->].
  eexists. split; [exact L|]. split; [|apply Nat.le_refl].
  constructor; [|constructor]. split; [reflexivity|]. exists t. cbn [d_node message].
  split; [left; reflexivity|].
  split; [exact (at_index_In _ _ _ Hitem)|]. left. split; [exact Hitem | reflexivity].
Qed.

Lemma orderAttribute_reports t node r node' r' :
  tokenGroups r = Some tgs -> mode r = DetectMode ->
  orderAttribute t node r = Return (node', r') ->
  adds tgs [t] 1%nat r r'.
Proof.
  intros Ht Hm. unfold orderAttribute. intros H. minv H as g r0 Hg.
  apply getTokenGroups_inv in Hg. destruct Hg as [Hg ->].
  assert (g = tgs) by congruence. subst g. cbv zeta in H.
  minv H as rr r0 Hthis. apply this_inv in Hthis. destruct Hthis as [-> ->].
  rewrite Hm in H.
  destruct (findUnorderedToken (group tgs t)) as [it|] eqn:Hit; [|discriminate].
  minv H as msg r1 Hmsg. minv H as u r2 Hlog.
  pose proof (createUnorderedErrorMessage_frame _ _ _ _ _ Hmsg)
    as (_ & _ & _ & S4 & _).
  apply createUnorderedErrorMessage_shape in Hmsg. destruct Hmsg as (rest & ->).
  apply log_inv in Hlog. destruct Hlog as (_ & _ & _ & _ & L & _).
  apply ret_inv in H. destruct H as [_ ->].
  eexists. split; [rewrite L, S4; reflexivity|]. split; [|apply Nat.le_refl].
  constructor; [|constructor]. split; [reflexivity|]. exists t. cbn [d_node message].
  split; [left; reflexivity|]. split.
  - unfold findUnorderedToken in Hit. apply find_some in Hit. apply Hit.
  - right. split; [exact Hit|]. exists rest. reflexivity.
Qed.

Lemma checkTokenType_reports t node r node' r' :
  tokenGroups r = Some tgs -> mode r = DetectMode ->
  checkTokenType t node r = Return (node', r') ->
  adds tgs [t] 2%nat r r'.
Proof.
  intros Ht Hm. unfold checkTokenType. intros H. minv H as g r0 Hg.
  apply getTokenGroups_inv in Hg. destruct Hg as [_ ->].
  minv H as rr r0 Hthis. apply this_inv in Hthis. destruct Hthis as [-> ->].
  minv H as node1 r1 Halpha. minv H as unordered r2 Hun.
  assert (K1 : adds tgs [t] 1%nat r r1
               /\ tokenGroups r1 = Some tgs /\ mode r1 = DetectMode).
  { destruct (_ && _ && _).
    - pose proof (alphabetizeAttribute_ok _ _ _ _ _ Halpha)
        as (_ & M1 & M2 & _).
      split; [exact (alphabetizeAttribute_reports _ _ _ _ _ Ht Hm Halpha)|].
      split; congruence.
    - apply ret_inv in Halpha. destruct Halpha as [_ ->].
      split; [|split; assumption].
      apply (adds_more tgs [t] [t] 0);
        [lia | apply incl_refl | apply adds_none; reflexivity]. }
  destruct K1 as (A1 & Ht1 & Hm1).
  apply isAttributeUnordered_frame in Hun.
  destruct Hun as (_ & M1 & M2 & M3 & _).
  assert (A2 : adds tgs [t] 1%nat r1 r').
  { destruct unordered.
    - apply (adds_trans tgs [t] 0 1 r1 r2 r'); [apply adds_none, M3|].
      apply (orderAttribute_reports t node1 r2 node' r');
        [congruence | congruence | exact H].
    - apply ret_inv in H. destruct H as [_ ->].
      apply (adds_more tgs [t] [t] 0);
        [lia | apply incl_refl | apply adds_none, M3]. }
  exact (adds_trans tgs [t] 1 1 _ _ _ A1 A2).
Qed.

Lemma forEachTokenType_reports types : forall node r node' r',
  tokenGroups r = Some tgs -> mode r = DetectMode ->
  forEachTokenType types node r = Return (node', r') ->
  adds tgs types (2 * List.length types)%nat r r'.
Proof.
  induction types as [|t types IH]; intros node r node' r' Ht Hm H;
    cbn [forEachTokenType] in H.
  - apply ret_inv in H. destruct H as [_ ->]. apply adds_none. reflexivity.
  - minv H as node1 r1 H1.
    pose proof (checkTokenType_ok _ _ _ _ _ H1) as (_ & M1 & M2 & _).
    pose proof (checkTokenType_reports _ _ _ _ _ Ht Hm H1) as A1.
    assert (A2 : adds tgs types (2 * List.length types)%nat r1 r')
      by (apply (IH node1 r1 node' r'); [congruence | congruence | exact H]).
    apply (adds_more tgs (t :: types) (t :: types)
                     (2 + 2 * List.length types));
      [cbn [List.length]; lia | apply incl_refl|].
    apply (adds_trans tgs (t :: types) 2 (2 * List.length types) r r1 r').
    + apply (adds_more tgs [t] (t :: types) 2 2); [lia| |exact A1].
      intros x [<-|[]]. left. reflexivity.
    + apply (adds_more tgs types (t :: types) _ _ r1 r' (Nat.le_refl _));
        [|exact A2].
      intros x Hx. right. exact Hx.
Qed.

End Detect.

Lemma own_tokens node t x :
  In x (items (group (groupTokens (getElementNodeTokens node)) t)) ->
  In x (tokens_of node).
Proof.
  intros H.
  assert (Hall : In x (flat_map items
                         (values (groupTokens (getElementNodeTokens node))))).
  { apply in_flat_map. exists (group (groupTokens (getElementNodeTokens node)) t).
    split; [|exact H]. unfold values. apply in_map. destruct t; cbn; tauto. }
  apply (Permutation_in _ (GroupFacts.groupTokens_perm _)) in Hall.
  unfold getElementNodeTokens in Hall. unfold tokens_of.
  rewrite !map_app, !map_map in Hall. cbn [snd] in Hall.
  rewrite !map_id in Hall. exact Hall.
Qed.

(** X13.  What the check of an element logs.  In fix mode it logs
    nothing.  In detection mode it adds at most two diagnostics for each
    entry of the configured order, and every diagnostic is fixable and is
    about a token of the element: the token [findUnalphabetizedToken]
    gives for a token type of the configured order, with the message that
    it is not alphabetized, or the token [findUnorderedToken] gives for it,
    with a message that it must go before or after other categories.  No
    token of a type that is not in the configured order is reported. *)
Theorem element_diagnostics (node : ElementNode) (r : Rule)
  (node' : ElementNode) (r' : Rule) :
  checkElementAttributesOrder node r = Return (node', r') ->
  (mode r = FixMode -> logged r' = logged r)
  /\ (mode r = DetectMode ->
      exists ds,
        logged r' = (logged r ++ ds)%list
        /\ (List.length ds <= 2 * List.length (order (config r)))%nat
        /\ Forall (reports (groupTokens (getElementNodeTokens node))
                           (order (config r))) ds
        /\ Forall (fun d => In (d_node d) (tokens_of node)) ds).
Proof.
  unfold checkElementAttributesOrder. intros H.
  destruct (el_source node =? "")%string.
  { apply ret_inv in H. destruct H as [_ ->]. split; [reflexivity|].
    intros _. exists []. rewrite app_nil_r.
    split; [reflexivity|]. split; [cbn; lia|]. split; constructor. }
  minv H as tgs r1 Hmk. minv H as rr r2 Hthis.
  apply makeTokenGroups_inv in Hmk.
  destruct Hmk as (-> & M1 & M2 & _ & M4 & M5 & _).
  apply this_inv in Hthis. destruct Hthis as [-> ->].
  split.
  - intros Hm. apply forEachTokenType_ok in H.
    destruct H as (_ & _ & _ & _ & _ & F).
    destruct F as [F _]; congruence.
  - intros Hm.
    destruct (forEachTokenType_reports _ _ _ _ _ _ M4 (eq_trans M2 Hm) H)
      as (ds & L & F & N).
    rewrite M1 in F, N.
    exists ds. split; [congruence|]. split; [exact N|].
    split; [exact F|].
    eapply Forall_impl; [|exact F].
    intros d (_ & t & _ & Hin & _). exact (own_tokens node t _ Hin).
Qed.

End ReportFacts.

(** ** The fix of the category order *)

Module OrderFacts.
Import Js AttributeOrder Spec Derived UnorderedFacts FixFacts.

Lemma insertByM_pure {A : Type} (cmp : A -> A -> M Z) (f : A -> A -> Z) r x l :
  (forall u w, cmp u w r = Return (f u w, r)) ->
  insertByM cmp x l r = Return (insertBy f x l, r).
Proof.
  intros Hc. induction l as [|y l IH]; cbn [insertByM insertBy]; [reflexivity|].
  unfold bind at 1. rewrite Hc. destruct (f x y <? 0); [reflexivity|].
  unfold bind. rewrite IH. reflexivity.
Qed.

Lemma sortM_pure {A : Type} (cmp : A -> A -> M Z) (f : A -> A -> Z) r l :
  (forall u w, cmp u w r = Return (f u w, r)) ->
  sortM cmp l r = Return (sort f l, r).
Proof.
  intros Hc. unfold sortM, sort. generalize (@nil A) as acc.
  induction l as [|x l IH]; intros acc; cbn [sortM_from fold_left]; [reflexivity|].
  unfold bind. rewrite (insertByM_pure cmp f r x acc Hc). apply IH.
Qed.

Lemma compareOrder_memo r o a c :
  appliedOrder r = Some o ->
  compareOrder a c r = Return (compareRanks o a c, r).
Proof.
  intros Hm. unfold compareOrder, compareRanks, rankIn, bind.
  rewrite !(getOrder_memo r o _ Hm).
  destruct (_ =? _); [reflexivity|]. reflexivity.
Qed.

Section Ranks.

Variable o : list TokenType.

Let le (a c : Token) : Prop := rankIn o a <= rankIn o c.

Lemma compareRanks_negative x y :
  (compareRanks o x y <? 0) = true <-> rankIn o x < rankIn o y.
Proof.
  unfold compareRanks. cbv zeta.
  destruct (Z.eqb_spec (rankIn o x) (rankIn o y)) as [E|E].
  - destruct (calculateAttributeIndex y <? calculateAttributeIndex x); cbn;
      split; intros H; try discriminate; lia.
  - destruct (Z.ltb_spec (rankIn o y) (rankIn o x)) as [L|L]; cbn; split;
      intros H; try discriminate; try reflexivity; lia.
Qed.

Lemma sort_by_rank l : Sorted le (sort (compareRanks o) l).
Proof.
  apply SortFacts.sort_sorted.
  - intros x y H. apply compareRanks_negative in H. unfold le. lia.
  - intros x z H. unfold le.
    destruct (Z.lt_ge_cases (rankIn o x) (rankIn o z)) as [Hlt|Hge]; [|exact Hge].
    apply compareRanks_negative in Hlt. congruence.
Qed.

Lemma above_rank_none k y l :
  k < rankIn o y -> Sorted le (y :: l) -> ranked o k (y :: l) = [].
Proof.
  intros Hk Hs. apply Sorted_StronglySorted in Hs.
  2:{ intros a c d H1 H2. unfold le in *. lia. }
  apply StronglySorted_inv in Hs. destruct Hs as [_ Hall].
  unfold ranked. apply GroupFacts.filter_none. intros x [<-|Hx].
  - apply Z.eqb_neq. lia.
  - rewrite Forall_forall in Hall. specialize (Hall x Hx). unfold le in Hall.
    apply Z.eqb_neq. lia.
Qed.

Lemma ranked_cons k x l :
  ranked o k (x :: l)
  = ((if rankIn o x =? k then [x] else []) ++ ranked o k l)%list.
Proof. unfold ranked. cbn [filter]. destruct (rankIn o x =? k); reflexivity. Qed.

Lemma insertBy_ranked k x l :
  Sorted le l ->
  ranked o k (insertBy (compareRanks o) x l)
  = (ranked o k l ++ ranked o k [x])%list.
Proof.
  induction l as [|y l IH]; intros Hs; cbn [insertBy].
  - reflexivity.
  - destruct (compareRanks o x y <? 0) eqn:E.
    + apply compareRanks_negative in E.
      rewrite (ranked_cons k x (y :: l)), (ranked_cons k x []).
      destruct (Z.eqb_spec (rankIn o x) k) as [Hx|Hx].
      * rewrite (above_rank_none k y l); [reflexivity | lia | exact Hs].
      * change (ranked o k []) with (@nil Token). cbn [app].
        rewrite app_nil_r. reflexivity.
    + inversion Hs as [|? ? Hl _]; subst.
      rewrite (ranked_cons k y (insertBy _ x l)), (IH Hl), (ranked_cons k y l).
      rewrite app_assoc. reflexivity.
Qed.

Lemma sort_ranked k l :
  ranked o k (sort (compareRanks o) l) = ranked o k l.
Proof.
  unfold sort.
  assert (G : forall acc,
             Sorted le acc ->
             ranked o k (fold_left (fun acc x => insertBy (compareRanks o) x acc)
                                   l acc)
             = (ranked o k acc ++ ranked o k l)%list).
  { induction l as [|x l IH]; intros acc Hacc; cbn [fold_left].
    - unfold ranked at 3. cbn [filter]. rewrite app_nil_r. reflexivity.
    - rewrite IH.
      + rewrite (insertBy_ranked k x acc Hacc), <- app_assoc. f_equal.
        rewrite (ranked_cons k x l), (ranked_cons k x []).
        change (ranked o k []) with (@nil Token). rewrite app_nil_r.
        reflexivity.
      + apply SortFacts.insertBy_sorted; [| |exact Hacc].
        * intros u w H. apply compareRanks_negative in H. unfold le. lia.
        * intros u w H. unfold le.
          destruct (Z.lt_ge_cases (rankIn o u) (rankIn o w)) as [Hlt|Hge];
            [|exact Hge].
          apply compareRanks_negative in Hlt. congruence. }
  apply (G []). constructor.
Qed.

End Ranks.

(** X14.  The fix of [orderAttribute] on an element without comments,
    once the applied order is memoized (as it is when the check calls it):
    the call returns, leaves the element as it was, logs nothing and
    requests one replacement, by the node [replaceNode] builds from the
    attributes and modifiers of the element sorted by the rank of their
    token type.  The sort is stable: ranks never decrease along the
    sorted tokens, and the tokens of each rank are in the order they had
    in the element, attributes before modifiers; their positions play no
    part. *)
Theorem orderAttribute_sorts_by_rank_stably
  (t : TokenType) (node : ElementNode) (r : Rule)
  (o : list TokenType) (tgs : TokenGroups) :
  mode r = FixMode ->
  appliedOrder r = Some o ->
  tokenGroups r = Some tgs ->
  comments node = [] ->
  exists sorted r',
    orderAttribute t node r = Return (node, r')
    /\ replaced r' = (replaced r ++ [rebuilt node sorted])%list
    /\ logged r' = logged r
    /\ Permutation sorted (attributes node ++ modifiers node)
    /\ Sorted (fun a c => rankIn o a <= rankIn o c) sorted
    /\ forall k,
        ranked o k sorted = ranked o k (attributes node ++ modifiers node).
Proof.
  intros Hm Hmemo Ht Hc.
  exists (sort (compareRanks o) (attributes node ++ modifiers node)).
  unfold orderAttribute, bind at 1. rewrite (getTokenGroups_some r tgs Ht).
  cbv zeta. unfold bind at 1. cbn [this]. rewrite Hm.
  unfold bind at 1.
  rewrite (sortM_pure compareOrder (compareRanks o) r _
             (fun u w => compareOrder_memo r o u w Hmemo)).
  rewrite Hc. unfold bind, ret, replaceNode, replaceNode_helper. cbn [fst snd].
  eexists. split; [reflexivity|]. cbn [replaced logged].
  split; [reflexivity|]. split; [reflexivity|].
  split; [apply SortFacts.sort_perm|].
  split; [apply (sort_by_rank o) | intros k; apply sort_ranked].
Qed.

End OrderFacts.

(** ** The node [replaceNode] builds *)

Module LayoutFacts.
Import Js AttributeOrder Spec Derived.

Lemma getTokenType_rebuildAt ln start t :
  getTokenType (rebuildAt ln start t) = getTokenType t.
Proof.
  unfold rebuildAt, category, getTokenType, makeToken, copy_format.
  destruct (type_includes_Comment (type t)) eqn:Hc.
  - cbn [getTokenCategory]. destruct (type t); try discriminate; reflexivity.
  - destruct (str_truthy (name t)) eqn:Hn; cbn [negb].
    + destruct (name t) as [n|] eqn:Hname; [|discriminate].
      destruct (startsWith n "@") eqn:H1;
        [|destruct (startsWith n "...") eqn:H2];
        cbn [getTokenCategory b.attr type NodeType_eqb name type_includes_Comment];
        rewrite Hn; cbn [negb]; rewrite H1, ?H2; reflexivity.
    + reflexivity.
Qed.

Lemma category_rebuildAt ln start t : category (rebuildAt ln start t) = category t.
Proof. unfold category. rewrite getTokenType_rebuildAt. reflexivity. Qed.

Lemma loc_rebuildAt ln start t :
  loc (rebuildAt ln start t) = b.loc ln start ln (start + width t).
Proof.
  unfold rebuildAt, makeToken, copy_format.
  destruct (category t); try reflexivity.
  destruct (type t); reflexivity.
Qed.

Lemma rebuilt_token_rebuildAt ln start t : rebuilt_token ln t (rebuildAt ln start t).
Proof.
  unfold rebuilt_token.
  split; [apply getTokenType_rebuildAt|].
  split; [unfold width at 1; rewrite loc_rebuildAt; cbn; lia|].
  split; [rewrite loc_rebuildAt; reflexivity|].
  split; [rewrite loc_rebuildAt; reflexivity|].
  unfold rebuildAt, makeToken, copy_format.
  destruct (category t); cbn; try (split; [reflexivity|]); repeat split;
    destruct (type t); reflexivity.
Qed.

Section Rebuilt.

Variable node : ElementNode.

Let ln : Z := line (loc_start (el_loc node)).
Let minColumn : Z := Z.of_nat (String.length (tag node)) + 2.

Lemma place_rebuildAt acc t :
  place node minColumn acc t
  = {| placed := push (placed acc) (category t)
                      (rebuildAt ln (startFor minColumn (cursor acc)) t);
       cursor := Some (startFor minColumn (cursor acc) + width t + 2) |}.
Proof.
  unfold place, rebuildAt, category, startFor, width. cbv zeta.
  fold ln.
  set (start := match cursor acc with
                | Some c => if c =? 0 then minColumn else c
                | None => minColumn
                end).
  replace (start + column (loc_end (loc t)) - column (loc_start (loc t)))
    with (start + (column (loc_end (loc t)) - column (loc_start (loc t))))
    by lia.
  reflexivity.
Qed.

Lemma placed_items c sorted : forall acc,
  items (group (placed (fold_left (place node minColumn) sorted acc)) c)
  = (items (group (placed acc) c)
     ++ filter (has_category c) (laid_out ln minColumn (cursor acc) sorted))%list.
Proof.
  induction sorted as [|t sorted IH]; intros acc; cbn [fold_left laid_out filter].
  - rewrite app_nil_r. reflexivity.
  - rewrite IH, place_rebuildAt. cbn [placed cursor].
    rewrite GroupFacts.push_items. unfold has_category at 2.
    rewrite category_rebuildAt, <- app_assoc.
    destruct (TokenType_eqb (category t) c); reflexivity.
Qed.

Lemma laid_out_rebuilt sorted : forall cur,
  Forall2 (rebuilt_token ln) sorted (laid_out ln minColumn cur sorted).
Proof.
  induction sorted as [|t sorted IH]; intros cur; cbn [laid_out]; constructor.
  - apply rebuilt_token_rebuildAt.
  - apply IH.
Qed.

Lemma laid_out_spaced sorted : forall cur,
  Forall (fun t => 0 <= width t) sorted ->
  0 < startFor minColumn cur ->
  spaced (startFor minColumn cur) (laid_out ln minColumn cur sorted).
Proof.
  induction sorted as [|t sorted IH]; intros cur Hw Hpos; cbn [laid_out spaced];
    [exact I|].
  inversion Hw as [|? ? Ht Hrest]; subst.
  unfold startColumn, endColumn. rewrite loc_rebuildAt. cbn [b.loc loc_start
    loc_end column].
  split; [reflexivity|].
  set (start := startFor minColumn cur) in *.
  assert (E : start + width t + 2
              = startFor minColumn (Some (start + width t + 2))).
  { unfold startFor. destruct (Z.eqb_spec (start + width t + 2) 0); [lia|].
    reflexivity. }
  pose proof (IH (Some (start + width t + 2)) Hrest) as IH'.
  rewrite <- E in IH'. apply IH'. lia.
Qed.

Lemma rebuilt_parts (sorted : list Token) :
  exists out,
    Forall2 (rebuilt_token ln) sorted out
    /\ out = laid_out ln minColumn None sorted
    /\ attributes (rebuilt node sorted) = filter (has_category ATTRIBUTES) out
    /\ modifiers (rebuilt node sorted) = filter (has_category MODIFIERS) out
    /\ comments (rebuilt node sorted) = filter (has_category COMMENTS) out.
Proof.
  exists (laid_out ln minColumn None sorted).
  split; [apply laid_out_rebuilt|]. split; [reflexivity|].
  unfold rebuilt. cbv zeta. cbn [b.element attributes modifiers comments].
  fold minColumn.
  pose proof (placed_items ATTRIBUTES sorted {| placed := no_tokens; cursor := None |})
    as HA.
  pose proof (placed_items MODIFIERS sorted {| placed := no_tokens; cursor := None |})
    as HM.
  pose proof (placed_items COMMENTS sorted {| placed := no_tokens; cursor := None |})
    as HC.
  cbn [group items placed cursor no_tokens app] in HA, HM, HC.
  split; [exact HA|]. split; [exact HM | exact HC].
Qed.

(** X15.  The node [replaceNode] builds from the tokens [sorted]: there
    is one built token for each token of [sorted], in the same order, with
    the token type, the width and the data of its token, on the line on
    which the element starts; the attributes, the modifiers and the
    comments of the new node are the built tokens of these categories, in
    that order.  When no token ends before it starts, the first built
    token starts two columns after the tag name would end, and each
    other one two columns after the end of the one before it. *)
Theorem rebuilt_layout (sorted : list Token) :
  exists out,
    Forall2 (rebuilt_token ln) sorted out
    /\ attributes (rebuilt node sorted) = filter (has_category ATTRIBUTES) out
    /\ modifiers (rebuilt node sorted) = filter (has_category MODIFIERS) out
    /\ comments (rebuilt node sorted) = filter (has_category COMMENTS) out
    /\ (Forall (fun t => 0 <= width t) sorted -> spaced minColumn out).
Proof.
  destruct (rebuilt_parts sorted) as (out & Hout & Hlaid & HA & HM & HC).
  exists out. split; [exact Hout|]. split; [exact HA|]. split; [exact HM|].
  split; [exact HC|].
  intros Hw. rewrite Hlaid. apply (laid_out_spaced sorted None Hw).
  unfold startFor, minColumn. lia.
Qed.

End Rebuilt.

End LayoutFacts.

(** ** The fix of the alphabetical order *)

Module AlphabetizeFacts.
Import Js AttributeOrder Spec Derived UnorderedFacts FixFacts.

Lemma insertByM_pure_at {A : Type} (cmp : A -> A -> M Z) (f : A -> A -> Z) r x l :
  (forall w, cmp x w r = Return (f x w, r)) ->
  insertByM cmp x l r = Return (insertBy f x l, r).
Proof.
  intros Hc. induction l as [|y l IH]; cbn [insertByM insertBy]; [reflexivity|].
  unfold bind at 1. rewrite Hc. destruct (f x y <? 0); [reflexivity|].
  unfold bind. rewrite IH. reflexivity.
Qed.

Lemma sortM_pure_in {A : Type} (cmp : A -> A -> M Z) (f : A -> A -> Z) r l :
  (forall u w, In u l -> cmp u w r = Return (f u w, r)) ->
  sortM cmp l r = Return (sort f l, r).
Proof.
  unfold sortM, sort. generalize (@nil A) as acc.
  induction l as [|x l IH]; intros acc Hc; cbn [sortM_from fold_left];
    [reflexivity|].
  unfold bind.
  rewrite (insertByM_pure_at cmp f r x acc (fun w => Hc x w (or_introl eq_refl))).
  apply IH. intros u w Hu. apply Hc. right. exact Hu.
Qed.

Lemma compareAttributeNames_plain a c r :
  name a <> Some "...attributes"%string ->
  compareAttributeNames a c r = Return (compareNames a c, r).
Proof.
  intros Hn. unfold compareAttributeNames, compareNames.
  assert (E : option_string_eqb (name a) (Some "...attributes"%string) = false).
  { destruct (name a) as [n|]; [|reflexivity]. cbn [option_string_eqb].
    apply String.eqb_neq. congruence. }
  rewrite E. destruct (str_gt (name a) (name c)); reflexivity.
Qed.

Lemma Forall2_filter_rebuilt ln c l : forall out,
  Forall2 (rebuilt_token ln) l out ->
  Forall2 (rebuilt_token ln) (filter (has_category c) l)
          (filter (has_category c) out).
Proof.
  induction l as [|t l IH]; intros out H; inversion H as [|? t' ? out' Ht Hl];
    subst; cbn [filter]; [constructor|].
  assert (E : has_category c t' = has_category c t).
  { unfold has_category, category. destruct Ht as (-> & _). reflexivity. }
  rewrite E. destruct (has_category c t); [constructor; [exact Ht|]|]; apply IH, Hl.
Qed.

Lemma rebuilt_attribute_data ln l : forall out,
  Forall2 (rebuilt_token ln) l out ->
  Forall (fun t => category t = ATTRIBUTES) l ->
  map name out = map name l /\ map value out = map value l.
Proof.
  induction l as [|t l IH]; intros out H Hc; inversion H as [|? t' ? out' Ht Hl];
    subst; [split; reflexivity|].
  inversion Hc as [|? ? Hct Hcl]; subst.
  destruct (IH out' Hl Hcl) as [E1 E2].
  destruct Ht as (_ & _ & _ & _ & _ & Hd). rewrite Hct in Hd.
  destruct Hd as (N & V & _).
  cbn [map]. rewrite N, V, E1, E2. split; reflexivity.
Qed.

Lemma rebuilt_modifier_data ln l : forall out,
  Forall2 (rebuilt_token ln) l out ->
  Forall (fun t => category t = MODIFIERS) l ->
  map path out = map path l /\ map params out = map params l.
Proof.
  induction l as [|t l IH]; intros out H Hc; inversion H as [|? t' ? out' Ht Hl];
    subst; [split; reflexivity|].
  inversion Hc as [|? ? Hct Hcl]; subst.
  destruct (IH out' Hl Hcl) as [E1 E2].
  destruct Ht as (_ & _ & _ & _ & _ & Hd). rewrite Hct in Hd.
  destruct Hd as (N & V).
  cbn [map]. rewrite N, V, E1, E2. split; reflexivity.
Qed.

Lemma category_built_attr t :
  named_attribute t -> category (b.attr (name t) (value t) None) = ATTRIBUTES.
Proof.
  intros [_ Hn]. unfold category, getTokenType.
  cbn [b.attr type name type_includes_Comment]. rewrite Hn. cbn [negb].
  destruct (name t) as [n|]; [|discriminate].
  destruct (startsWith n "@"); [reflexivity|].
  destruct (startsWith n "..."); reflexivity.
Qed.

Lemma category_built_modifier t :
  category (b.elementModifier (path t) (params t) None) = MODIFIERS.
Proof. reflexivity. Qed.

Lemma filter_category_app c (l1 l2 : list Token) :
  Forall (fun t => category t = c) l1 ->
  Forall (fun t => category t <> c) l2 ->
  filter (has_category c) (l1 ++ l2) = l1.
Proof.
  intros H1 H2. rewrite filter_app.
  rewrite (GroupFacts.filter_all (has_category c) l1).
  - rewrite (GroupFacts.filter_none (has_category c) l2); [apply app_nil_r|].
    intros x Hx. rewrite Forall_forall in H2. specialize (H2 x Hx).
    unfold has_category. destruct (category x), c; try reflexivity; congruence.
  - intros x Hx. rewrite Forall_forall in H1. specialize (H1 x Hx).
    unfold has_category. rewrite H1. destruct c; reflexivity.
Qed.

Lemma filter_category_app_r c (l1 l2 : list Token) :
  Forall (fun t => category t <> c) l1 ->
  Forall (fun t => category t = c) l2 ->
  filter (has_category c) (l1 ++ l2) = l2.
Proof.
  intros H1 H2. rewrite filter_app.
  rewrite (GroupFacts.filter_all (has_category c) l2).
  - rewrite (GroupFacts.filter_none (has_category c) l1); [reflexivity|].
    intros x Hx. rewrite Forall_forall in H1. specialize (H1 x Hx).
    unfold has_category. destruct (category x), c; try reflexivity; congruence.
  - intros x Hx. rewrite Forall_forall in H2. specialize (H2 x Hx).
    unfold has_category. rewrite H2. destruct c; reflexivity.
Qed.

(** X16.  The fix of [alphabetizeAttribute] on an element without
    comments whose attributes have names and none of which is the spread
    [...attributes], when a token of the group is not alphabetized: the
    call returns and logs nothing.  It sorts the attributes of the element
    by name and its modifiers by path in place, arguments and attributes
    together and whatever the configured order: the element comes back with
    the attributes and modifiers it had, no name greater than the next name
    and no path greater than the next path.  It requests the same
    replacement twice: a node whose attributes have the names and values of
    the sorted attributes and whose modifiers have the paths and parameters
    of the sorted modifiers, without comments. *)
Theorem alphabetizeAttribute_sorts_by_name
  (t : TokenType) (node : ElementNode) (r : Rule) (tgs : TokenGroups)
  (item : Token) :
  mode r = FixMode ->
  tokenGroups r = Some tgs ->
  findUnalphabetizedToken (group tgs t) = Some item ->
  comments node = [] ->
  Forall plainly_named (attributes node) ->
  exists node' r' new,
    alphabetizeAttribute t node r = Return (node', r')
    /\ replaced r' = (replaced r ++ [new; new])%list
    /\ logged r' = logged r
    /\ same_frame node node' /\ comments node' = []
    /\ Permutation (attributes node') (attributes node)
    /\ ordered_by name (attributes node')
    /\ Permutation (modifiers node') (modifiers node)
    /\ ordered_by path (modifiers node')
    /\ map name (attributes new) = map name (attributes node')
    /\ map value (attributes new) = map value (attributes node')
    /\ map path (modifiers new) = map path (modifiers node')
    /\ map params (modifiers new) = map params (modifiers node')
    /\ comments new = [].
Proof.
  intros Hm Ht Hitem Hc Hattrs.
  destruct r as [cfg md memo tg lg rp].
  cbn [mode tokenGroups replaced logged] in *. subst md tg.
  set (r := {| config := cfg; mode := FixMode; appliedOrder := memo;
               tokenGroups := Some tgs; logged := lg; replaced := rp |}).
  set (sortedAttributes := sort compareNames (attributes node)).
  set (sortedModifiers := sort compareModifierPaths (modifiers node)).
  set (node1 := with_modifiers (with_attributes node sortedAttributes)
                               sortedModifiers).
  set (attrs := map (fun attr => b.attr (name attr) (value attr) None)
                    sortedAttributes).
  set (mods := map (fun m => b.elementModifier (path m) (params m) None)
                   sortedModifiers).
  assert (Hperm : Permutation sortedAttributes (attributes node))
    by apply SortFacts.sort_perm.
  assert (Hnamed : Forall named_attribute sortedAttributes).
  { rewrite Forall_forall in *. intros x Hx.
    apply (Permutation_in _ Hperm) in Hx. apply Hattrs, Hx. }
  exists node1, {| config := cfg; mode := FixMode;
                   appliedOrder := memo; tokenGroups := Some tgs;
                   logged := lg;
                   replaced := (rp ++ [rebuilt node1 (attrs ++ mods ++ [])])
                               ++ [rebuilt node1 (attrs ++ mods ++ [])] |},
    (rebuilt node1 (attrs ++ mods ++ [])).
  split.
  { unfold alphabetizeAttribute, bind at 1.
    rewrite (getTokenGroups_some r tgs eq_refl).
    rewrite Hitem. unfold bind at 1. cbn [this mode r].
    unfold bind at 1.
    rewrite (sortM_pure_in compareAttributeNames compareNames r (attributes node)).
    2:{ intros u w Hu. apply compareAttributeNames_plain.
        rewrite Forall_forall in Hattrs. apply (Hattrs u Hu). }
    cbv zeta. cbn [b.element attributes modifiers comments with_modifiers
                   with_attributes].
    rewrite Hc. unfold bind, ret, replaceNode, replaceNode_helper.
    cbn [fst snd config mode appliedOrder tokenGroups logged replaced].
    reflexivity. }
  cbn [replaced logged]. split; [rewrite <- app_assoc; reflexivity|].
  split; [reflexivity|]. split; [repeat split|].
  split; [exact Hc|]. split; [exact Hperm|].
  split; [apply (SortFacts.sort_ordered_by name)|].
  split; [apply SortFacts.sort_perm|].
  split; [apply (SortFacts.sort_ordered_by path)|].
  destruct (LayoutFacts.rebuilt_parts node1 (attrs ++ mods ++ []))
    as (out & Hout & _ & HA & HM & HC).
  cbv zeta in Hout.
  assert (CA : Forall (fun x => category x = ATTRIBUTES) attrs).
  { subst attrs. apply Forall_map. eapply Forall_impl; [|exact Hnamed].
    intros x Hx. apply category_built_attr, Hx. }
  assert (CM : Forall (fun x => category x = MODIFIERS) (mods ++ [])).
  { rewrite app_nil_r. subst mods. apply Forall_map, Forall_forall.
    intros x _. reflexivity. }
  pose proof (Forall2_filter_rebuilt _ ATTRIBUTES _ _ Hout) as FA.
  pose proof (Forall2_filter_rebuilt _ MODIFIERS _ _ Hout) as FM.
  pose proof (Forall2_filter_rebuilt _ COMMENTS _ _ Hout) as FC.
  rewrite <- HA in FA. rewrite <- HM in FM. rewrite <- HC in FC.
  rewrite (filter_category_app ATTRIBUTES attrs (mods ++ [])) in FA;
    [|exact CA | eapply Forall_impl; [|exact CM]; intros x ->; discriminate].
  rewrite (filter_category_app_r MODIFIERS attrs (mods ++ [])) in FM;
    [|eapply Forall_impl; [|exact CA]; intros x ->; discriminate | exact CM].
  rewrite (GroupFacts.filter_none (has_category COMMENTS)) in FC.
  2:{ intros x Hx. apply in_app_or in Hx. unfold has_category.
      rewrite Forall_forall in CA, CM.
      destruct Hx as [Hx|Hx]; [rewrite (CA x Hx) | rewrite (CM x Hx)];
        reflexivity. }
  destruct (rebuilt_attribute_data _ _ _ FA CA) as [N V].
  destruct (rebuilt_modifier_data _ _ _ FM CM) as [P Q].
  cbn [attributes modifiers node1 with_modifiers with_attributes].
  split; [rewrite N; subst attrs; rewrite map_map; reflexivity|].
  split; [rewrite V; subst attrs; rewrite map_map; reflexivity|].
  split; [rewrite P, app_nil_r; subst mods; rewrite map_map; reflexivity|].
  split; [rewrite Q, app_nil_r; subst mods; rewrite map_map; reflexivity|].
  destruct (comments (rebuilt node1 (attrs ++ mods ++ []))) as [|c cs];
    [reflexivity | inversion FC].
Qed.

End AlphabetizeFacts.

(** ** Comments in the fix *)

Module CommentFacts.
Import Js AttributeOrder Spec Derived FixFacts.







End CommentFacts.

(** ** Lookups among the tokens *)

Module LookupFacts.
Import Js AttributeOrder Spec Derived.

Lemma find_first {A : Type} (p : A -> bool) l x :
  find p l = Some x ->
  exists pre post,
    l = (pre ++ x :: post)%list /\ p x = true
    /\ Forall (fun y => p y = false) pre.
Proof.
  induction l as [|y l IH]; cbn [find]; [discriminate|].
  destruct (p y) eqn:E.
  - intros [= ->]. exists [], l. split; [reflexivity|]. split; [exact E | constructor].
  - intros H. destruct (IH H) as (pre & post & -> & Hx & Hpre).
    exists (y :: pre), post. split; [reflexivity|]. split; [exact Hx|].
    constructor; assumption.
Qed.

Lemma find_none_all {A : Type} (p : A -> bool) l :
  find p l = None -> Forall (fun y => p y = false) l.
Proof.
  intros H. apply Forall_forall. intros y Hy. exact (find_none p l H y Hy).
Qed.

Lemma option_string_eqb_eq a c : option_string_eqb a c = true <-> a = c.
Proof.
  destruct a as [x|], c as [y|]; cbn [option_string_eqb]; split; intros H;
    try discriminate; try reflexivity.
  - apply String.eqb_eq in H. congruence.
  - injection H as ->. apply String.eqb_refl.
Qed.

Lemma NodeType_eqb_eq a c : NodeType_eqb a c = true <-> a = c.
Proof. destruct a, c; cbn; split; intros H; congruence. Qed.

Lemma answers_iff wanted t :
  NodeType_eqb (type t) (type wanted)
  && ((str_truthy (name t) && option_string_eqb (name t) (name wanted))
      || option_string_eqb (value t) (value wanted)) = true
  <-> answers wanted t.
Proof.
  unfold answers.
  rewrite andb_true_iff, orb_true_iff, andb_true_iff, NodeType_eqb_eq,
    !option_string_eqb_eq.
  reflexivity.
Qed.

(** X18.  The two lookups give the first match.  [findUnorderedToken] of
    a group without tokens is undefined; otherwise it is the first token of
    the group whose index is the greatest index of the group.  For a
    comment, [getNode] is the first token of the groups, in the order of
    the token types, with the type of the comment and either its name (when
    not empty) or its text, and undefined when there is none; it is defined
    for every comment of the groups, and it is that comment itself when no
    token before it answers the lookup: of two comments of one type with
    the same text, the lookup of either gives the first. *)
Theorem lookups_give_the_first_match :
  (forall g,
      match items g with
      | [] => findUnorderedToken g = None
      | _ :: _ =>
          exists pre it post,
            items g = (pre ++ it :: post)%list
            /\ findUnorderedToken g = Some it
            /\ lastIndex g = Some (calculateAttributeIndex it)
            /\ Forall (fun x => calculateAttributeIndex x
                                < calculateAttributeIndex it) pre
            /\ Forall (fun x => calculateAttributeIndex x
                                <= calculateAttributeIndex it) post
      end)
  /\ (forall tgs wanted,
        type_includes_Comment (type wanted) = true ->
        match getNode tgs wanted with
        | None =>
            Forall (fun t => ~ answers wanted t) (flat_map items (values tgs))
        | Some token =>
            exists pre post,
              flat_map items (values tgs) = (pre ++ token :: post)%list
              /\ answers wanted token
              /\ Forall (fun t => ~ answers wanted t) pre
        end)
  /\ (forall tgs pre token post,
        type_includes_Comment (type token) = true ->
        flat_map items (values tgs) = (pre ++ token :: post)%list ->
        exists found,
          getNode tgs token = Some found
          /\ (Forall (fun t => ~ answers token t) pre -> found = token))
  /\ (forall tgs pre first mid second post,
        type_includes_Comment (type second) = true ->
        flat_map items (values tgs)
        = (pre ++ first :: mid ++ second :: post)%list ->
        type first = type second ->
        value first = value second ->
        Forall (fun t => ~ answers second t) pre ->
        getNode tgs second = Some first).
Proof.
  split; [|split; [|split]].
  - intros g. unfold findUnorderedToken.
    destruct (items g) as [|tok rest] eqn:Hitems.
    + reflexivity.
    + destruct (TotalityFacts.findUnorderedToken_some g) as (it & Hit).
      { unfold exists_. rewrite Hitems. reflexivity. }
      unfold findUnorderedToken in Hit. rewrite Hitems in Hit.
      destruct (find_first _ _ _ Hit) as (pre & post & E & Hp & Hpre).
      destruct (lastIndex g) as [hi|] eqn:Hhi;
        [|cbn [of_index option_map strict_eq] in Hp; discriminate].
      cbn [of_index option_map strict_eq num_eqb] in Hp, Hpre.
      apply Z.eqb_eq in Hp.
      pose proof (GroupFacts.index_upper g hi Hhi) as Hup.
      exists pre, it, post. split; [exact E|]. split; [exact Hit|].
      split; [congruence|]. rewrite Hitems, E in Hup.
      apply Forall_app in Hup. destruct Hup as [Hup1 Hup2].
      inversion Hup2 as [|? ? _ Hup3]; subst. split.
      * rewrite Forall_forall in Hup1, Hpre |- *. intros x Hx.
        specialize (Hup1 x Hx). specialize (Hpre x Hx). cbv beta in Hpre.
        apply Z.eqb_neq in Hpre. lia.
      * exact Hup3.
  - intros tgs wanted _. unfold getNode.
    destruct (find _ _) as [token|] eqn:Hf.
    + destruct (find_first _ _ _ Hf) as (pre & post & E & Hp & Hpre).
      exists pre, post. split; [exact E|]. split; [apply answers_iff, Hp|].
      eapply Forall_impl; [|exact Hpre]. cbv beta. intros t Ht Ha.
      apply answers_iff in Ha. congruence.
    + apply find_none_all in Hf. eapply Forall_impl; [|exact Hf].
      cbv beta. intros t Ht Ha. apply answers_iff in Ha. congruence.
  - intros tgs pre token post _ E. unfold getNode.
    assert (Hself : answers token token) by (split; [reflexivity | right; reflexivity]).
    destruct (find _ _) as [found|] eqn:Hf.
    + exists found. split; [reflexivity|]. intros Hpre.
      destruct (find_first _ _ _ Hf) as (pre' & post' & E' & Hp & Hpre').
      rewrite E in E'.
      assert (Hno : Forall (fun t =>
                    NodeType_eqb (type t) (type token)
                    && ((str_truthy (name t)
                         && option_string_eqb (name t) (name token))
                        || option_string_eqb (value t) (value token)) = false)
                           pre).
      { eapply Forall_impl; [|exact Hpre]. cbv beta. intros t Ht.
        apply not_true_is_false. intros Et. apply Ht, answers_iff, Et. }
      apply answers_iff in Hself.
      exact (GroupFacts.first_match_unique _ _ _ _ _ _ _ E' Hno Hself Hpre' Hp).
    + exfalso. apply find_none_all in Hf. rewrite E in Hf.
      apply Forall_app in Hf. destruct Hf as [_ Hf].
      inversion Hf as [|? ? Ht _]; subst.
      apply answers_iff in Hself. congruence.
  - intros tgs pre first mid second post _ E Hty Hval Hpre. unfold getNode.
    assert (Hfirst : answers second first) by (split; [exact Hty | right; exact Hval]).
    destruct (find _ _) as [found|] eqn:Hf.
    + destruct (find_first _ _ _ Hf) as (pre' & post' & E' & Hp & Hpre').
      rewrite E in E'.
      assert (Hno : Forall (fun t =>
                    NodeType_eqb (type t) (type second)
                    && ((str_truthy (name t)
                         && option_string_eqb (name t) (name second))
                        || option_string_eqb (value t) (value second)) = false)
                           pre).
      { eapply Forall_impl; [|exact Hpre]. cbv beta. intros t Ht.
        apply not_true_is_false. intros Et. apply Ht, answers_iff, Et. }
      apply answers_iff in Hfirst. f_equal.
      exact (GroupFacts.first_match_unique _ _ _ _ _ _ _ E' Hno Hfirst Hpre' Hp).
    + exfalso. apply find_none_all in Hf. rewrite E in Hf.
      apply Forall_app in Hf. destruct Hf as [_ Hf].
      inversion Hf as [|? ? Ht _]; subst.
      apply answers_iff in Hfirst. congruence.
Qed.

End LookupFacts.

(** ** The state and the node after the check *)

Module CheckFacts.
Import Js AttributeOrder Spec Derived UnorderedFacts FixFacts.

Lemma insertByM_perm {A : Type} (cmp : A -> A -> M Z) x l : forall r v r',
  insertByM cmp x l r = Return (v, r') -> Permutation v (x :: l).
Proof.
  induction l as [|y l IH]; intros r v r' H; cbn [insertByM] in H.
  - apply ret_inv in H. destruct H as [-> _]. apply Permutation_refl.
  - minv H as c r1 Hc. destruct (c <? 0).
    + apply ret_inv in H. destruct H as [-> _]. apply Permutation_refl.
    + minv H as rest r2 Hrest. apply ret_inv in H. destruct H as [-> _].
      eapply perm_trans; [apply perm_skip, (IH _ _ _ Hrest) | apply perm_swap].
Qed.

Lemma sortM_perm {A : Type} (cmp : A -> A -> M Z) l r v r' :
  sortM cmp l r = Return (v, r') -> Permutation v l.
Proof.
  unfold sortM.
  assert (G : forall acc r v r',
             sortM_from cmp acc l r = Return (v, r') ->
             Permutation v (acc ++ l)).
  { induction l as [|x l IH]; intros acc r0 v0 r0' H; cbn [sortM_from] in H.
    - apply ret_inv in H. destruct H as [-> _]. rewrite app_nil_r.
      apply Permutation_refl.
    - minv H as acc' r1 Hins.
      eapply perm_trans; [apply (IH _ _ _ _ H)|].
      eapply perm_trans;
        [apply Permutation_app_tail, (insertByM_perm _ _ _ _ _ _ Hins)|].
      cbn [app]. apply Permutation_middle. }
  intros H. exact (G [] r v r' H).
Qed.

Lemma same_tokens_refl node : same_tokens node node.
Proof.
  split; [apply Permutation_refl|]. split; [apply Permutation_refl|].
  left. reflexivity.
Qed.

Lemma same_tokens_trans n1 n2 n3 :
  same_tokens n1 n2 -> same_tokens n2 n3 -> same_tokens n1 n3.
Proof.
  intros (A1 & A2 & A3) (B1 & B2 & B3). split; [|split].
  - exact (perm_trans B1 A1).
  - exact (perm_trans B2 A2).
  - destruct B3 as [B3|B3]; [|right; exact B3].
    destruct A3 as [A3|A3]; [left | right]; congruence.
Qed.

Lemma after_comments_tokens node sorted r v r' :
  match comments node with
  | [] => ret (node, sorted)
  | _ :: _ => orderComment node sorted
  end r = Return (v, r') ->
  same_tokens node (fst v).
Proof.
  destruct (comments node) as [|c cs] eqn:Hc; intros H.
  - apply ret_inv in H. destruct H as [-> _]. apply same_tokens_refl.
  - apply orderComment_frame in H. destruct H as [_ ->].
    split; [apply Permutation_refl|]. split; [apply Permutation_refl|].
    right. reflexivity.
Qed.

Lemma alphabetizeAttribute_tokens t node r node' r' :
  alphabetizeAttribute t node r = Return (node', r') -> same_tokens node node'.
Proof.
  unfold alphabetizeAttribute. intros H. minv H as tgs r0 Hg.
  destruct (findUnalphabetizedToken _) as [item|].
  2:{ apply ret_inv in H. destruct H as [-> _]. apply same_tokens_refl. }
  minv H as rr r1 Hthis.
  destruct (mode rr).
  - minv H as sortedAttributes r2 Hsort. cbv zeta in H.
    minv H as u1 r3 H1. minv H as after r4 Hafter. minv H as u2 r5 H2.
    apply ret_inv in H. destruct H as [-> _].
    apply sortM_perm in Hsort.
    apply after_comments_tokens in Hafter.
    eapply same_tokens_trans; [|exact Hafter].
    split; [exact Hsort|]. split; [apply SortFacts.sort_perm|].
    left. reflexivity.
  - minv H as msg r2 Hmsg. minv H as u r3 Hlog.
    apply ret_inv in H. destruct H as [-> _]. apply same_tokens_refl.
Qed.

Lemma orderAttribute_tokens t node r node' r' :
  orderAttribute t node r = Return (node', r') -> same_tokens node node'.
Proof.
  unfold orderAttribute. intros H. minv H as tgs r0 Hg. cbv zeta in H.
  minv H as rr r1 Hthis.
  destruct (mode rr).
  - minv H as sorted r2 Hsort. minv H as after r3 Hafter. minv H as u r4 Hrep.
    apply ret_inv in H. destruct H as [-> _].
    exact (after_comments_tokens _ _ _ _ _ Hafter).
  - destruct (findUnorderedToken _); [|discriminate].
    minv H as msg r2 Hmsg. minv H as u r3 Hlog.
    apply ret_inv in H. destruct H as [-> _]. apply same_tokens_refl.
Qed.

Lemma checkTokenType_tokens t node r node' r' :
  checkTokenType t node r = Return (node', r') -> same_tokens node node'.
Proof.
  unfold checkTokenType. intros H. minv H as tgs r0 Hg.
  minv H as rr r1 Hthis. cbv zeta in H.
  minv H as node1 r2 Halpha. minv H as unordered r3 Hun.
  assert (K1 : same_tokens node node1).
  { destruct (_ && _ && _).
    - exact (alphabetizeAttribute_tokens _ _ _ _ _ Halpha).
    - apply ret_inv in Halpha. destruct Halpha as [-> _]. apply same_tokens_refl. }
  apply (same_tokens_trans _ _ _ K1).
  destruct unordered.
  - exact (orderAttribute_tokens _ _ _ _ _ H).
  - apply ret_inv in H. destruct H as [-> _]. apply same_tokens_refl.
Qed.

Lemma forEachTokenType_tokens types : forall node r node' r',
  forEachTokenType types node r = Return (node', r') -> same_tokens node node'.
Proof.
  induction types as [|t types IH]; intros node r node' r' H;
    cbn [forEachTokenType] in H.
  - apply ret_inv in H. destruct H as [-> _]. apply same_tokens_refl.
  - minv H as node1 r1 H1.
    exact (same_tokens_trans _ _ _ (checkTokenType_tokens _ _ _ _ _ H1)
                             (IH _ _ _ _ H)).
Qed.

(** X19.  What the check of an element leaves behind when it returns.
    The configuration and the mode of the rule are as before.  An element
    without source text is not looked at: the rule and the element are as
    they were.  Otherwise the token groups of the rule are those made of
    the element as it was given, also after a fix that has sorted its
    tokens: they are never made again.  The element itself keeps its tag,
    its children, its location and its source text, has the attributes and
    the modifiers it had, possibly in another order, and either the
    comments it had or none. *)
Theorem element_check_state (node : ElementNode) (r : Rule)
  (node' : ElementNode) (r' : Rule) :
  checkElementAttributesOrder node r = Return (node', r') ->
  config r' = config r /\ mode r' = mode r
  /\ (el_source node = ""%string -> r' = r /\ node' = node)
  /\ (el_source node <> ""%string ->
      tokenGroups r' = Some (groupTokens (getElementNodeTokens node)))
  /\ same_frame node node' /\ same_tokens node node'.
Proof.
  unfold checkElementAttributesOrder. intros H.
  destruct (String.eqb_spec (el_source node) "") as [Hs|Hs].
  { apply ret_inv in H. destruct H as [-> ->].
    split; [reflexivity|]. split; [reflexivity|].
    split; [intros _; split; reflexivity|]. split; [intros Hn; contradiction|].
    split; [apply same_frame_refl | apply same_tokens_refl]. }
  minv H as tgs r1 Hmk. minv H as rr r2 Hthis.
  apply makeTokenGroups_inv in Hmk.
  destruct Hmk as (-> & M1 & M2 & _ & M4 & _ & _).
  apply this_inv in Hthis. destruct Hthis as [-> ->].
  pose proof (forEachTokenType_tokens _ _ _ _ _ H) as Htok.
  apply forEachTokenType_ok in H.
  destruct H as (C & Md & T & Fr & _).
  split; [congruence|]. split; [congruence|].
  split; [intros E; contradiction|]. split; [intros _; congruence|].
  split; [exact Fr | exact Htok].
Qed.

Lemma indexOf_absent o t : ~ In t o -> indexOf TokenType_eqb o t = -1.
Proof.
  unfold indexOf. generalize 0.
  induction o as [|y o IH]; intros i Hn; cbn [indexOf_from]; [reflexivity|].
  destruct (TokenType_eqb y t) eqn:Ey.
  - exfalso. apply Hn. left. destruct y, t; try discriminate; reflexivity.
  - apply IH. intros H. apply Hn. right. exact H.
Qed.

(** X20.  The message of [createUnorderedErrorMessage] once the applied
    order is memoized: the category in the singular with a capital, the
    source text, and what it must do.  A category of rank 0 must go before
    the entries 1 and 2 of the applied order; one of rank 1 must go after
    the first entry of the configured order, not of the applied order; any
    other must go after the entry before its own in the applied order.  So
    when splattributes go first, the first configured category is told to
    go after itself; and a token type that is not in the applied order is
    told to go after [undefined]. *)
Theorem createUnorderedErrorMessage_text
  (t : TokenType) (src : string) (r : Rule) (o : list TokenType) :
  appliedOrder r = Some o ->
  createUnorderedErrorMessage t src r
  = Return ((capitalizedSingular t ++ " " ++ src ++ " must go "
             ++ mustGo o (order (config r)) (indexOf TokenType_eqb o t))%string,
            r)
  /\ (forall rest,
        o = SPLATTRIBUTES :: order (config r) ->
        order (config r) = t :: rest ->
        t <> SPLATTRIBUTES ->
        mustGo o (order (config r)) (indexOf TokenType_eqb o t)
        = ("after " ++ TokenType_string t)%string)
  /\ (~ In t o ->
      mustGo o (order (config r)) (indexOf TokenType_eqb o t)
      = "after undefined"%string).
Proof.
  intros Hm. split; [|split].
  - unfold createUnorderedErrorMessage, bind at 1.
    rewrite (getOrder_memo r o t Hm).
    rewrite ReportFacts.capitalizedAttribute_singular.
    unfold mustGo.
    destruct (indexOf TokenType_eqb o t =? 0);
      [|destruct (Z.eqb_spec (indexOf TokenType_eqb o t) 1) as [E1|E1]].
    + unfold bind. rewrite !(getAppliedOrder_memo r o Hm). reflexivity.
    + rewrite E1. reflexivity.
    + unfold bind. cbn [lift]. rewrite (getAppliedOrder_memo r o Hm). reflexivity.
  - intros rest -> Hcfg Hns. rewrite Hcfg. unfold mustGo, indexOf.
    cbn [indexOf_from].
    destruct t; try contradiction; reflexivity.
  - intros Hn. unfold mustGo. rewrite (indexOf_absent o t Hn). reflexivity.
Qed.

End CheckFacts.

(** ** The configuration [parseConfig] returns for an object *)

Module MergeFacts.
Import Js Config.

Lemma lookup_spread k props : forall base,
  NoDup (map fst props) ->
  lookup k (fold_left (fun acc kv => set_prop (fst kv) (snd kv) acc) props base)
  = match lookup k props with
    | Some v => Some v
    | None => lookup k base
    end.
Proof.
  induction props as [|[k0 v0] props IH]; intros base Hnd; cbn [fold_left lookup].
  - reflexivity.
  - cbn [map fst] in Hnd. inversion Hnd as [|? ? Hnot Hnd']; subst.
    rewrite (IH _ Hnd'). cbn [fst snd]. rewrite ConfigFacts.lookup_set_prop.
    destruct (k0 =? k)%string eqn:E.
    + apply String.eqb_eq in E. subst k0.
      destruct (lookup k props) as [v|] eqn:Hl; [|reflexivity].
      exfalso. apply Hnot. clear -Hl.
      induction props as [|[k1 v1] props IH]; cbn [lookup] in Hl; [discriminate|].
      cbn [map fst]. destruct (k1 =? k)%string eqn:E1.
      * left. apply String.eqb_eq, E1.
      * right. apply IH, Hl.
    + reflexivity.
Qed.

Section Merge.

Variable isValidConfigObjectFormat : JsValue -> JsValue -> bool.
Variable createErrorMessage : string -> string -> JsValue -> string.

(** X21.  The configuration returned for an object (whose keys are
    distinct) is the default configuration with the fields of the object
    written over it: a field the object has keeps the value the object
    gives it, every other field has its default.  When the order of the
    returned configuration is an array, it holds the three categories
    [arguments], [attributes] and [modifiers]. *)
Theorem parseConfig_merges_over_defaults
  (props : list (string * JsValue)) (cfg : JsValue) :
  NoDup (map fst props) ->
  parseConfig isValidConfigObjectFormat createErrorMessage (JsObject props)
  = Return cfg ->
  exists cprops,
    cfg = JsObject cprops
    /\ (forall k,
          lookup k cprops
          = match lookup k props with
            | Some v => Some v
            | None => lookup k DEFAULT_CONFIG_props
            end)
    /\ (forall elems,
          lookup "order" cprops = Some (JsArray elems) ->
          forallb (fun n => existsb (is_string_value n) elems) REQUIRED = true).
Proof.
  intros Hnd. unfold parseConfig. cbv beta zeta.
  destruct (isValidConfigObjectFormat (JsObject props) DEFAULT_CONFIG);
    cbn -[every_included spread_over forallb] ; [|discriminate].
  assert (Hspread : forall k,
             lookup k (spread_over DEFAULT_CONFIG_props (JsObject props))
             = match lookup k props with
               | Some v => Some v
               | None => lookup k DEFAULT_CONFIG_props
               end).
  { intros k. unfold spread_over. cbn [own_props]. apply lookup_spread, Hnd. }
  destruct (lookup "order" props) as [o|] eqn:Ho;
    cbn -[every_included spread_over forallb].
  - destruct (truthy o) eqn:Ht.
    + destruct (every_included o REQUIRED) as [[|]|e] eqn:Hev; try discriminate.
      intros [= <-]. eexists. split; [reflexivity|]. split; [exact Hspread|].
      intros elems Hel. rewrite Hspread, Ho in Hel. injection Hel as ->.
      rewrite ConfigFacts.every_included_array in Hev. congruence.
    + intros [= <-]. eexists. split; [reflexivity|]. split; [exact Hspread|].
      intros elems Hel. rewrite Hspread, Ho in Hel. injection Hel as ->.
      discriminate Ht.
  - intros [= <-]. eexists. split; [reflexivity|]. split; [exact Hspread|].
    intros elems Hel. rewrite Hspread, Ho in Hel. cbn in Hel.
    injection Hel as <-. reflexivity.
Qed.

End Merge.

End MergeFacts.

(** ** Detection and fix act on the same tokens *)

Module ModeFacts.
Import Js AttributeOrder Spec Derived UnorderedFacts FixFacts.

Lemma alike_refl r : alike r r.
Proof. repeat split. Qed.

Lemma alike_sym r1 r2 : alike r1 r2 -> alike r2 r1.
Proof. intros (A & B & C). repeat split; congruence. Qed.

Lemma alike_trans r1 r2 r3 : alike r1 r2 -> alike r2 r3 -> alike r1 r3.
Proof. intros (A & B & C) (A' & B' & C'). repeat split; congruence. Qed.

Lemma same_but_memo_alike r r' :
  same_but_memo r r' -> effective r' = effective r -> alike r r'.
Proof. intros (A & _ & B & _) E. repeat split; congruence. Qed.

Lemma getAppliedOrder_effective r o r' :
  getAppliedOrder r = Return (o, r') -> effective r = Some o /\ alike r r'.
Proof.
  unfold getAppliedOrder, bind, this, getTokenGroups, set_appliedOrder, ret.
  unfold alike, effective.
  destruct (appliedOrder r) as [o0|] eqn:Hm.
  - intros [= <- <-]. rewrite Hm. repeat split.
  - destruct (tokenGroups r) as [tgs|] eqn:Ht; [|discriminate].
    intros [= <- <-]. cbn [config tokenGroups appliedOrder]. rewrite Ht.
    repeat split.
Qed.

Lemma effective_getAppliedOrder r o :
  effective r = Some o -> exists r', getAppliedOrder r = Return (o, r').
Proof.
  unfold effective.
  destruct (appliedOrder r) as [o0|] eqn:Hm.
  - intros [= ->]. eexists. apply getAppliedOrder_memo, Hm.
  - destruct (tokenGroups r) as [tgs|] eqn:Ht; [|discriminate].
    intros [= <-]. eexists.
    unfold getAppliedOrder, bind, this, getTokenGroups, set_appliedOrder, ret.
    rewrite Hm, Ht. reflexivity.
Qed.

(** *** Methods leave the rule alike *)

Lemma steady_ret {A : Type} (a : A) : steady (ret a).
Proof. intros r v r' [= _ <-]. apply alike_refl. Qed.

Lemma steady_bind {A B : Type} (m : M A) (f : A -> M B) :
  steady m -> (forall a, steady (f a)) -> steady (bind m f).
Proof.
  intros Hm Hf r v r' H. apply bind_inv in H.
  destruct H as (a & r1 & H1 & H2).
  eapply alike_trans; [eapply Hm, H1 | eapply Hf, H2].
Qed.

Lemma steady_throw {A : Type} e : steady (@throw A e).
Proof. intros r v r' H. discriminate H. Qed.

Lemma steady_this : steady this.
Proof. intros r v r' [= _ <-]. apply alike_refl. Qed.

Lemma steady_lift {A : Type} (c : Completion A) : steady (lift c).
Proof.
  intros r v r' H. destruct c; [|discriminate H].
  injection H as _ <-. apply alike_refl.
Qed.

Lemma steady_getTokenGroups : steady getTokenGroups.
Proof.
  intros r v r' H. apply getTokenGroups_inv in H. destruct H as [_ ->].
  apply alike_refl.
Qed.

Lemma steady_log d : steady (log d).
Proof. intros r v r' [= _ <-]. repeat split. Qed.

Lemma steady_replaceNode node sorted : steady (replaceNode node sorted).
Proof. intros r v r' [= _ <-]. repeat split. Qed.

Lemma steady_getAppliedOrder : steady getAppliedOrder.
Proof. intros r v r' H. apply (getAppliedOrder_effective _ _ _ H). Qed.

Create HintDb steady.

#[local] Hint Resolve steady_ret steady_throw steady_this steady_lift
  steady_getTokenGroups steady_log steady_replaceNode steady_getAppliedOrder
  : steady.

Ltac steady_step :=
  first
    [ solve [auto with steady]
    | apply steady_bind; [|intros ?]
    | match goal with
      | |- steady (if ?c then _ else _) => destruct c
      | |- steady (match ?x with _ => _ end) => destruct x
      end ].

Ltac steady := repeat steady_step.

Lemma steady_getOrder t : steady (getOrder t).
Proof. unfold getOrder. steady. Qed.

Lemma steady_groupAtRank k : steady (groupAtRank k).
Proof. unfold groupAtRank. steady. Qed.

#[local] Hint Resolve steady_getOrder steady_groupAtRank : steady.

Lemma steady_orM (m1 m2 : M bool) : steady m1 -> steady m2 -> steady (orM m1 m2).
Proof. intros H1 H2. unfold orM. steady; assumption. Qed.

Lemma steady_isAttributeUnordered t : steady (isAttributeUnordered t).
Proof.
  unfold isAttributeUnordered, lastAboveFirstOf, lastBelowFirstOf,
    lastAboveLastOf, lastBelowLastOf.
  steady; repeat (apply steady_orM); steady.
Qed.

Lemma steady_createUnorderedErrorMessage t src :
  steady (createUnorderedErrorMessage t src).
Proof. unfold createUnorderedErrorMessage. steady. Qed.

Lemma steady_insertByM {A : Type} (cmp : A -> A -> M Z) x l :
  (forall u w, steady (cmp u w)) -> steady (insertByM cmp x l).
Proof.
  intros Hc. induction l as [|y l IH]; cbn [insertByM]; [apply steady_ret|].
  apply steady_bind; [apply Hc|]. intros c.
  destruct (c <? 0); [apply steady_ret|].
  apply steady_bind; [exact IH|]. intros rest. apply steady_ret.
Qed.

Lemma steady_sortM {A : Type} (cmp : A -> A -> M Z) l :
  (forall u w, steady (cmp u w)) -> steady (sortM cmp l).
Proof.
  intros Hc. unfold sortM. generalize (@nil A) as acc.
  induction l as [|x l IH]; intros acc; cbn [sortM_from]; [apply steady_ret|].
  apply steady_bind; [apply steady_insertByM, Hc|]. intros acc'. apply IH.
Qed.

Lemma steady_compareAttributeNames u w : steady (compareAttributeNames u w).
Proof. unfold compareAttributeNames. steady. Qed.

Lemma steady_compareOrder u w : steady (compareOrder u w).
Proof. unfold compareOrder. steady. Qed.

Lemma steady_orderComment node sorted : steady (orderComment node sorted).
Proof. unfold orderComment. steady. Qed.

#[local] Hint Resolve steady_isAttributeUnordered
  steady_createUnorderedErrorMessage steady_orderComment : steady.

Lemma steady_alphabetizeAttribute t node : steady (alphabetizeAttribute t node).
Proof.
  unfold alphabetizeAttribute.
  apply steady_bind; [auto with steady|]. intros tgs.
  destruct (findUnalphabetizedToken _); [|auto with steady].
  apply steady_bind; [auto with steady|]. intros r0.
  destruct (mode r0).
  - apply steady_bind; [apply steady_sortM, steady_compareAttributeNames|].
    intros sortedAttributes. cbv zeta. steady.
  - steady.
Qed.

Lemma steady_orderAttribute t node : steady (orderAttribute t node).
Proof.
  unfold orderAttribute.
  apply steady_bind; [auto with steady|]. intros tgs. cbv zeta.
  apply steady_bind; [auto with steady|]. intros r0.
  destruct (mode r0).
  - apply steady_bind; [apply steady_sortM, steady_compareOrder|].
    intros sorted. steady.
  - steady.
Qed.

(** *** Methods that return the same on rules that are alike *)

Lemma agrees_ret {A : Type} (a : A) : agrees (ret a).
Proof.
  intros r1 r2 v r1' Ha [= <- <-]. exists r2. split; [reflexivity | exact Ha].
Qed.

Lemma agrees_throw {A : Type} e : agrees (@throw A e).
Proof. intros r1 r2 v r1' _ H. discriminate H. Qed.

Lemma agrees_bind {A B : Type} (m : M A) (f : A -> M B) :
  agrees m -> (forall a, agrees (f a)) -> agrees (bind m f).
Proof.
  intros Hm Hf r1 r2 v r1' Ha H. apply bind_inv in H.
  destruct H as (a & r1a & H1 & H2).
  destruct (Hm _ _ _ _ Ha H1) as (r2a & E1 & Ha1).
  destruct (Hf a _ _ _ _ Ha1 H2) as (r2' & E2 & Ha2).
  exists r2'. split; [|exact Ha2]. unfold bind. rewrite E1. exact E2.
Qed.

Lemma agrees_getTokenGroups : agrees getTokenGroups.
Proof.
  intros r1 r2 v r1' Ha H. apply getTokenGroups_inv in H. destruct H as [H ->].
  exists r2. split; [|exact Ha]. apply getTokenGroups_some.
  destruct Ha as (_ & <- & _). exact H.
Qed.

Lemma agrees_getAppliedOrder : agrees getAppliedOrder.
Proof.
  intros r1 r2 o r1' Ha H.
  destruct (getAppliedOrder_effective _ _ _ H) as [E A1].
  assert (E2 : effective r2 = Some o) by (destruct Ha as (_ & _ & <-); exact E).
  destruct (effective_getAppliedOrder r2 o E2) as (r2' & H2).
  exists r2'. split; [exact H2|].
  destruct (getAppliedOrder_effective _ _ _ H2) as [_ A2].
  exact (alike_trans _ _ _ (alike_sym _ _ A1) (alike_trans _ _ _ Ha A2)).
Qed.

Create HintDb agrees.

#[local] Hint Resolve agrees_ret agrees_throw agrees_getTokenGroups
  agrees_getAppliedOrder : agrees.

Ltac agrees_step :=
  first
    [ solve [auto with agrees]
    | apply agrees_bind; [|intros ?]
    | match goal with
      | |- agrees (if ?c then _ else _) => destruct c
      | |- agrees (match ?x with _ => _ end) => destruct x
      end ].

Ltac agrees := repeat agrees_step.

Lemma agrees_getOrder t : agrees (getOrder t).
Proof. unfold getOrder. agrees. Qed.

Lemma agrees_groupAtRank k : agrees (groupAtRank k).
Proof. unfold groupAtRank. agrees. Qed.

#[local] Hint Resolve agrees_getOrder agrees_groupAtRank : agrees.

Lemma agrees_orM (m1 m2 : M bool) : agrees m1 -> agrees m2 -> agrees (orM m1 m2).
Proof. intros H1 H2. unfold orM. agrees; assumption. Qed.

Lemma agrees_isAttributeUnordered t : agrees (isAttributeUnordered t).
Proof.
  unfold isAttributeUnordered, lastAboveFirstOf, lastBelowFirstOf,
    lastAboveLastOf, lastBelowLastOf.
  agrees; repeat (apply agrees_orM); agrees.
Qed.

(** *** What each mode adds *)

Lemma grown_none {A : Type} (l l' : list A) : l' = l -> grown l l' 0.
Proof. intros ->. exists []. rewrite app_nil_r. split; reflexivity. Qed.

Lemma grown_trans {A : Type} (l1 l2 l3 : list A) n m :
  grown l1 l2 n -> grown l2 l3 m -> grown l1 l3 (n + m).
Proof.
  intros (a1 & -> & <-) (a2 & -> & <-). exists (a1 ++ a2)%list.
  split; [rewrite app_assoc; reflexivity | apply length_app].
Qed.

Lemma grown_same {A : Type} (l l' : list A) n :
  grown l l' n -> (l' = l <-> n = 0%nat).
Proof.
  intros (added & -> & <-). split.
  - intros H. rewrite <- (app_nil_r l) in H at 2. apply app_inv_head in H.
    subst added. reflexivity.
  - intros H. apply length_zero_iff_nil in H. subst added. apply app_nil_r.
Qed.

Lemma alphabetize_detect t node r v r' tgs :
  tokenGroups r = Some tgs -> mode r = DetectMode ->
  alphabetizeAttribute t node r = Return (v, r') ->
  replaced r' = replaced r
  /\ grown (logged r) (logged r')
           (when_some (findUnalphabetizedToken (group tgs t)) 1).
Proof.
  intros Ht Hm. unfold alphabetizeAttribute. intros H. minv H as g r0 Hg.
  apply getTokenGroups_inv in Hg. destruct Hg as [Hg ->].
  assert (g = tgs) by congruence. subst g.
  destruct (findUnalphabetizedToken (group tgs t)) as [item|].
  2:{ apply ret_inv in H. destruct H as [_ ->].
      split; [reflexivity | apply grown_none; reflexivity]. }
  minv H as rr r0 Hthis. apply this_inv in Hthis. destruct Hthis as [-> ->].
  rewrite Hm in H. minv H as msg r1 Hmsg. minv H as u r2 Hlog.
  apply lift_inv in Hmsg. destruct Hmsg as [_ ->].
  apply log_inv in Hlog. destruct Hlog as (_ & _ & _ & _ & L & R).
  apply ret_inv in H. destruct H as [_ ->].
  split; [exact R|]. eexists. split; [exact L | reflexivity].
Qed.

Lemma alphabetize_fix t node r v r' tgs :
  tokenGroups r = Some tgs -> mode r = FixMode ->
  alphabetizeAttribute t node r = Return (v, r') ->
  logged r' = logged r
  /\ grown (replaced r) (replaced r')
           (when_some (findUnalphabetizedToken (group tgs t)) 2).
Proof.
  intros Ht Hm. unfold alphabetizeAttribute. intros H. minv H as g r0 Hg.
  apply getTokenGroups_inv in Hg. destruct Hg as [Hg ->].
  assert (g = tgs) by congruence. subst g.
  destruct (findUnalphabetizedToken (group tgs t)) as [item|].
  2:{ apply ret_inv in H. destruct H as [_ ->].
      split; [reflexivity | apply grown_none; reflexivity]. }
  minv H as rr r0 Hthis. apply this_inv in Hthis. destruct Hthis as [-> ->].
  rewrite Hm in H. minv H as sortedAttributes r1 Hsort. cbv zeta in H.
  minv H as u1 r2 H1. minv H as after r3 Hafter. minv H as u2 r4 H2.
  pose proof (sortM_frame _ _ compareAttributeNames_frame _ _ _ Hsort)
    as (_ & _ & _ & S4 & S5).
  apply replaceNode_inv in H1. destruct H1 as (_ & _ & _ & _ & P5 & P6).
  apply after_comments_inv in Hafter. destruct Hafter as (-> & _ & _).
  apply replaceNode_inv in H2. destruct H2 as (_ & _ & _ & _ & Q5 & Q6).
  apply ret_inv in H. destruct H as [_ ->].
  split; [congruence|].
  eexists. split; [rewrite Q6, P6, S5, <- app_assoc; reflexivity | reflexivity].
Qed.

Lemma order_detect t node r v r' :
  mode r = DetectMode ->
  orderAttribute t node r = Return (v, r') ->
  replaced r' = replaced r /\ grown (logged r) (logged r') 1.
Proof.
  intros Hm. unfold orderAttribute. intros H. minv H as g r0 Hg.
  apply getTokenGroups_inv in Hg. destruct Hg as [_ ->]. cbv zeta in H.
  minv H as rr r0 Hthis. apply this_inv in Hthis. destruct Hthis as [-> ->].
  rewrite Hm in H.
  destruct (findUnorderedToken _) as [it|]; [|discriminate].
  minv H as msg r1 Hmsg. minv H as u r2 Hlog.
  pose proof (createUnorderedErrorMessage_frame _ _ _ _ _ Hmsg)
    as (_ & _ & _ & S4 & S5).
  apply log_inv in Hlog. destruct Hlog as (_ & _ & _ & _ & L & R).
  apply ret_inv in H. destruct H as [_ ->].
  split; [congruence|]. eexists. split; [rewrite L, S4; reflexivity | reflexivity].
Qed.

Lemma order_fix t node r v r' :
  mode r = FixMode ->
  orderAttribute t node r = Return (v, r') ->
  logged r' = logged r /\ grown (replaced r) (replaced r') 1.
Proof.
  intros Hm. unfold orderAttribute. intros H. minv H as g r0 Hg.
  apply getTokenGroups_inv in Hg. destruct Hg as [_ ->]. cbv zeta in H.
  minv H as rr r0 Hthis. apply this_inv in Hthis. destruct Hthis as [-> ->].
  rewrite Hm in H.
  minv H as sorted r1 Hsort. minv H as after r2 Hafter. minv H as u r3 Hrep.
  pose proof (sortM_frame _ _ compareOrder_frame _ _ _ Hsort)
    as (_ & _ & _ & S4 & S5).
  apply after_comments_inv in Hafter. destruct Hafter as (-> & _ & _).
  apply replaceNode_inv in Hrep. destruct Hrep as (_ & _ & _ & _ & Q5 & Q6).
  apply ret_inv in H. destruct H as [_ ->].
  split; [congruence|]. eexists. split; [rewrite Q6, S5; reflexivity | reflexivity].
Qed.

(** The two modes in step: what detection logs and what the fix
    requests. *)
Lemma checkTokenType_modes t nodeD nodeF rD rF vD rD' vF rF' :
  alike rD rF -> mode rD = DetectMode -> mode rF = FixMode ->
  checkTokenType t nodeD rD = Return (vD, rD') ->
  checkTokenType t nodeF rF = Return (vF, rF') ->
  alike rD' rF' /\ mode rD' = DetectMode /\ mode rF' = FixMode
  /\ exists a u,
      grown (logged rD) (logged rD') (a + u)
      /\ grown (replaced rF) (replaced rF') (2 * a + u).
Proof.
  intros Ha HmD HmF HD HF.
  pose proof (checkTokenType_ok _ _ _ _ _ HD) as (_ & MD & _).
  pose proof (checkTokenType_ok _ _ _ _ _ HF) as (_ & MF & _).
  unfold checkTokenType in HD, HF.
  minv HD as tgsD r0 HgD. apply getTokenGroups_inv in HgD.
  destruct HgD as [HtD ->].
  minv HD as rr r0 Hthis. apply this_inv in Hthis. destruct Hthis as [-> ->].
  minv HF as tgsF r0 HgF. apply getTokenGroups_inv in HgF.
  destruct HgF as [HtF ->].
  minv HF as rr r0 Hthis. apply this_inv in Hthis. destruct Hthis as [-> ->].
  cbv zeta in HD, HF.
  assert (tgsF = tgsD) by (destruct Ha as (_ & T & _); congruence). subst tgsF.
  assert (Hcfg : config rF = config rD) by (destruct Ha as (C & _); congruence).
  rewrite Hcfg in HF.
  minv HD as nodeD1 rD1 HalphaD. minv HD as uD rD2 HunD.
  minv HF as nodeF1 rF1 HalphaF. minv HF as uF rF2 HunF.
  set (g := alphabetize (config rD) && someGroupUnalphabetized tgsD
            && negb (areSplattributesSurrounded tgsD)) in *.
  set (a := (if g
             then when_some (findUnalphabetizedToken (group tgsD t)) 1
             else 0)%nat).
  assert (K1 : alike rD rD1 /\ mode rD1 = DetectMode
               /\ replaced rD1 = replaced rD
               /\ grown (logged rD) (logged rD1) a).
  { subst a. destruct g.
    - pose proof (alphabetizeAttribute_ok _ _ _ _ _ HalphaD) as (_ & M & _).
      destruct (alphabetize_detect _ _ _ _ _ _ HtD HmD HalphaD) as [R G].
      split; [exact (steady_alphabetizeAttribute _ _ _ _ _ HalphaD)|].
      split; [congruence|]. split; assumption.
    - apply ret_inv in HalphaD. destruct HalphaD as [_ ->].
      split; [apply alike_refl|]. split; [exact HmD|].
      split; [reflexivity | apply grown_none; reflexivity]. }
  assert (K2 : alike rF rF1 /\ mode rF1 = FixMode
               /\ logged rF1 = logged rF
               /\ grown (replaced rF) (replaced rF1) (2 * a)).
  { subst a. destruct g.
    - pose proof (alphabetizeAttribute_ok _ _ _ _ _ HalphaF) as (_ & M & _).
      destruct (alphabetize_fix _ _ _ _ _ _ HtF HmF HalphaF) as [R G].
      split; [exact (steady_alphabetizeAttribute _ _ _ _ _ HalphaF)|].
      split; [congruence|]. split; [exact R|].
      destruct (findUnalphabetizedToken (group tgsD t)); exact G.
    - apply ret_inv in HalphaF. destruct HalphaF as [_ ->].
      split; [apply alike_refl|]. split; [exact HmF|].
      split; [reflexivity | apply grown_none; reflexivity]. }
  destruct K1 as (A1 & MD1 & RD1 & GD1). destruct K2 as (A2 & MF1 & LF1 & GF1).
  assert (A12 : alike rD1 rF1)
    by exact (alike_trans _ _ _ (alike_sym _ _ A1) (alike_trans _ _ _ Ha A2)).
  destruct (agrees_isAttributeUnordered t _ _ _ _ A12 HunD) as (rF2' & E & A3).
  rewrite E in HunF. injection HunF as <- <-.
  pose proof (isAttributeUnordered_frame _ _ _ _ HunD) as (_ & MD2 & _ & LD2 & RD2).
  pose proof (isAttributeUnordered_frame _ _ _ _ E) as (_ & MF2 & _ & LF2 & RF2).
  split; [|split; [congruence|split; [congruence|]]].
  - destruct uD.
    + exact (alike_trans _ _ _ (alike_sym _ _ (steady_orderAttribute _ _ _ _ _ HD))
                         (alike_trans _ _ _ A3
                                      (steady_orderAttribute _ _ _ _ _ HF))).
    + apply ret_inv in HD, HF. destruct HD as [_ ->]. destruct HF as [_ ->].
      exact A3.
  - exists a, (if uD then 1 else 0)%nat. destruct uD.
    + destruct (order_detect _ _ _ _ _ (eq_trans MD2 MD1) HD) as [_ GD].
      destruct (order_fix _ _ _ _ _ (eq_trans MF2 MF1) HF) as [_ GF].
      rewrite <- LD2 in GD1. rewrite <- RF2 in GF1.
      split; [exact (grown_trans _ _ _ _ _ GD1 GD)
             | exact (grown_trans _ _ _ _ _ GF1 GF)].
    + apply ret_inv in HD, HF. destruct HD as [_ ->]. destruct HF as [_ ->].
      rewrite <- LD2 in GD1. rewrite <- RF2 in GF1.
      rewrite !Nat.add_0_r. split; assumption.
Qed.

Lemma forEachTokenType_modes types :
  forall nodeD nodeF rD rF vD rD' vF rF',
    alike rD rF -> mode rD = DetectMode -> mode rF = FixMode ->
    forEachTokenType types nodeD rD = Return (vD, rD') ->
    forEachTokenType types nodeF rF = Return (vF, rF') ->
    exists a u,
      grown (logged rD) (logged rD') (a + u)
      /\ grown (replaced rF) (replaced rF') (2 * a + u).
Proof.
  induction types as [|t types IH];
    intros nodeD nodeF rD rF vD rD' vF rF' Ha HmD HmF HD HF;
    cbn [forEachTokenType] in HD, HF.
  - apply ret_inv in HD, HF. destruct HD as [_ ->]. destruct HF as [_ ->].
    exists 0%nat, 0%nat. split; apply grown_none; reflexivity.
  - minv HD as nodeD1 rD1 HD1. minv HF as nodeF1 rF1 HF1.
    destruct (checkTokenType_modes _ _ _ _ _ _ _ _ _ Ha HmD HmF HD1 HF1)
      as (A1 & MD1 & MF1 & a1 & u1 & GD1 & GF1).
    destruct (IH _ _ _ _ _ _ _ _ A1 MD1 MF1 HD HF) as (a2 & u2 & GD2 & GF2).
    exists (a1 + a2)%nat, (u1 + u2)%nat. split.
    + replace (a1 + a2 + (u1 + u2))%nat with ((a1 + u1) + (a2 + u2))%nat by lia.
      exact (grown_trans _ _ _ _ _ GD1 GD2).
    + replace (2 * (a1 + a2) + (u1 + u2))%nat
        with ((2 * a1 + u1) + (2 * a2 + u2))%nat by lia.
      exact (grown_trans _ _ _ _ _ GF1 GF2).
Qed.

(** X22.  Detection and fix agree on what there is to do.  For two rule
    instances with the same configuration and the same memoized applied
    order (or none), one detecting and one fixing, whose checks of the same
    element both return: the detection logs nothing exactly when the fix
    requests no replacement, and then the fix leaves the element as it
    was. *)
Theorem fix_acts_iff_detection_reports
  (node : ElementNode) (rD rF : Rule)
  (nodeD : ElementNode) (rD' : Rule) (nodeF : ElementNode) (rF' : Rule) :
  mode rD = DetectMode -> mode rF = FixMode ->
  config rD = config rF -> appliedOrder rD = appliedOrder rF ->
  checkElementAttributesOrder node rD = Return (nodeD, rD') ->
  checkElementAttributesOrder node rF = Return (nodeF, rF') ->
  (logged rD' = logged rD <-> replaced rF' = replaced rF)
  /\ (logged rD' = logged rD -> nodeF = node).
Proof.
  intros HmD HmF Hcfg Hmemo HD HF.
  assert (Hiff : logged rD' = logged rD <-> replaced rF' = replaced rF).
  { unfold checkElementAttributesOrder in HD, HF.
    destruct (el_source node =? "")%string.
    - apply ret_inv in HD, HF. destruct HD as [_ ->]. destruct HF as [_ ->].
      split; reflexivity.
    - minv HD as tgsD rD1 HmkD. minv HD as rr r0 Hthis.
      apply makeTokenGroups_inv in HmkD.
      destruct HmkD as (_ & CD & MD & AD & TD & LD & _).
      apply this_inv in Hthis. destruct Hthis as [-> ->].
      minv HF as tgsF rF1 HmkF. minv HF as rr r0 Hthis.
      apply makeTokenGroups_inv in HmkF.
      destruct HmkF as (_ & CF & MF & AF & TF & _ & RF).
      apply this_inv in Hthis. destruct Hthis as [-> ->].
      rewrite CD in HD. rewrite CF, <- Hcfg in HF.
      assert (Ha : alike rD1 rF1).
      { unfold alike, effective. rewrite CD, CF, AD, AF, TD, TF, Hcfg, Hmemo.
        repeat split. }
      destruct (forEachTokenType_modes _ _ _ _ _ _ _ _ _ Ha
                  (eq_trans MD HmD) (eq_trans MF HmF) HD HF)
        as (a & u & GD & GF).
      rewrite LD in GD. rewrite RF in GF.
      rewrite (grown_same _ _ _ GD), (grown_same _ _ _ GF). lia. }
  split; [exact Hiff|]. intros Hlog. apply Hiff in Hlog.
  destruct (checkElementAttributesOrder_ok _ _ _ _ HF) as [_ Hfix].
  destruct (Hfix HmF) as (news & Hnews & _ & Hsame).
  apply Hsame. rewrite Hlog in Hnews.
  rewrite <- (app_nil_r (replaced rF)) in Hnews at 1.
  apply app_inv_head in Hnews. congruence.
Qed.

End ModeFacts.

(** ** The sandwiching test, exactly *)

Module EnclosedFacts.
Import Js AttributeOrder Spec Derived AppliedOrderFacts.

Lemma fold_max_counted l : forall a,
  fold_left num_max (map (fun o => or_else o NegInfinity) l) (Fin a)
  = Fin (fold_left Z.max (counted (defined l)) a).
Proof.
  induction l as [|o l IH]; intros a; [reflexivity|].
  cbn [map fold_left]. destruct o as [z|]; cbn [or_else].
  - unfold defined, counted. cbn [flat_map app filter].
    fold (defined l). fold (counted (defined l)).
    destruct (z =? 0); cbn [negb fold_left].
    + exact (IH a).
    + rewrite num_max_Fin. exact (IH _).
  - exact (IH a).
Qed.

Lemma fold_min_counted l : forall a,
  fold_left num_min (map (fun o => or_else o PosInfinity) l) (Fin a)
  = Fin (fold_left Z.min (counted (defined l)) a).
Proof.
  induction l as [|o l IH]; intros a; [reflexivity|].
  cbn [map fold_left]. destruct o as [z|]; cbn [or_else].
  - unfold defined, counted. cbn [flat_map app filter].
    fold (defined l). fold (counted (defined l)).
    destruct (z =? 0); cbn [negb fold_left].
    + exact (IH a).
    + rewrite num_min_Fin. exact (IH _).
  - exact (IH a).
Qed.

Lemma Math_max_counted l :
  Math_max (map (fun o => or_else o NegInfinity) l)
  = match maximum (counted (defined l)) with
    | Some m => Fin m
    | None => NegInfinity
    end.
Proof.
  unfold Math_max. induction l as [|o l IH]; [reflexivity|].
  cbn [map fold_left]. destruct o as [z|]; cbn [or_else].
  - unfold defined, counted. cbn [flat_map app filter].
    fold (defined l). fold (counted (defined l)).
    destruct (z =? 0); cbn [negb maximum].
    + exact IH.
    + exact (fold_max_counted l z).
  - exact IH.
Qed.

Lemma Math_min_counted l :
  Math_min (map (fun o => or_else o PosInfinity) l)
  = match minimum (counted (defined l)) with
    | Some m => Fin m
    | None => PosInfinity
    end.
Proof.
  unfold Math_min. induction l as [|o l IH]; [reflexivity|].
  cbn [map fold_left]. destruct o as [z|]; cbn [or_else].
  - unfold defined, counted. cbn [flat_map app filter].
    fold (defined l). fold (counted (defined l)).
    destruct (z =? 0); cbn [negb minimum].
    + exact IH.
    + exact (fold_min_counted l z).
  - exact IH.
Qed.

(** X23.  [areSplattributesSurrounded] holds exactly when the spread has
    a last position that is not negative and lies strictly between the
    least first position and the greatest last position of the token
    groups, positions 0 left out: a group that starts (or ends) at
    position 0 does not count.  In particular, when no position is
    negative, it fails when there is no spread and when the last position
    of the spread is 0 or 1. *)
Theorem surrounded_exactly (tgs : TokenGroups) :
  (areSplattributesSurrounded tgs = true <-> enclosed tgs)
  /\ (nonnegative tgs -> areSplattributesSurrounded tgs = true ->
      exists s, lastIndex (group tgs SPLATTRIBUTES) = Some s /\ 1 < s).
Proof.
  assert (Hiff : areSplattributesSurrounded tgs = true <-> enclosed tgs).
  { unfold areSplattributesSurrounded, enclosed.
    rewrite <- (map_map lastIndex (fun o => or_else o NegInfinity)).
    rewrite <- (map_map firstIndex (fun o => or_else o PosInfinity)).
    rewrite Math_max_counted, Math_min_counted.
    rewrite !SurroundedFacts.defined_map.
    fold (lastPositions tgs). fold (firstPositions tgs).
    destruct (lastIndex (group tgs SPLATTRIBUTES)) as [s|];
      cbn [of_index option_map lt gt num_ltb].
    2:{ split; [discriminate | intros (s & lo & hi & H & _); discriminate]. }
    destruct (Z.ltb_spec s 0) as [Hneg|Hnn].
    { split; [discriminate|].
      intros (s' & lo & hi & [= <-] & H & _). lia. }
    destruct (minimum (counted (firstPositions tgs))) as [lo|],
             (maximum (counted (lastPositions tgs))) as [hi|];
      cbn [num_ltb]; split.
    - intros H. apply andb_true_iff in H. destruct H as [H1 H2].
      exists s, lo, hi. split; [reflexivity|]. split; [exact Hnn|].
      split; [reflexivity|]. split; [reflexivity|].
      split; [apply Z.ltb_lt, H1 | apply Z.ltb_lt, H2].
    - intros (s' & lo' & hi' & [= <-] & _ & [= <-] & [= <-] & H1 & H2).
      apply andb_true_iff. split; apply Z.ltb_lt; assumption.
    - rewrite andb_false_r. discriminate.
    - intros (s' & lo' & hi' & _ & _ & _ & H & _). discriminate.
    - discriminate.
    - intros (s' & lo' & hi' & _ & _ & H & _). discriminate.
    - discriminate.
    - intros (s' & lo' & hi' & _ & _ & H & _). discriminate. }
  split; [exact Hiff|].
  intros Hpos H. apply Hiff in H.
  destruct H as (s & lo & hi & Hs & Hnn & Hlo & Hhi & H1 & H2).
  exists s. split; [exact Hs|].
  assert (Hlow : In lo (counted (firstPositions tgs)))
    by (apply (minimum_in _ _ Hlo)).
  unfold counted in Hlow. apply filter_In in Hlow. destruct Hlow as [Hlow Hnz].
  apply negb_true_iff, Z.eqb_neq in Hnz.
  unfold firstPositions in Hlow. apply in_flat_map in Hlow.
  destruct Hlow as (g & Hg & Hlow).
  destruct (firstIndex g) as [f|] eqn:Hf; [|contradiction].
  destruct Hlow as [<-|[]].
  assert (Hin : In f (indexes g)).
  { unfold firstIndex in Hf. destruct (indexes g) as [|i rest]; [discriminate|].
    injection Hf as <-.
    destruct (fold_min_in rest i) as [->|Hr]; [left; reflexivity | right; exact Hr]. }
  unfold indexes in Hin. apply in_map_iff in Hin. destruct Hin as (t & <- & Ht).
  specialize (Hpos g Hg). rewrite Forall_forall in Hpos. specialize (Hpos t Ht).
  lia.
Qed.

End EnclosedFacts.

(** ** The fix of a mustache statement, applied again *)

Module AgainFacts.
Import Js AttributeOrder Spec Derived.

Lemma insertBy_end {A : Type} (cmp : A -> A -> Z) x acc :
  Forall (fun y => (cmp x y <? 0) = false) acc ->
  insertBy cmp x acc = (acc ++ [x])%list.
Proof.
  induction 1 as [|y acc Hy _ IH]; cbn [insertBy app]; [reflexivity|].
  rewrite Hy, IH. reflexivity.
Qed.

Lemma sort_fixed {A : Type} (cmp : A -> A -> Z) l :
  StronglySorted (fun a c => (cmp c a <? 0) = false) l -> sort cmp l = l.
Proof.
  unfold sort. intros Hs.
  assert (G : forall acc,
             Forall (fun a => Forall (fun c => (cmp c a <? 0) = false) l) acc ->
             fold_left (fun acc x => insertBy cmp x acc) l acc = (acc ++ l)%list).
  { induction Hs as [|x l Hl IH Hx]; intros acc Hacc; cbn [fold_left].
    - rewrite app_nil_r. reflexivity.
    - rewrite insertBy_end.
      + rewrite IH, <- app_assoc; [reflexivity|].
        apply Forall_app. split.
        * eapply Forall_impl; [|exact Hacc]. cbv beta. intros a Ha.
          inversion Ha; assumption.
        * constructor; [exact Hx | constructor].
      + eapply Forall_impl; [|exact Hacc]. cbv beta. intros a Ha.
        inversion Ha; assumption. }
  apply (G []). constructor.
Qed.

Lemma str_lt_trans a c d :
  str_lt a c = true -> str_lt c d = true -> str_lt a d = true.
Proof.
  unfold str_lt. destruct a as [x|], c as [y|], d as [z|]; try discriminate.
  unfold String.ltb.
  destruct (String.compare x y) eqn:E1; try discriminate.
  destruct (String.compare y z) eqn:E2; try discriminate.
  intros _ _.
  assert (H : String.compare x z = Lt).
  { apply OrderedTypeEx.String_as_OT.cmp_lt.
    eapply OrderedTypeEx.String_as_OT.lt_trans;
      apply OrderedTypeEx.String_as_OT.cmp_lt; eassumption. }
  rewrite H. reflexivity.
Qed.

Lemma str_lt_total a c :
  a <> None -> c <> None -> a <> c -> str_gt a c = false -> str_lt a c = true.
Proof.
  unfold str_gt, str_lt. destruct a as [x|], c as [y|]; try congruence.
  intros _ _ Hne. unfold String.ltb.
  pose proof (String.compare_antisym x y) as Ha.
  destruct (String.compare y x) eqn:E; cbn [CompOpp] in Ha; rewrite Ha;
    try congruence.
  apply String.compare_eq_iff in E. congruence.
Qed.

Lemma sorted_keys_ascend l :
  NoDup (map key l) -> Forall (fun pair => key pair <> None) l ->
  ordered_by key l -> keys_ascend l.
Proof.
  intros Hnd Hsome Hord. apply Sorted_StronglySorted.
  { intros a c d. apply str_lt_trans. }
  induction Hord as [|x l Hl IH Hx]; [constructor|].
  cbn [map] in Hnd. inversion Hnd as [|? ? Hnot Hnd']; subst.
  inversion Hsome as [|? ? Hkx Hsome']; subst.
  constructor; [exact (IH Hnd' Hsome')|].
  destruct Hx as [|y l Hxy]; constructor.
  inversion Hsome' as [|? ? Hky _]; subst.
  apply str_lt_total; [exact Hkx | exact Hky | | exact Hxy].
  intros E. apply Hnot. left. symmetry. exact E.
Qed.

Lemma strongly_sorted_weaken {A : Type} (R R' : A -> A -> Prop) l :
  (forall a c, R a c -> R' a c) -> StronglySorted R l -> StronglySorted R' l.
Proof.
  intros Himp. induction 1 as [|x l Hl IH Hx]; constructor; [exact IH|].
  eapply Forall_impl; [|exact Hx]. apply Himp.
Qed.

Lemma sort_compareKeys_again l :
  NoDup (map key l) -> Forall (fun pair => key pair <> None) l ->
  sort compareKeys (sort compareKeys l) = sort compareKeys l.
Proof.
  intros Hnd Hsome.
  pose proof (SortFacts.sort_perm compareKeys l) as Hp.
  assert (Hasc : keys_ascend (sort compareKeys l)).
  { apply sorted_keys_ascend.
    - apply (Permutation_NoDup (l := map key l)); [|exact Hnd].
      apply Permutation_map, Permutation_sym, Hp.
    - apply (Permutation_Forall (Permutation_sym Hp)), Hsome.
    - apply (SortFacts.sort_ordered_by key). }
  apply sort_fixed. unfold keys_ascend in Hasc.
  eapply strongly_sorted_weaken; [|exact Hasc].
  intros a c H. unfold compareKeys. unfold str_gt. rewrite H. reflexivity.
Qed.

Lemma mustache_fix_result node r :
  mode r = FixMode ->
  exists r',
    checkMustacheAttributesOrder node r
    = Return (if sorts_pairs (config r) node
              then with_hash_pairs node (sort compareKeys (hash_pairs node))
              else node, r')
    /\ mode r' = FixMode /\ config r' = config r.
Proof.
  intros Hm. unfold checkMustacheAttributesOrder, sorts_pairs.
  destruct (mu_source node =? "")%string;
    [exists r; repeat split; assumption|].
  destruct (path_type node);
    [|exists r; repeat split; assumption].
  unfold bind at 1. unfold makeTokenGroups, bind at 1, set_tokenGroups, ret.
  unfold bind at 1. cbn [this config mode negb andb].
  rewrite MustacheFacts.pairs_index.
  destruct (alphabetize (config r)
            && (0 <=? findIndex (inversion_at (pair_keys node)) (pair_keys node))).
  - rewrite Hm. eexists. split; [reflexivity|]. split; reflexivity.
  - eexists. split; [reflexivity|]. split; [exact Hm | reflexivity].
Qed.

(** X24.  The fix of a mustache statement does nothing the second time:
    when the keys of the hash pairs are strings and no two pairs have the
    same key, the statement the fix returns comes back from another fix as
    it is. *)
Theorem mustache_fix_is_idempotent
  (node : MustacheStatement) (r : Rule)
  (node1 : MustacheStatement) (r1 : Rule)
  (node2 : MustacheStatement) (r2 : Rule) :
  mode r = FixMode ->
  NoDup (map key (hash_pairs node)) ->
  Forall (fun pair => key pair <> None) (hash_pairs node) ->
  checkMustacheAttributesOrder node r = Return (node1, r1) ->
  checkMustacheAttributesOrder node1 r1 = Return (node2, r2) ->
  node2 = node1.
Proof.
  intros Hm Hnd Hsome H1 H2.
  destruct (mustache_fix_result node r Hm) as (r1' & E1 & Hm1 & Hc1).
  rewrite E1 in H1. injection H1 as <- <-.
  set (node1 := if sorts_pairs (config r) node
                then with_hash_pairs node (sort compareKeys (hash_pairs node))
                else node) in *.
  destruct (mustache_fix_result node1 r1' Hm1) as (r2' & E2 & _ & _).
  rewrite E2 in H2. injection H2 as <- _.
  rewrite Hc1.
  destruct (sorts_pairs (config r) node1) eqn:S2; [|reflexivity].
  subst node1.
  destruct (sorts_pairs (config r) node) eqn:S1.
  - unfold with_hash_pairs. cbn [path_type hash_pairs mu_source].
    rewrite (sort_compareKeys_again _ Hnd Hsome). reflexivity.
  - congruence.
Qed.

End AgainFacts.

(** ** An element that complies *)

Module CompliantFacts.
Import Js AttributeOrder Spec Derived UnorderedFacts FixFacts.

Lemma lastIndex_of_token g a :
  lastIndex g = Some a ->
  exists x, In x (items g) /\ calculateAttributeIndex x = a.
Proof.
  unfold lastIndex, indexes. destruct (items g) as [|t rest]; [discriminate|].
  cbn [map]. intros [= <-].
  destruct (TotalityFacts.fold_max_in (map calculateAttributeIndex rest)
                                      (calculateAttributeIndex t)) as [E|Hin].
  - exists t. split; [left; reflexivity | symmetry; exact E].
  - apply in_map_iff in Hin. destruct Hin as (x & E & Hx).
    exists x. split; [right; exact Hx | exact E].
Qed.

Lemma firstIndex_of_token g a :
  firstIndex g = Some a ->
  exists x, In x (items g) /\ calculateAttributeIndex x = a.
Proof.
  unfold firstIndex, indexes. destruct (items g) as [|t rest]; [discriminate|].
  cbn [map]. intros [= <-].
  destruct (AppliedOrderFacts.fold_min_in (map calculateAttributeIndex rest)
                                          (calculateAttributeIndex t)) as [E|Hin].
  - exists t. split; [left; reflexivity | symmetry; exact E].
  - apply in_map_iff in Hin. destruct Hin as (x & E & Hx).
    exists x. split; [right; exact Hx | exact E].
Qed.

Lemma TokenType_eqb_eq a c : TokenType_eqb a c = true -> a = c.
Proof. destruct a, c; cbn; congruence. Qed.

Section Compliant.

Variables (tgs : TokenGroups) (o : list TokenType).
Hypothesis Hcompliant : in_applied_order o tgs.

(** Between a group and a group that is later in the order, no
    comparison of the predicate holds. *)
Lemma no_gt_first i j ti tj :
  nth_error o i = Some ti -> nth_error o j = Some tj -> (i < j)%nat ->
  gt (of_index (lastIndex (group tgs ti))) (of_index (firstIndex (group tgs tj)))
  = false.
Proof.
  intros Hi Hj Hlt.
  destruct (lastIndex (group tgs ti)) as [a|] eqn:Ha;
    destruct (firstIndex (group tgs tj)) as [c|] eqn:Hc; try reflexivity.
  destruct (lastIndex_of_token _ _ Ha) as (x & Hx & <-).
  destruct (firstIndex_of_token _ _ Hc) as (y & Hy & <-).
  pose proof (Hcompliant i j ti tj x y Hi Hj Hlt Hx Hy).
  cbn. apply Z.ltb_ge. lia.
Qed.

Lemma no_gt_last i j ti tj :
  nth_error o i = Some ti -> nth_error o j = Some tj -> (i < j)%nat ->
  gt (of_index (lastIndex (group tgs ti))) (of_index (lastIndex (group tgs tj)))
  = false.
Proof.
  intros Hi Hj Hlt.
  destruct (lastIndex (group tgs ti)) as [a|] eqn:Ha;
    destruct (lastIndex (group tgs tj)) as [c|] eqn:Hc; try reflexivity.
  destruct (lastIndex_of_token _ _ Ha) as (x & Hx & <-).
  destruct (lastIndex_of_token _ _ Hc) as (y & Hy & <-).
  pose proof (Hcompliant i j ti tj x y Hi Hj Hlt Hx Hy).
  cbn. apply Z.ltb_ge. lia.
Qed.

Lemma no_lt_first i j ti tj :
  nth_error o i = Some ti -> nth_error o j = Some tj -> (i < j)%nat ->
  lt (of_index (lastIndex (group tgs tj))) (of_index (firstIndex (group tgs ti)))
  = false.
Proof.
  intros Hi Hj Hlt.
  destruct (lastIndex (group tgs tj)) as [a|] eqn:Ha;
    destruct (firstIndex (group tgs ti)) as [c|] eqn:Hc; try reflexivity.
  destruct (lastIndex_of_token _ _ Ha) as (y & Hy & <-).
  destruct (firstIndex_of_token _ _ Hc) as (x & Hx & <-).
  pose proof (Hcompliant i j ti tj x y Hi Hj Hlt Hx Hy).
  cbn. apply Z.ltb_ge. lia.
Qed.

Lemma no_lt_last i j ti tj :
  nth_error o i = Some ti -> nth_error o j = Some tj -> (i < j)%nat ->
  lt (of_index (lastIndex (group tgs tj))) (of_index (lastIndex (group tgs ti)))
  = false.
Proof.
  intros Hi Hj Hlt.
  destruct (lastIndex (group tgs tj)) as [a|] eqn:Ha;
    destruct (lastIndex (group tgs ti)) as [c|] eqn:Hc; try reflexivity.
  destruct (lastIndex_of_token _ _ Ha) as (y & Hy & <-).
  destruct (lastIndex_of_token _ _ Hc) as (x & Hx & <-).
  pose proof (Hcompliant i j ti tj x y Hi Hj Hlt Hx Hy).
  cbn. apply Z.ltb_ge. lia.
Qed.

Lemma isAttributeUnordered_compliant r t c0 c1 c2 c3 rest :
  appliedOrder r = Some o -> tokenGroups r = Some tgs ->
  o = c0 :: c1 :: c2 :: c3 :: rest ->
  isAttributeUnordered t r = Return (false, r).
Proof.
  intros Hmemo Hgroups Ho.
  rewrite (isAttributeUnordered_memo r o tgs Hmemo Hgroups t c0 c1 c2 c3 rest Ho).
  cbv zeta. f_equal. f_equal.
  destruct (negb (exists_ (group tgs t))); [reflexivity|].
  destruct (areSplattributesSurrounded tgs); [reflexivity|].
  assert (N0 : nth_error o 0 = Some c0) by (rewrite Ho; reflexivity).
  assert (N1 : nth_error o 1 = Some c1) by (rewrite Ho; reflexivity).
  assert (N2 : nth_error o 2 = Some c2) by (rewrite Ho; reflexivity).
  assert (N3 : nth_error o 3 = Some c3) by (rewrite Ho; reflexivity).
  unfold indexOf. rewrite Ho. cbn [indexOf_from].
  destruct (TokenType_eqb c0 t) eqn:E0.
  { apply TokenType_eqb_eq in E0. subst t. cbn [Z.eqb].
    rewrite (no_gt_first 0 1 c0 c1 N0 N1), (no_gt_first 0 2 c0 c2 N0 N2),
      (no_gt_first 0 3 c0 c3 N0 N3) by lia.
    reflexivity. }
  destruct (TokenType_eqb c1 t) eqn:E1.
  { apply TokenType_eqb_eq in E1. subst t. cbn [Z.add Z.eqb Pos.eqb].
    rewrite (no_lt_first 0 1 c0 c1 N0 N1), (no_gt_first 1 2 c1 c2 N1 N2) by lia.
    reflexivity. }
  destruct (TokenType_eqb c2 t) eqn:E2.
  { apply TokenType_eqb_eq in E2. subst t. cbn [Z.add Z.eqb Pos.eqb Pos.add Pos.succ].
    rewrite (no_lt_last 1 2 c1 c2 N1 N2), (no_gt_last 2 3 c2 c3 N2 N3) by lia.
    reflexivity. }
  destruct (TokenType_eqb c3 t) eqn:E3.
  { apply TokenType_eqb_eq in E3. subst t.
    cbn [Z.add Z.eqb Pos.eqb Pos.add Pos.succ].
    rewrite (no_lt_last 2 3 c2 c3 N2 N3) by lia.
    reflexivity. }
  pose proof (TotalityFacts.findIndex_from_range
                (fun (y : TokenType) (_ : Z) => TokenType_eqb y t) rest 4) as Hr.
  assert (Hsame : forall l i,
             indexOf_from TokenType_eqb t l i
             = findIndex_from (fun (y : TokenType) (_ : Z) => TokenType_eqb y t) l i).
  { induction l as [|y l IH]; intros i; cbn [indexOf_from findIndex_from];
      [reflexivity|]. destruct (TokenType_eqb y t); [reflexivity | apply IH]. }
  change (0 + 1 + 1 + 1 + 1) with 4. rewrite Hsame.
  destruct Hr as [->|Hr]; [reflexivity|].
  set (k := findIndex_from _ rest 4) in *.
  destruct (Z.eqb_spec k 0); [lia|]. destruct (Z.eqb_spec k 1); [lia|].
  destruct (Z.eqb_spec k 2); [lia|]. destruct (Z.eqb_spec k 3); [lia|].
  reflexivity.
Qed.

End Compliant.

Lemma someGroupUnalphabetized_none tgs :
  keys_in_order tgs -> someGroupUnalphabetized tgs = false.
Proof.
  intros Hk. unfold someGroupUnalphabetized, values, TokenType_values.
  assert (G : forall t, t <> COMMENTS ->
                        findUnalphabetizedToken (group tgs t) = None).
  { intros t Ht. unfold findUnalphabetizedToken.
    destruct (GroupFacts.first_inversion (alpha_keys (group tgs t))) as [Hs _].
    cbv zeta in Hs.
    change (unalphabetizedItemIndex (group tgs t))
      with (findIndex (inversion_at (alpha_keys (group tgs t)))
                      (alpha_keys (group tgs t))).
    rewrite (proj2 Hs (Hk t Ht)). reflexivity. }
  cbn [map existsb group group_type TokenType_eqb negb andb].
  rewrite (G ARGUMENTS), (G ATTRIBUTES), (G MODIFIERS), (G SPLATTRIBUTES)
    by discriminate.
  reflexivity.
Qed.

(** X25.  An element that complies is left alone.  When, in the applied
    order the rule uses for the element (of at least four entries), no
    token has a greater index than a token of a later category, and, if
    the rule alphabetizes, no key is less than the key before it in any
    category, the check returns the element as it was, in both modes; it
    logs nothing and requests no replacement. *)
Theorem compliant_element_is_left_alone
  (node : ElementNode) (r : Rule) (c0 c1 c2 c3 : TokenType)
  (rest : list TokenType) :
  let tgs := groupTokens (getElementNodeTokens node) in
  orderFor r tgs = c0 :: c1 :: c2 :: c3 :: rest ->
  in_applied_order (orderFor r tgs) tgs ->
  (alphabetize (config r) = true -> keys_in_order tgs) ->
  exists r',
    checkElementAttributesOrder node r = Return (node, r')
    /\ logged r' = logged r /\ replaced r' = replaced r.
Proof.
  intros tgs Ho Hcompliant Hkeys. unfold checkElementAttributesOrder.
  destruct (el_source node =? "")%string; [exists r; repeat split|].
  unfold bind at 1. unfold makeTokenGroups, bind at 1, set_tokenGroups, ret.
  unfold bind at 1. cbn [this config]. fold tgs.
  set (r1 := {| config := config r; mode := mode r;
                appliedOrder := appliedOrder r; tokenGroups := Some tgs;
                logged := logged r; replaced := replaced r |}).
  assert (Hguard : alphabetize (config r) && someGroupUnalphabetized tgs
                   && negb (areSplattributesSurrounded tgs) = false).
  { destruct (alphabetize (config r)) eqn:Ha; [|reflexivity].
    rewrite (someGroupUnalphabetized_none tgs (Hkeys eq_refl)). reflexivity. }
  (* the first call of the predicate memoizes the order; after it the
     rule does not change any more *)
  assert (Hstep : forall r0,
             tokenGroups r0 = Some tgs -> config r0 = config r ->
             appliedOrder r0 = Some (orderFor r tgs) ->
             forall types,
               forEachTokenType types node r0 = Return (node, r0)).
  { intros r0 Ht Hc Hm types.
    induction types as [|t types IH]; cbn [forEachTokenType]; [reflexivity|].
    unfold bind at 1. unfold checkTokenType, bind at 1.
    rewrite (getTokenGroups_some r0 tgs Ht). unfold bind at 1. cbn [this].
    rewrite Hc, Hguard. unfold bind at 1. cbn [ret]. unfold bind at 1.
    rewrite (isAttributeUnordered_compliant tgs _ Hcompliant r0 t
               c0 c1 c2 c3 rest Hm Ht Ho).
    cbn [ret]. exact IH. }
  destruct (order (config r)) as [|t types] eqn:Hord.
  { exists r1. repeat split. }
  destruct (appliedOrder r) as [o0|] eqn:Hmemo.
  - exists r1. split; [|split; reflexivity].
    apply Hstep; [reflexivity | reflexivity|].
    unfold orderFor. rewrite Hmemo. reflexivity.
  - set (r2 := {| config := config r; mode := mode r;
                  appliedOrder := Some (orderFor r tgs);
                  tokenGroups := Some tgs;
                  logged := logged r; replaced := replaced r |}).
    exists r2. split; [|split; reflexivity].
    assert (Hfirst : isAttributeUnordered t r1 = Return (false, r2)).
    { assert (Hcall : getAppliedOrder r1 = Return (orderFor r tgs, r2)).
      { unfold getAppliedOrder, bind, this, getTokenGroups, set_appliedOrder, ret.
        cbn [appliedOrder tokenGroups r1].
        subst r2. unfold orderFor. rewrite Hmemo. reflexivity. }
      pose proof (isAttributeUnordered_compliant tgs _ Hcompliant r2 t
                    c0 c1 c2 c3 rest eq_refl eq_refl Ho) as Hrun.
      unfold isAttributeUnordered, getOrder in Hrun |- *.
      unfold bind at 1 in Hrun. unfold bind at 1 in Hrun.
      rewrite (getAppliedOrder_memo r2 _ eq_refl) in Hrun. cbn [ret] in Hrun.
      unfold bind at 1. unfold bind at 1. rewrite Hcall. cbn [ret].
      exact Hrun. }
    cbn [forEachTokenType]. unfold bind at 1. unfold checkTokenType, bind at 1.
    rewrite (getTokenGroups_some r1 tgs eq_refl). unfold bind at 1. cbn [this].
    change (config r1) with (config r). rewrite Hguard.
    unfold bind at 1. cbn [ret]. unfold bind at 1. rewrite Hfirst. cbn [ret].
    apply (Hstep r2); reflexivity.
Qed.

End CompliantFacts.

(** ** A category that is not alphabetized *)

Module ReportedFacts.
Import Js AttributeOrder Spec Derived UnorderedFacts FixFacts.

Lemma someGroupUnalphabetized_some tgs t item :
  t <> COMMENTS ->
  findUnalphabetizedToken (group tgs t) = Some item ->
  someGroupUnalphabetized tgs = true.
Proof.
  intros Ht Hitem. unfold someGroupUnalphabetized. apply existsb_exists.
  exists (group tgs t). split.
  - unfold values. apply in_map. destruct t; cbn; tauto.
  - rewrite Hitem. cbn [group group_type].
    destruct t; try reflexivity. contradiction Ht. reflexivity.
Qed.

Lemma grown_In {A : Type} (l l' : list A) n x : grown l l' n -> In x l -> In x l'.
Proof. intros (added & -> & _) H. apply in_or_app. left. exact H. Qed.

Section Detect.

Variable tgs : TokenGroups.

Lemma checkTokenType_grows t node r node' r' :
  tokenGroups r = Some tgs -> mode r = DetectMode ->
  checkTokenType t node r = Return (node', r') ->
  forall d, In d (logged r) -> In d (logged r').
Proof.
  intros Ht Hm H d Hd.
  destruct (ReportFacts.checkTokenType_reports tgs _ _ _ _ _ Ht Hm H)
    as (ds & -> & _).
  apply in_or_app. left. exact Hd.
Qed.

Lemma forEachTokenType_grows types node r node' r' :
  tokenGroups r = Some tgs -> mode r = DetectMode ->
  forEachTokenType types node r = Return (node', r') ->
  forall d, In d (logged r) -> In d (logged r').
Proof.
  intros Ht Hm H d Hd.
  destruct (ReportFacts.forEachTokenType_reports tgs _ _ _ _ _ Ht Hm H)
    as (ds & -> & _).
  apply in_or_app. left. exact Hd.
Qed.

Lemma checkTokenType_logs t node r node' r' item :
  tokenGroups r = Some tgs -> mode r = DetectMode ->
  alphabetize (config r) = true ->
  t <> COMMENTS ->
  areSplattributesSurrounded tgs = false ->
  findUnalphabetizedToken (group tgs t) = Some item ->
  checkTokenType t node r = Return (node', r') ->
  In (notAlphabetized t item) (logged r').
Proof.
  intros Ht Hm Ha Hnc Hs Hitem H. unfold checkTokenType in H.
  minv H as g r0 Hg. apply getTokenGroups_inv in Hg. destruct Hg as [Hg ->].
  assert (g = tgs) by congruence. subst g.
  minv H as rr r0 Hthis. apply this_inv in Hthis. destruct Hthis as [-> ->].
  cbv zeta in H.
  rewrite Ha, (someGroupUnalphabetized_some tgs t item Hnc Hitem), Hs in H.
  cbn [andb negb] in H.
  minv H as node1 r1 Halpha. minv H as unordered r2 Hun.
  assert (Hlogged : In (notAlphabetized t item) (logged r1)).
  { unfold alphabetizeAttribute in Halpha.
    minv Halpha as g' r0 Hg'. apply getTokenGroups_inv in Hg'.
    destruct Hg' as [Hg' ->]. assert (g' = tgs) by congruence. subst g'.
    rewrite Hitem in Halpha.
    minv Halpha as rr r0 Hthis. apply this_inv in Hthis.
    destruct Hthis as [-> ->]. rewrite Hm in Halpha.
    minv Halpha as msg r3 Hmsg. minv Halpha as u r4 Hlog.
    apply lift_inv in Hmsg. destruct Hmsg as [Hmsg ->].
    rewrite createNotAlphabetizedErrorMessage_text in Hmsg.
    injection Hmsg as <-.
    apply log_inv in Hlog. destruct Hlog as (_ & _ & _ & _ & L & _).
    apply ret_inv in Halpha. destruct Halpha as [_ ->].
    rewrite L. apply in_or_app. right. left. reflexivity. }
  pose proof (alphabetizeAttribute_ok _ _ _ _ _ Halpha) as (_ & M1 & _).
  pose proof (isAttributeUnordered_frame _ _ _ _ Hun) as (_ & M2 & _ & L2 & _).
  rewrite <- L2 in Hlogged.
  destruct unordered.
  - destruct (ModeFacts.order_detect _ _ _ _ _ (eq_trans M2 (eq_trans M1 Hm)) H)
      as [_ G].
    exact (grown_In _ _ _ _ G Hlogged).
  - apply ret_inv in H. destruct H as [_ ->]. exact Hlogged.
Qed.

Lemma forEachTokenType_logs t item types : forall node r node' r',
  tokenGroups r = Some tgs -> mode r = DetectMode ->
  alphabetize (config r) = true ->
  In t types -> t <> COMMENTS ->
  areSplattributesSurrounded tgs = false ->
  findUnalphabetizedToken (group tgs t) = Some item ->
  forEachTokenType types node r = Return (node', r') ->
  In (notAlphabetized t item) (logged r').
Proof.
  induction types as [|t0 types IH];
    intros node r node' r' Ht Hm Ha Hin Hnc Hs Hitem H; [contradiction|].
  cbn [forEachTokenType] in H. minv H as node1 r1 H1.
  pose proof (checkTokenType_ok _ _ _ _ _ H1) as (C1 & M1 & T1 & _).
  assert (Ht1 : tokenGroups r1 = Some tgs) by congruence.
  assert (Hm1 : mode r1 = DetectMode) by congruence.
  destruct Hin as [->|Hin].
  - apply (forEachTokenType_grows _ _ _ _ _ Ht1 Hm1 H).
    exact (checkTokenType_logs _ _ _ _ _ _ Ht Hm Ha Hnc Hs Hitem H1).
  - apply (IH node1 r1 node' r'); try assumption. congruence.
Qed.

End Detect.

(** X26.  A category that is not alphabetized is reported.  In detection
    mode, when the rule alphabetizes, the element has a source text and its
    splattributes are not surrounded: for every token type of the
    configured order other than comments whose group has a key that is
    less than the key before it, a check that returns has logged the
    diagnostic that the first such token is not alphabetized. *)
Theorem unalphabetized_category_is_reported
  (node : ElementNode) (r : Rule) (node' : ElementNode) (r' : Rule)
  (t : TokenType) (item : Token) :
  let tgs := groupTokens (getElementNodeTokens node) in
  mode r = DetectMode ->
  alphabetize (config r) = true ->
  el_source node <> ""%string ->
  In t (order (config r)) -> t <> COMMENTS ->
  areSplattributesSurrounded tgs = false ->
  findUnalphabetizedToken (group tgs t) = Some item ->
  checkElementAttributesOrder node r = Return (node', r') ->
  In (notAlphabetized t item) (logged r').
Proof.
  intros tgs Hm Ha Hsrc Hin Hnc Hs Hitem H.
  unfold checkElementAttributesOrder in H.
  destruct (String.eqb_spec (el_source node) ""); [contradiction|].
  minv H as g r1 Hmk. minv H as rr r2 Hthis.
  apply makeTokenGroups_inv in Hmk.
  destruct Hmk as (_ & C1 & M1 & _ & T1 & _ & _).
  apply this_inv in Hthis. destruct Hthis as [-> ->].
  apply (forEachTokenType_logs tgs t item (order (config r1)) node r1 node' r'
                               T1 (eq_trans M1 Hm));
    try assumption; congruence.
Qed.

End ReportedFacts.

(** ** Fixes replace an element and sort a mustache statement in place *)

Module InPlaceFacts.
Import Js AttributeOrder Spec Derived.

Lemma sorts_pairs_iff r node :
  sorts_pairs (config r) node = true <-> pairs_unalphabetized r node.
Proof.
  unfold sorts_pairs.
  destruct (mu_source node =? "")%string eqn:Hsrc; cbn [negb andb].
  - split; [discriminate|]. intros (H & _).
    apply String.eqb_eq in Hsrc. contradiction.
  - pose proof (MustacheFacts.pairs_guard r node Hsrc) as G.
    destruct (path_type node) eqn:Hpath; cbn [andb].
    + exact (G eq_refl).
    + split; [discriminate|]. intros (_ & H & _). congruence.
Qed.

(** C7, amended.  A call of the check on an element node that returns: in
    detection mode leaves the node as it was and requests no replacement;
    in fix mode every replacement it requests is a node rebuilt from the
    element (same tag, children, block parameters and self-closing flag),
    and when it requests none the node is as it was.  A call on a mustache
    statement returns and never requests a replacement: detection mode
    leaves the statement as it was; the fix, when the statement is looked
    at (it has a source text, its path is a path expression and
    [alphabetize] is on) and the keys of its pairs are out of order, gives
    the statement itself with its hash pairs sorted by key, the pairs it
    had with no [key] greater than the next one; otherwise the fix leaves
    the statement as it was. *)
Theorem element_fix_replaces_mustache_fix_sorts_in_place :
  (forall node r node' r',
      checkElementAttributesOrder node r = Return (node', r') ->
      (mode r = DetectMode -> node' = node /\ replaced r' = replaced r)
      /\ (mode r = FixMode ->
          exists news,
            replaced r' = (replaced r ++ news)%list
            /\ Forall (rebuilt_from node) news
            /\ (news = [] -> node' = node)))
  /\ (forall node r,
        exists node' r',
          checkMustacheAttributesOrder node r = Return (node', r')
          /\ replaced r' = replaced r
          /\ (mode r = DetectMode -> node' = node)
          /\ (mode r = FixMode ->
              (pairs_unalphabetized r node ->
               node' = with_hash_pairs node
                                       (sort compareKeys (hash_pairs node))
               /\ Permutation (hash_pairs node') (hash_pairs node)
               /\ ordered_by key (hash_pairs node'))
              /\ (~ pairs_unalphabetized r node -> node' = node))).
Proof.
  split.
  - exact FixFacts.checkElementAttributesOrder_ok.
  - intros node r.
    destruct (TotalityFacts.checkMustacheAttributesOrder_returns node r)
      as (node' & r' & E).
    exists node', r'. split; [exact E|].
    destruct (FixFacts.checkMustacheAttributesOrder_ok _ _ _ _ E)
      as (Hrep & D & _).
    split; [exact Hrep|]. split; [exact D|].
    intros Hm.
    destruct (AgainFacts.mustache_fix_result node r Hm) as (r1 & E1 & _ & _).
    rewrite E1 in E. injection E as Hn _.
    pose proof (sorts_pairs_iff r node) as Hiff.
    destruct (sorts_pairs (config r) node); subst node'.
    + split.
      * intros _. split; [reflexivity|].
        cbn [with_hash_pairs hash_pairs].
        split; [apply SortFacts.sort_perm
               | apply (SortFacts.sort_ordered_by key)].
      * intros Hno. exfalso. apply Hno, Hiff. reflexivity.
    + split.
      * intros H. apply Hiff in H. discriminate.
      * intros _. reflexivity.
Qed.

End InPlaceFacts.

(** ** The statements above at the nodes of the examples *)

Module Samples.
Import Js AttributeOrder Spec Derived Examples.

(** The argument [@name] and the attribute [name] have the same key. *)
Lemma alpha_key_ignores_prefix_witness :
  alpha_key ("@" ++ "name=x") = alpha_key "name=x"
  /\ all_chars is_word_or_dash (alpha_key "name=x") = true
  /\ alpha_key (alpha_key "name=x") = alpha_key "name=x".
Proof. apply (GroupFacts.alpha_key_ignores_prefix "@" "name=x"). reflexivity. Defined.

(** The groups of [mixedDiv]: one argument and two attributes. *)
Lemma element_token_groups_witness :
  g_arguments (tokensOf mixedDiv) = [attrAt "@x" "3" 1 17]
  /\ g_attributes (tokensOf mixedDiv) = [attrAt "b" "1" 1 5; attrAt "a" "2" 1 11]
  /\ g_splattributes (tokensOf mixedDiv) = []
  /\ g_modifiers (tokensOf mixedDiv) = []
  /\ g_comments (tokensOf mixedDiv) = [].
Proof.
  apply (GroupFacts.element_token_groups mixedDiv).
  repeat constructor.
Defined.

(** The fix of [{{foo b=1 a=2}}] returns with the pairs it had. *)
Lemma mustache_fix_sorts_by_key_witness :
  exists node' r',
    checkMustacheAttributesOrder unsortedMustache (new_rule DEFAULT_CONFIG FixMode)
    = Return (node', r')
    /\ Permutation (hash_pairs node') (hash_pairs unsortedMustache).
Proof.
  destruct (MustacheFacts.mustache_fix_sorts_by_key
              unsortedMustache (new_rule DEFAULT_CONFIG FixMode) eq_refl)
    as (node' & r' & Hrun & _ & _ & _ & _ & _ & Hperm & _).
  exists node', r'. split; [exact Hrun | exact Hperm].
Defined.

(** The detection on [{{foo b=1 a=2}}] returns the statement as it was. *)
Lemma mustache_detection_reports_first_inversion_witness :
  exists r',
    checkMustacheAttributesOrder unsortedMustache
                                 (new_rule DEFAULT_CONFIG DetectMode)
    = Return (unsortedMustache, r')
    /\ replaced r' = [].
Proof.
  destruct (MustacheFacts.mustache_detection_reports_first_inversion
              unsortedMustache (new_rule DEFAULT_CONFIG DetectMode) eq_refl)
    as (r' & Hrun & Hrep & _).
  exists r'. split; [exact Hrun | exact Hrep].
Defined.

Lemma positive_sandwichedDiv : positive (tokensOf sandwichedDiv).
Proof.
  intros g Hg. unfold values in Hg. cbn in Hg.
  repeat (destruct Hg as [<-|Hg]; [repeat constructor|]).
  contradiction.
Defined.

(** [<div class="x" ...attributes @a="1">] is left alone in fix mode. *)
Lemma sandwiched_node_untouched_witness :
  exists r',
    checkElementAttributesOrder sandwichedDiv (new_rule DEFAULT_CONFIG FixMode)
    = Return (sandwichedDiv, r')
    /\ logged r' = [] /\ replaced r' = [].
Proof.
  apply (SurroundedFacts.sandwiched_node_untouched
           sandwichedDiv (new_rule DEFAULT_CONFIG FixMode)
           positive_sandwichedDiv).
  exists 15, 5, 29. repeat split.
Defined.

(** The check of [mixedDiv] with the default configuration returns. *)
Lemma checkElementAttributesOrder_returns_witness :
  exists node' r',
    checkElementAttributesOrder mixedDiv (new_rule DEFAULT_CONFIG FixMode)
    = Return (node', r').
Proof.
  apply (TotalityFacts.checkElementAttributesOrder_returns
           mixedDiv (new_rule DEFAULT_CONFIG FixMode)).
  - cbn. lia.
  - intros o H. discriminate H.
Defined.

(** The first call on [spreadFirstDiv] memoizes its order. *)
Lemma getAppliedOrder_ignores_configured_place_witness :
  exists o r',
    getAppliedOrder (ruleOn spreadFirstDiv DEFAULT_CONFIG DetectMode)
    = Return (o, r')
    /\ appliedOrder r' = Some o.
Proof.
  destruct (MemoFacts.getAppliedOrder_ignores_configured_place
              (ruleOn spreadFirstDiv DEFAULT_CONFIG DetectMode)
              (tokensOf spreadFirstDiv) eq_refl eq_refl)
    as (o & r' & Hrun & _ & _ & Hmemo & _).
  exists o, r'. split; [exact Hrun | exact Hmemo].
Defined.

(** A rule that has memoized the order of [spreadFirstDiv] still has it
    after the check of [spreadLastDiv]. *)
Lemma applied_order_is_never_reset_witness :
  exists node' r',
    checkElementAttributesOrder
      spreadLastDiv
      (ruleWithMemo [SPLATTRIBUTES; ARGUMENTS; ATTRIBUTES; MODIFIERS]
                    DEFAULT_CONFIG DetectMode)
    = Return (node', r')
    /\ appliedOrder r' = Some [SPLATTRIBUTES; ARGUMENTS; ATTRIBUTES; MODIFIERS].
Proof.
  eexists. eexists. split.
  - cbv. reflexivity.
  - refine (proj1 (proj1 (MemoFacts.applied_order_is_never_reset
                            (ruleWithMemo
                               [SPLATTRIBUTES; ARGUMENTS; ATTRIBUTES; MODIFIERS]
                               DEFAULT_CONFIG DetectMode)
                            [SPLATTRIBUTES; ARGUMENTS; ATTRIBUTES; MODIFIERS]
                            eq_refl)
                         spreadLastDiv _ _ _)).
    cbv. reflexivity.
Defined.

(** The detection on [unsortedDiv] logs diagnostics about its tokens. *)
Lemma element_diagnostics_witness :
  exists node' r',
    checkElementAttributesOrder unsortedDiv (new_rule DEFAULT_CONFIG DetectMode)
    = Return (node', r')
    /\ exists ds,
        logged r' = ds
        /\ Forall (fun d => In (d_node d) (tokens_of unsortedDiv)) ds.
Proof.
  eexists. eexists. split.
  - cbv. reflexivity.
  - edestruct (ReportFacts.element_diagnostics
                 unsortedDiv (new_rule DEFAULT_CONFIG DetectMode))
      as [_ HD]; [cbv; reflexivity|].
    destruct (HD eq_refl) as (ds & Hlog & _ & _ & Hin).
    exists ds. split; [exact Hlog | exact Hin].
Defined.

(** The fix of the order of [mixedDiv] when attributes go first. *)
Lemma orderAttribute_sorts_by_rank_stably_witness :
  exists sorted r',
    orderAttribute ARGUMENTS mixedDiv
      (ruleWithin mixedDiv [ATTRIBUTES; ARGUMENTS; MODIFIERS; SPLATTRIBUTES]
                  attributesFirst FixMode)
    = Return (mixedDiv, r')
    /\ replaced r' = [rebuilt mixedDiv sorted]
    /\ Permutation sorted (attributes mixedDiv ++ modifiers mixedDiv).
Proof.
  destruct (OrderFacts.orderAttribute_sorts_by_rank_stably
              ARGUMENTS mixedDiv
              (ruleWithin mixedDiv [ATTRIBUTES; ARGUMENTS; MODIFIERS; SPLATTRIBUTES]
                          attributesFirst FixMode)
              [ATTRIBUTES; ARGUMENTS; MODIFIERS; SPLATTRIBUTES]
              (tokensOf mixedDiv) eq_refl eq_refl eq_refl eq_refl)
    as (sorted & r' & Hrun & Hrep & _ & Hperm & _).
  exists sorted, r'. split; [exact Hrun|]. split; [exact Hrep | exact Hperm].
Defined.

(** The fix of the alphabetical order of [mixedDiv]. *)
Lemma alphabetizeAttribute_sorts_by_name_witness :
  exists node' r' new,
    alphabetizeAttribute ATTRIBUTES mixedDiv
                         (ruleOn mixedDiv attributesFirst FixMode)
    = Return (node', r')
    /\ replaced r' = [new; new]
    /\ ordered_by name (attributes node').
Proof.
  destruct (AlphabetizeFacts.alphabetizeAttribute_sorts_by_name
              ATTRIBUTES mixedDiv (ruleOn mixedDiv attributesFirst FixMode)
              (tokensOf mixedDiv) (attrAt "a" "2" 1 11)
              eq_refl eq_refl eq_refl eq_refl)
    as (node' & r' & new & Hrun & Hrep & _ & _ & _ & _ & Hord & _).
  - repeat (constructor; [split; [split; reflexivity | discriminate]|]).
    constructor.
  - exists node', r', new. split; [exact Hrun|]. split; [exact Hrep | exact Hord].
Defined.


(** After the fix of [unsortedDiv] the element has the tokens it had. *)
Lemma element_check_state_witness :
  exists node' r',
    checkElementAttributesOrder unsortedDiv (new_rule DEFAULT_CONFIG FixMode)
    = Return (node', r')
    /\ tokenGroups r' = Some (tokensOf unsortedDiv)
    /\ same_tokens unsortedDiv node'.
Proof.
  eexists. eexists. split.
  - cbv. reflexivity.
  - edestruct (CheckFacts.element_check_state
                 unsortedDiv (new_rule DEFAULT_CONFIG FixMode))
      as (_ & _ & _ & Hgroups & _ & Htokens); [cbv; reflexivity|].
    split; [apply Hgroups; discriminate | exact Htokens].
Defined.

(** With splattributes first, arguments are told to go after arguments. *)
Lemma createUnorderedErrorMessage_text_witness :
  createUnorderedErrorMessage
    ARGUMENTS "@a"
    (ruleWithMemo [SPLATTRIBUTES; ARGUMENTS; ATTRIBUTES; MODIFIERS]
                  DEFAULT_CONFIG DetectMode)
  = Return ("Argument @a must go after arguments"%string,
            ruleWithMemo [SPLATTRIBUTES; ARGUMENTS; ATTRIBUTES; MODIFIERS]
                         DEFAULT_CONFIG DetectMode).
Proof.
  exact (proj1 (CheckFacts.createUnorderedErrorMessage_text
                  ARGUMENTS "@a"
                  (ruleWithMemo [SPLATTRIBUTES; ARGUMENTS; ATTRIBUTES; MODIFIERS]
                                DEFAULT_CONFIG DetectMode)
                  [SPLATTRIBUTES; ARGUMENTS; ATTRIBUTES; MODIFIERS] eq_refl)).
Defined.

(** The configuration for [{ alphabetize: false }]. *)
Lemma parseConfig_merges_over_defaults_witness :
  exists cprops,
    Config.parseConfig listlike_validator plain_message
      (Config.JsObject [("alphabetize", Config.JsBoolean false)])
    = Return (Config.JsObject cprops)
    /\ Config.lookup "alphabetize" cprops = Some (Config.JsBoolean false)
    /\ Config.lookup "order" cprops
       = Some (Config.JsArray (map Config.JsString Config.REQUIRED)).
Proof.
  destruct (MergeFacts.parseConfig_merges_over_defaults
              listlike_validator plain_message
              [("alphabetize", Config.JsBoolean false)]
              (Config.JsObject
                 [("alphabetize", Config.JsBoolean false);
                  ("order",
                   Config.JsArray (map Config.JsString Config.REQUIRED))]))
    as (cprops & Hc & Hk & _).
  - repeat constructor. intros [].
  - reflexivity.
  - exists cprops. split; [rewrite <- Hc; reflexivity|].
    split; [apply (Hk "alphabetize") | apply (Hk "order")].
Defined.

(** On [unsortedDiv] the detection logs and the fix replaces. *)
Lemma fix_acts_iff_detection_reports_witness :
  exists nodeD rD' nodeF rF',
    checkElementAttributesOrder unsortedDiv (new_rule DEFAULT_CONFIG DetectMode)
    = Return (nodeD, rD')
    /\ checkElementAttributesOrder unsortedDiv (new_rule DEFAULT_CONFIG FixMode)
       = Return (nodeF, rF')
    /\ (logged rD' = [] <-> replaced rF' = []).
Proof.
  eexists. eexists. eexists. eexists.
  split; [cbv; reflexivity|]. split; [cbv; reflexivity|].
  refine (proj1 (ModeFacts.fix_acts_iff_detection_reports
                   unsortedDiv (new_rule DEFAULT_CONFIG DetectMode)
                   (new_rule DEFAULT_CONFIG FixMode) _ _ _ _
                   eq_refl eq_refl eq_refl eq_refl _ _));
    cbv; reflexivity.
Defined.

(** The spread of [sandwichedDiv] is enclosed by the class and the
    argument. *)
Lemma surrounded_exactly_witness :
  areSplattributesSurrounded (tokensOf sandwichedDiv) = true
  /\ exists s, lastIndex (group (tokensOf sandwichedDiv) SPLATTRIBUTES) = Some s
               /\ 1 < s.
Proof.
  split; [reflexivity|].
  apply (proj2 (EnclosedFacts.surrounded_exactly (tokensOf sandwichedDiv)));
    [|reflexivity].
  intros g Hg. unfold values in Hg. cbn in Hg.
  repeat (destruct Hg as [<-|Hg]; [repeat constructor; cbv; discriminate|]).
  contradiction.
Defined.

(** The fix of [{{foo b=1 a=2}}], applied twice. *)
Lemma mustache_fix_is_idempotent_witness :
  exists node1 r1 node2 r2,
    checkMustacheAttributesOrder unsortedMustache (new_rule DEFAULT_CONFIG FixMode)
    = Return (node1, r1)
    /\ checkMustacheAttributesOrder node1 r1 = Return (node2, r2)
    /\ node2 = node1.
Proof.
  eexists. eexists. eexists. eexists.
  split; [cbv; reflexivity|]. split; [cbv; reflexivity|].
  refine (AgainFacts.mustache_fix_is_idempotent
            unsortedMustache (new_rule DEFAULT_CONFIG FixMode) _ _ _ _
            eq_refl _ _ _ _).
  - cbn. constructor; [intros [H|[]]; discriminate H|].
    constructor; [intros []|constructor].
  - repeat (constructor; [discriminate|]). constructor.
  - cbv. reflexivity.
  - cbv. reflexivity.
Defined.

Lemma mixedDivFixed_in_order :
  in_applied_order [ARGUMENTS; ATTRIBUTES; MODIFIERS; SPLATTRIBUTES]
                   (tokensOf mixedDivFixed).
Proof.
  intros i j ti tj x y Hi Hj Hlt Hx Hy.
  destruct i as [|[|[|[|i]]]]; cbn in Hi; try (destruct i; discriminate Hi);
    injection Hi as <-;
    destruct j as [|[|[|[|j]]]]; cbn in Hj; try (destruct j; discriminate Hj);
    try lia; injection Hj as <-;
    vm_compute in Hx, Hy;
    repeat match goal with
           | H : _ \/ _ |- _ => destruct H as [H|H]
           | H : False |- _ => contradiction H
           end;
    subst; vm_compute; discriminate.
Defined.

(** [<div @x="3" a="2" b="1">] complies with the default configuration. *)
Lemma compliant_element_is_left_alone_witness :
  exists r',
    checkElementAttributesOrder mixedDivFixed (new_rule DEFAULT_CONFIG DetectMode)
    = Return (mixedDivFixed, r')
    /\ logged r' = [] /\ replaced r' = [].
Proof.
  apply (CompliantFacts.compliant_element_is_left_alone
           mixedDivFixed (new_rule DEFAULT_CONFIG DetectMode)
           ARGUMENTS ATTRIBUTES MODIFIERS SPLATTRIBUTES []).
  - reflexivity.
  - exact mixedDivFixed_in_order.
  - intros _ t Ht. destruct t; try contradiction; vm_compute; repeat constructor.
Defined.

(** In [unsortedDiv] the attribute [a="2"] comes after [b="1"]. *)
Lemma unalphabetized_category_is_reported_witness :
  exists node' r',
    checkElementAttributesOrder unsortedDiv (new_rule DEFAULT_CONFIG DetectMode)
    = Return (node', r')
    /\ In (notAlphabetized ATTRIBUTES (attrAt "a" "2" 1 11)) (logged r').
Proof.
  eexists. eexists. split.
  - cbv. reflexivity.
  - refine (ReportedFacts.unalphabetized_category_is_reported
              unsortedDiv (new_rule DEFAULT_CONFIG DetectMode) _ _
              ATTRIBUTES (attrAt "a" "2" 1 11)
              eq_refl eq_refl _ _ _ eq_refl eq_refl _).
    + discriminate.
    + right. left. reflexivity.
    + discriminate.
    + cbv. reflexivity.
Defined.

(** In [twinCommentsDiv] the lookup of the second comment gives the
    first one. *)
Lemma lookups_give_the_first_match_witness :
  getNode (tokensOf twinCommentsDiv) (commentAt " c " 1 24)
  = Some (commentAt " c " 1 5).
Proof.
  apply (proj2 (proj2 (proj2 LookupFacts.lookups_give_the_first_match))
               (tokensOf twinCommentsDiv)
               [attrAt "@a" "1" 1 33; attrAt "class" "x" 1 14]
               (commentAt " c " 1 5) [] (commentAt " c " 1 24) []);
    try reflexivity.
  repeat constructor; intros (Ht & _); discriminate.
Defined.

(** The fix of [mixedDiv] returns and every node it puts in place is
    rebuilt from [mixedDiv]; the fix of [{{foo b=1 a=2}}] returns the
    statement itself with the pairs [a], [b] and requests no replacement. *)
Lemma element_fix_replaces_mustache_fix_sorts_in_place_witness :
  (exists node' r',
      checkElementAttributesOrder mixedDiv (new_rule attributesFirst FixMode)
      = Return (node', r')
      /\ replaced r' <> []
      /\ Forall (rebuilt_from mixedDiv) (replaced r'))
  /\ (exists r',
        checkMustacheAttributesOrder unsortedMustache
                                     (new_rule DEFAULT_CONFIG FixMode)
        = Return (with_hash_pairs unsortedMustache
                    [pairAt "a" "2" 1 10; pairAt "b" "1" 1 6], r')
        /\ replaced r' = []).
Proof.
  split.
  - destruct (checkElementAttributesOrder mixedDiv
                (new_rule attributesFirst FixMode)) as [[node' r']|e] eqn:E;
      [|vm_compute in E; discriminate].
    exists node', r'. split; [reflexivity|].
    destruct (proj1 InPlaceFacts.element_fix_replaces_mustache_fix_sorts_in_place
                    _ _ _ _ E) as (_ & Hfix).
    destruct (Hfix eq_refl) as (news & Hrep & Hall & _).
    split.
    + vm_compute in E. injection E as _ <-. discriminate.
    + rewrite Hrep. exact Hall.
  - destruct (proj2 InPlaceFacts.element_fix_replaces_mustache_fix_sorts_in_place
                    unsortedMustache (new_rule DEFAULT_CONFIG FixMode))
      as (node' & r' & E & Hrep & _ & Hfix).
    destruct (Hfix eq_refl) as (Hsorts & _).
    destruct Hsorts as (Hn & _ & _);
      [apply InPlaceFacts.sorts_pairs_iff; reflexivity|].
    exists r'. split; [rewrite E, Hn; reflexivity | exact Hrep].
Defined.

End Samples.
